(** * Note organizer: the persistence and query layer of [backend/app/db.py]

    A shallow embedding of the SQLite-backed note repository, statement by
    statement: the three tables of [init_db], the tag normaliser
    ([get_or_create_tag_ids], [set_note_tags], [get_tags_for_note]) and the
    repository operations ([list_notes], [create_note], [get_note],
    [update_note], [delete_note], [list_all_tags], [seed_data]).

    Conventions.
    - Text is a [string]; each [ascii] stands for one code point below 256.
    - Timestamps ([CURRENT_TIMESTAMP], one-second resolution) are whole
      seconds in [Z]; textual comparison of the stored form agrees with it.
    - Row ids are unbounded integers (the engine's 2^63-1 ceiling is never
      approached by one-at-a-time [AUTOINCREMENT]). The [OverflowError] with
      which [sqlite3] refuses to bind an integer outside the signed 64-bit
      range is not modelled: what is stated of an id that no row carries is
      stated for ids within that range, [Sql.integer].
    - A table is the list of its rows in insertion order. *)

From Stdlib Require Import ZArith List String Ascii Bool Lia Sorted Permutation.
From stdpp Require Import base decidable option list strings sorting.

Local Open Scope Z_scope.

(** ** Text primitives used by the source *)

Module Text.

(** [str.isspace] of Python, restricted to code points below 256. *)
Definition isspace (c : ascii) : bool :=
  let n := N_of_ascii c in
  (((9 <=? n) && (n <=? 13)) || ((28 <=? n) && (n <=? 32))
   || (n =? 133) || (n =? 160))%N.

Fixpoint lstrip (s : string) : string :=
  match s with
  | EmptyString => EmptyString
  | String c s' => if isspace c then lstrip s' else s
  end.

Fixpoint rstrip (s : string) : string :=
  match s with
  | EmptyString => EmptyString
  | String c s' =>
      match rstrip s' with
      | EmptyString => if isspace c then EmptyString else String c EmptyString
      | r => String c r
      end
  end.

(** [name.strip()] *)
Definition strip (s : string) : string := rstrip (lstrip s).

(** Python truthiness of a [str]: [if name:] *)
Definition nonempty (s : string) : bool :=
  match s with EmptyString => false | _ => true end.

(** Python truthiness of an [Optional[str]]: [if q:] *)
Definition truthy (o : option string) : bool :=
  match o with Some s => nonempty s | None => false end.

(** ASCII lower-casing, the only case folding [LIKE] performs. *)
Definition lower (c : ascii) : ascii :=
  let n := N_of_ascii c in
  if ((65 <=? n) && (n <=? 90))%N then ascii_of_N (n + 32) else c.

Definition eqb_nocase (c d : ascii) : bool := Ascii.eqb (lower c) (lower d).

(** The matching of the engine's [LIKE] without [ESCAPE]: [%] matches any
    run of characters, [_] exactly one, anything else itself up to ASCII
    case. (Text is taken free of NUL. The engine refuses a pattern that is
    too long before it matches anything: see [Sql.like].) *)
Fixpoint like (pat : string) : string -> bool :=
  match pat with
  | EmptyString => fun s => negb (nonempty s)
  | String c p =>
      if Ascii.eqb c "%" then
        fix star (s : string) : bool :=
          like p s || match s with
                      | EmptyString => false
                      | String _ s' => star s'
                      end
      else if Ascii.eqb c "_" then
        fun s => match s with
                 | EmptyString => false
                 | String _ s' => like p s'
                 end
      else
        fun s => match s with
                 | EmptyString => false
                 | String d s' => eqb_nocase c d && like p s'
                 end
  end.

(** [f"%{q}%"] *)
Definition contains_pattern (q : string) : string :=
  String "%" (q ++ String "%" EmptyString)%string.

(** The number of bytes of the UTF-8 form in which the engine holds a text:
    one for a code point below 128, two for the others below 256. *)
Fixpoint utf8_length (s : string) : Z :=
  match s with
  | EmptyString => 0
  | String c s' => (if (N_of_ascii c <? 128)%N then 1 else 2) + utf8_length s'
  end.





(** [sorted(set(names))]: code-point order, duplicates removed. *)
Definition sorted_set (names : list string) : list string :=
  merge_sort String.le (remove_dups names).

End Text.

(** ** The tables of [init_db] *)

Module Note.
Record row := mk {
  id : Z;
  title : string;
  content : string;
  category : option string;
  created_at : Z;
  updated_at : Z
}.
End Note.

Module Tag.
Record row := mk { id : Z; name : string }.
End Tag.

Module NoteTag.
Record row := mk { note_id : Z; tag_id : Z }.
End NoteTag.

#[global] Instance note_row_eq_dec : EqDecision Note.row.
Proof. solve_decision. Defined.
#[global] Instance tag_row_eq_dec : EqDecision Tag.row.
Proof. solve_decision. Defined.
#[global] Instance note_tag_row_eq_dec : EqDecision NoteTag.row.
Proof. solve_decision. Defined.

(** The database file: three tables and the two [AUTOINCREMENT] counters the
    engine keeps in [sqlite_sequence]. *)
Record database := {
  notes : list Note.row;
  notes_seq : Z;
  tags : list Tag.row;
  tags_seq : Z;
  note_tags : list NoteTag.row
}.

(** The three tables, just created. *)
Definition empty_db : database :=
  {| notes := []; notes_seq := 0; tags := []; tags_seq := 0; note_tags := [] |}.

(** [init_db]: every [CREATE TABLE] is [IF NOT EXISTS], so a file that holds
    the tables already ([Some d]) is left as it is and a fresh one ([None])
    gets them empty. *)
Definition init_db (file : option database) : database :=
  match file with
  | Some d => d
  | None => empty_db
  end.

(** A connection: the database under the open transaction, and the
    per-connection [foreign_keys] pragma. *)
Record connection := {
  foreign_keys : bool;
  db : database
}.

(** [sqlite3.connect]: the pragma starts at the engine's default, off.
    Nothing in the source ever issues [PRAGMA foreign_keys = ON]. *)
Definition connect (d : database) : connection :=
  {| foreign_keys := false; db := d |}.

(** ** Statements run in a state-and-error monad over the connection *)

Inductive error :=
  | IntegrityError (constraint : string)   (* sqlite3.IntegrityError *)
  | OperationalError (what : string)       (* sqlite3.OperationalError *)
  | TypeError (what : string)              (* a [None] used as a row *)
  | AttributeError (what : string).        (* a method the value lacks *)

Inductive result (A : Type) :=
  | Ok (a : A)
  | Raise (e : error).
Arguments Ok {A} a.
Arguments Raise {A} e.

(** Sequencing of two steps that may raise. *)
Definition and_then {A B} (r : result A) (k : A -> result B) : result B :=
  match r with
  | Ok a => k a
  | Raise e => Raise e
  end.

(** [for x in xs], each round yielding rows or raising. *)
Fixpoint loop {A B} (xs : list A) (body : A -> result (list B))
    : result (list B) :=
  match xs with
  | [] => Ok []
  | x :: rest =>
      and_then (body x) (fun rows =>
      and_then (loop rest body) (fun more => Ok (rows ++ more)))
  end.

Definition M (A : Type) : Type := connection -> result (A * connection).

Definition ret {A} (a : A) : M A := fun c => Ok (a, c).

Definition bind {A B} (m : M A) (k : A -> M B) : M B :=
  fun c => match m c with
           | Ok (a, c') => k a c'
           | Raise e => Raise e
           end.

Definition raise {A} (e : error) : M A := fun _ => Raise e.

(** A read-only statement. *)
Definition query {A} (f : database -> A) : M A := fun c => Ok (f (db c), c).

(** A write that cannot fail. *)
Definition modify (f : database -> database) : M unit :=
  fun c => Ok (tt, {| foreign_keys := foreign_keys c; db := f (db c) |}).

Declare Scope db_scope.
Delimit Scope db_scope with db.
Notation "'let*' x ':=' m 'in' k" := (bind m (fun x => k))
  (at level 10, x name, m at level 100, k at level 200) : db_scope.
Notation "m >> k" := (bind m (fun _ => k))
  (at level 100, k at level 200, right associativity) : db_scope.
Local Open Scope db_scope.

(** [for x in xs: body(x)] *)
Fixpoint for_each {A} (xs : list A) (body : A -> M unit) : M unit :=
  match xs with
  | [] => ret tt
  | x :: rest => body x >> for_each rest body
  end.

(** ** The SQL statements of the source, one definition per statement *)

Module Sql.

(** The integers the engine stores and [sqlite3] binds: signed 64-bit. *)
Definition integer (v : Z) : Prop := - 2 ^ 63 ≤ v < 2 ^ 63.

(** [AUTOINCREMENT]: one more than the largest rowid the table ever held. *)
Definition next_rowid (seq : Z) (ids : list Z) : Z :=
  Z.max seq (foldr Z.max 0 ids) + 1.

(** [cursor.fetchone()] *)
Definition fetchone {A} (rows : list A) : option A := head rows.

(** [SELECT id FROM tags WHERE name = ?] *)
Definition select_tag_id (name : string) : M (list Z) :=
  query (fun d => Tag.id <$> filter (fun t => Tag.name t = name) (tags d)).

(** [INSERT INTO tags (name) VALUES (?)], returning [lastrowid];
    [name] is declared [UNIQUE]. *)
Definition insert_tag (name : string) : M Z := fun c =>
  let d := db c in
  if bool_decide (name ∈ Tag.name <$> tags d) then
    Raise (IntegrityError "UNIQUE constraint failed: tags.name")
  else
    let rowid := next_rowid (tags_seq d) (Tag.id <$> tags d) in
    Ok (rowid,
        {| foreign_keys := foreign_keys c;
           db := {| notes := notes d; notes_seq := notes_seq d;
                    tags := tags d ++ [Tag.mk rowid name];
                    tags_seq := rowid;
                    note_tags := note_tags d |} |}).

(** [DELETE FROM note_tags WHERE note_id = ?] *)
Definition delete_note_tags (note_id : Z) : M unit :=
  modify (fun d =>
    {| notes := notes d; notes_seq := notes_seq d;
       tags := tags d; tags_seq := tags_seq d;
       note_tags := filter (fun x => NoteTag.note_id x ≠ note_id) (note_tags d) |}).

(** [INSERT OR IGNORE INTO note_tags (note_id, tag_id) VALUES (?, ?)]:
    a primary-key conflict is ignored; a missing parent row is an error
    only on a connection that enforces foreign keys. *)
Definition insert_or_ignore_note_tag (note_id tag_id : Z) : M unit := fun c =>
  let d := db c in
  let x := NoteTag.mk note_id tag_id in
  if bool_decide (x ∈ note_tags d) then Ok (tt, c)
  else if foreign_keys c
          && negb (bool_decide (note_id ∈ Note.id <$> notes d)
                   && bool_decide (tag_id ∈ Tag.id <$> tags d)) then
    Raise (IntegrityError "FOREIGN KEY constraint failed")
  else
    Ok (tt,
        {| foreign_keys := foreign_keys c;
           db := {| notes := notes d; notes_seq := notes_seq d;
                    tags := tags d; tags_seq := tags_seq d;
                    note_tags := note_tags d ++ [x] |} |}).

(** [SELECT name FROM tags WHERE id = ?] *)
Definition select_tag_name (tag_id : Z) : M (list string) :=
  query (fun d => Tag.name <$> filter (fun t => Tag.id t = tag_id) (tags d)).

(** [SELECT t.name FROM tags t JOIN note_tags nt ON nt.tag_id = t.id
     WHERE nt.note_id = ? ORDER BY t.name ASC] *)
Definition tag_names_of (d : database) (note_id : Z) : list string :=
  merge_sort String.le
    (t ← tags d;
     nt ← note_tags d;
     if decide (NoteTag.tag_id nt = Tag.id t ∧ NoteTag.note_id nt = note_id)
     then [Tag.name t] else []).

Definition select_tag_names_of_note (note_id : Z) : M (list string) :=
  query (fun d => tag_names_of d note_id).

(** [INSERT INTO notes (title, content, category) VALUES (?, ?, ?)],
    returning [lastrowid]; both timestamps default to [CURRENT_TIMESTAMP]. *)
Definition insert_note (now : Z) (title content : string)
    (category : option string) : M Z := fun c =>
  let d := db c in
  let rowid := next_rowid (notes_seq d) (Note.id <$> notes d) in
  Ok (rowid,
      {| foreign_keys := foreign_keys c;
         db := {| notes := notes d ++ [Note.mk rowid title content category now now];
                  notes_seq := rowid;
                  tags := tags d; tags_seq := tags_seq d;
                  note_tags := note_tags d |} |}).

(** [SELECT * FROM notes WHERE id = ?] (and [SELECT id FROM notes ...]) *)
Definition select_note (note_id : Z) : M (list Note.row) :=
  query (fun d => filter (fun r => Note.id r = note_id) (notes d)).

(** The [SET] items [update_note] collects in [sets]. *)
Inductive assignment :=
  | SetTitle (v : string)
  | SetContent (v : string)
  | SetCategory (v : option string)
  | SetUpdatedAtNow.

Definition assign (now : Z) (r : Note.row) (a : assignment) : Note.row :=
  match a with
  | SetTitle v =>
      Note.mk (Note.id r) v (Note.content r) (Note.category r)
              (Note.created_at r) (Note.updated_at r)
  | SetContent v =>
      Note.mk (Note.id r) (Note.title r) v (Note.category r)
              (Note.created_at r) (Note.updated_at r)
  | SetCategory v =>
      Note.mk (Note.id r) (Note.title r) (Note.content r) v
              (Note.created_at r) (Note.updated_at r)
  | SetUpdatedAtNow =>
      Note.mk (Note.id r) (Note.title r) (Note.content r) (Note.category r)
              (Note.created_at r) now
  end.

(** [UPDATE notes SET <sets> WHERE id = ?] *)
Definition update_notes (now : Z) (sets : list assignment) (note_id : Z) : M unit :=
  modify (fun d =>
    {| notes := (fun r => if decide (Note.id r = note_id)
                          then foldl (assign now) r sets else r) <$> notes d;
       notes_seq := notes_seq d;
       tags := tags d; tags_seq := tags_seq d;
       note_tags := note_tags d |}).

(** [DELETE FROM notes WHERE id = ?], returning [rowcount]. The
    [ON DELETE CASCADE] of [note_tags.note_id] acts only on a connection
    that enforces foreign keys. *)
Definition delete_notes (note_id : Z) : M nat := fun c =>
  let d := db c in
  let hit := filter (fun r => Note.id r = note_id) (notes d) in
  Ok (length hit,
      {| foreign_keys := foreign_keys c;
         db := {| notes := filter (fun r => Note.id r ≠ note_id) (notes d);
                  notes_seq := notes_seq d;
                  tags := tags d; tags_seq := tags_seq d;
                  note_tags :=
                    if foreign_keys c && negb (bool_decide (hit = []))
                    then filter (fun x => NoteTag.note_id x ≠ note_id) (note_tags d)
                    else note_tags d |} |}).

(** [SELECT name FROM tags ORDER BY name ASC] *)
Definition select_all_tag_names : M (list string) :=
  query (fun d => merge_sort String.le (Tag.name <$> tags d)).

(** [SELECT COUNT( * ) AS c FROM notes] *)
Definition count_notes : M nat := query (fun d => length (notes d)).

(** *** The dynamic query of [list_notes] *)

Inductive join_clause :=
  | JoinNoteTags   (* JOIN note_tags nt ON nt.note_id = n.id *)
  | JoinTags.      (* JOIN tags t ON t.id = nt.tag_id *)

(** A [where] fragment together with the parameters bound to it. *)
Inductive where_clause :=
  | TitleOrContentLike (p1 p2 : string)  (* (n.title LIKE ? OR n.content LIKE ?) *)
  | CategoryEq (c : string)              (* n.category = ? *)
  | TagNameEq (name : string).           (* t.name = ? *)

(** [SQLITE_MAX_LIKE_PATTERN_LENGTH], in bytes. *)
Definition max_like_pattern_length : Z := 50000.

(** [text LIKE pattern], applied to one row: a pattern longer than the
    limit is refused with an error, whatever the text. *)
Definition like (pattern text : string) : result bool :=
  if bool_decide (Text.utf8_length pattern ≤ max_like_pattern_length)
  then Ok (Text.like pattern text)
  else Raise (OperationalError "LIKE or GLOB pattern too complex").

(** A [WHERE] term tested on a row of [notes n]. [OR] stops at the first
    operand that holds. [t.name = ?] reads no column of [n]: it is decided
    on the row of [tags], see [names]. *)
Definition holds (r : Note.row) (w : where_clause) : result bool :=
  match w with
  | TitleOrContentLike p1 p2 =>
      and_then (like p1 (Note.title r)) (fun b =>
      if b then Ok true else like p2 (Note.content r))
  | CategoryEq c => Ok (bool_decide (Note.category r = Some c))
  | TagNameEq _ => Ok true
  end.

(** The terms joined by [AND], tested in the order written, up to the first
    that fails. *)
Fixpoint all_hold (r : Note.row) (where_ : list where_clause) : result bool :=
  match where_ with
  | [] => Ok true
  | w :: rest =>
      and_then (holds r w) (fun b => if b then all_hold r rest else Ok false)
  end.

(** [t.name = ?] on a row of [tags t]. *)
Definition names (y : Tag.row) (w : where_clause) : bool :=
  match w with
  | TagNameEq name => bool_decide (Tag.name y = name)
  | _ => true
  end.

(** The rows of [tags t] the statement asks for by name. *)
Definition named_tags (d : database) (where_ : list where_clause)
    : list Tag.row :=
  filter (fun y => forallb (names y) where_ = true) (tags d).

(** [ORDER BY n.updated_at DESC, n.created_at DESC] *)
Definition order_by (a b : Note.row) : Prop :=
  Note.updated_at b < Note.updated_at a
  ∨ (Note.updated_at a = Note.updated_at b
     ∧ Note.created_at b ≤ Note.created_at a).

#[global] Instance order_by_dec : RelDecision order_by.
Proof. intros a b; unfold order_by; apply _. Defined.

(** The engine's sorter: rows whose keys are equal stay in the order in
    which the loops produced them. *)
Fixpoint sorted_insert (r : Note.row) (rows : list Note.row) : list Note.row :=
  match rows with
  | [] => [r]
  | x :: rest =>
      if decide (order_by r x) then r :: rows else x :: sorted_insert r rest
  end.

Definition sort_rows (rows : list Note.row) : list Note.row :=
  foldr sorted_insert [] rows.

(** [SELECT n.* FROM notes n <join> WHERE <where joined by AND> ORDER BY ...],
    as the engine runs it. [join] is empty or holds the two [JOIN]s that
    [list_notes] appends together. Without them the statement is one scan
    of [notes] in rowid order, the terms tested on every row. With them the
    engine starts from the row of [tags] named by [t.name = ?] (the index of
    [UNIQUE]), scans [notes] for it, tests the terms on [n] on every row of
    that scan, and looks the pair [(n.id, t.id)] up in [note_tags] (the
    index of its primary key) for the rows that pass. *)
Definition select_notes_where (d : database)
    (join : list join_clause) (where_ : list where_clause)
    : result (list Note.row) :=
  and_then
    (match join with
     | [] =>
         loop (notes d) (fun r =>
           and_then (all_hold r where_) (fun b => Ok (if b then [r] else [])))
     | _ :: _ =>
         loop (named_tags d where_) (fun y =>
           loop (notes d) (fun r =>
             and_then (all_hold r where_) (fun b =>
               Ok (if b then
                     x ← note_tags d;
                     if decide (NoteTag.note_id x = Note.id r
                                ∧ NoteTag.tag_id x = Tag.id y)
                     then [r] else []
                   else []))))
     end)
    (fun rows => Ok (sort_rows rows)).

Definition select_notes (join : list join_clause) (where_ : list where_clause)
    : M (list Note.row) := fun c =>
  and_then (select_notes_where (db c) join where_) (fun rows => Ok (rows, c)).

End Sql.

(** ** The repository of [db.py] *)

(** The dict a note is returned as: the columns of [row_to_dict], with the
    [tags] key absent until it is assigned. *)
Module NoteDict.
Record t := mk {
  id : Z;
  title : string;
  content : string;
  category : option string;
  created_at : Z;
  updated_at : Z;
  tags : option (list string)
}.

(** [d["tags"] = v] *)
Definition set_tags (d : t) (v : list string) : t :=
  mk (id d) (title d) (content d) (category d) (created_at d) (updated_at d)
     (Some v).
End NoteDict.

Definition row_to_dict (r : Note.row) : NoteDict.t :=
  NoteDict.mk (Note.id r) (Note.title r) (Note.content r) (Note.category r)
              (Note.created_at r) (Note.updated_at r) None.

(** The validated body of a create request. *)
Record create_data := {
  c_title : string;
  c_content : string;
  c_category : option string;       (* [data.get("category")] *)
  c_tags : option (list string)     (* [data.get("tags")] *)
}.

(** The validated body of an update request: [None] is an absent key. *)
Record update_data := {
  u_title : option string;
  u_content : option string;
  u_category : option (option string);   (* present and possibly null *)
  u_tags : option (list string)
}.

(** [with get_conn() as conn: body]: the body runs on a fresh connection;
    a normal exit commits, an exception closes the connection uncommitted. *)
Definition get_conn {A} (body : M A) (d : database) : result A * database :=
  match body (connect d) with
  | Ok (a, c) => (Ok a, db c)
  | Raise e => (Raise e, d)
  end.

Fixpoint get_or_create_tag_ids_from (ids : list Z) (tag_names : list string)
    : M (list Z) :=
  match tag_names with
  | [] => ret ids
  | name :: rest =>
      let name := Text.strip name in
      if negb (Text.nonempty name) then get_or_create_tag_ids_from ids rest
      else
        let* rows := Sql.select_tag_id name in
        match Sql.fetchone rows with
        | Some id => get_or_create_tag_ids_from (ids ++ [id]) rest
        | None =>
            let* lastrowid := Sql.insert_tag name in
            get_or_create_tag_ids_from (ids ++ [lastrowid]) rest
        end
  end.

Definition get_or_create_tag_ids (tag_names : list string) : M (list Z) :=
  get_or_create_tag_ids_from [] tag_names.

(** The second loop of [set_note_tags]: names of the ids that resolve. *)
Fixpoint tag_names_from (names : list string) (tag_ids : list Z)
    : M (list string) :=
  match tag_ids with
  | [] => ret names
  | tid :: rest =>
      let* rows := Sql.select_tag_name tid in
      match Sql.fetchone rows with
      | Some name => tag_names_from (names ++ [name]) rest
      | None => tag_names_from names rest
      end
  end.

Definition set_note_tags (note_id : Z) (tag_names : list string)
    : M (list string) :=
  Sql.delete_note_tags note_id >>
  let* tag_ids := get_or_create_tag_ids tag_names in
  for_each tag_ids (fun tid => Sql.insert_or_ignore_note_tag note_id tid) >>
  let* names := tag_names_from [] tag_ids in
  ret (Text.sorted_set names).

Definition get_tags_for_note (note_id : Z) : M (list string) :=
  Sql.select_tag_names_of_note note_id.

(** The [for r in rows] loop of [list_notes]. *)
Fixpoint attach_tags (results : list NoteDict.t) (rows : list Note.row)
    : M (list NoteDict.t) :=
  match rows with
  | [] => ret results
  | r :: rest =>
      let d := row_to_dict r in
      let* tags := get_tags_for_note (NoteDict.id d) in
      attach_tags (results ++ [NoteDict.set_tags d tags]) rest
  end.

Definition list_notes_query (q tag category : option string)
    : list Sql.join_clause * list Sql.where_clause :=
  let where_ :=
    match q with
    | Some s =>
        if Text.nonempty s then
          let like := Text.contains_pattern s in [Sql.TitleOrContentLike like like]
        else []
    | None => []
    end in
  let where_ :=
    match category with
    | Some c => if Text.nonempty c then where_ ++ [Sql.CategoryEq c] else where_
    | None => where_
    end in
  match tag with
  | Some name =>
      if Text.nonempty name
      then ([Sql.JoinNoteTags; Sql.JoinTags], where_ ++ [Sql.TagNameEq name])
      else ([], where_)
  | None => ([], where_)
  end.

Definition list_notes (q tag category : option string) (d : database)
    : result (list NoteDict.t) * database :=
  get_conn
    (let '(join, where_) := list_notes_query q tag category in
     let* rows := Sql.select_notes join where_ in
     attach_tags [] rows) d.

Definition create_note (now : Z) (data : create_data) (d : database)
    : result NoteDict.t * database :=
  get_conn
    (let* note_id :=
       Sql.insert_note now (c_title data) (c_content data) (c_category data) in
     let tags := default [] (c_tags data) in
     let* normalized_tags :=
       match tags with
       | [] => ret []
       | _ :: _ => set_note_tags note_id tags
       end in
     let* rows := Sql.select_note note_id in
     match Sql.fetchone rows with
     | Some row => ret (NoteDict.set_tags (row_to_dict row) normalized_tags)
     | None => raise (TypeError "row_to_dict(None)")
     end) d.

Definition get_note (note_id : Z) (d : database)
    : result (option NoteDict.t) * database :=
  get_conn
    (let* rows := Sql.select_note note_id in
     match Sql.fetchone rows with
     | None => ret None
     | Some row =>
         let* tags := get_tags_for_note note_id in
         ret (Some (NoteDict.set_tags (row_to_dict row) tags))
     end) d.

(** The [sets] list [update_note] collects from the keys present in [data],
    before the [if sets:] test. *)
Definition update_sets (data : update_data) : list Sql.assignment :=
  let sets := match u_title data with Some v => [Sql.SetTitle v] | None => [] end in
  let sets := match u_content data with
              | Some v => sets ++ [Sql.SetContent v] | None => sets end in
  match u_category data with
  | Some v => sets ++ [Sql.SetCategory v] | None => sets end.

Definition update_note (now : Z) (note_id : Z) (data : update_data)
    (d : database) : result (option NoteDict.t) * database :=
  get_conn
    (let* exists_ := Sql.select_note note_id in
     match Sql.fetchone exists_ with
     | None => ret None
     | Some _ =>
         let sets := update_sets data in
         (match sets with
          | [] => ret tt
          | _ :: _ => Sql.update_notes now (sets ++ [Sql.SetUpdatedAtNow]) note_id
          end) >>
         (match u_tags data with
          | Some tags => set_note_tags note_id tags >> ret tt
          | None => ret tt
          end) >>
         let* rows := Sql.select_note note_id in
         match Sql.fetchone rows with
         | None => raise (TypeError "row_to_dict(None)")
         | Some row =>
             let* tags := get_tags_for_note note_id in
             ret (Some (NoteDict.set_tags (row_to_dict row) tags))
         end
     end) d.

Definition delete_note (note_id : Z) (d : database) : result bool * database :=
  get_conn
    (let* rowcount := Sql.delete_notes note_id in
     ret (bool_decide (0 < rowcount)%nat)) d.

Definition list_all_tags (d : database) : result (list string) * database :=
  get_conn Sql.select_all_tag_names d.

(** The three samples of [seed_data]. *)
Definition samples : list (string * string * string * list string) :=
  [ ("Welcome to Notes"%string,
     "This is your first note. You can edit or delete it."%string,
     "general"%string, ["welcome"%string; "getting-started"%string]);
    ("Grocery List"%string,
     String.concat (String "010" EmptyString)
       ["- Milk"; "- Eggs"; "- Bread"; "- Coffee"]%string,
     "personal"%string, ["list"%string; "errands"%string]);
    ("Project Ideas"%string,
     String.concat (String "010" EmptyString)
       ["1. Build a notes app"; "2. Explore Flask-Smorest";
        "3. Add tagging/search"]%string,
     "work"%string, ["ideas"%string; "work"%string]) ].

(** [seed_data]; [clock i] is the clock reading at the [i]-th insert. *)
Fixpoint seed_samples (clock : nat -> Z) (i : nat)
    (ss : list (string * string * string * list string)) : M unit :=
  match ss with
  | [] => ret tt
  | (title, content, category, tags) :: rest =>
      let* nid := Sql.insert_note (clock i) title content (Some category) in
      set_note_tags nid tags >>
      seed_samples clock (S i) rest
  end.

Definition seed_data (clock : nat -> Z) (d : database) : result unit * database :=
  get_conn
    (let* count := Sql.count_notes in
     if bool_decide (0 < count)%nat then ret tt
     else seed_samples clock 0 samples) d.

(** ** The model at work *)

Example strip_trims_both_ends :
  Text.strip (String "009" " a b  ") = "a b"%string.
Proof. reflexivity. Qed.

Example like_is_caseless_with_wildcards :
  Text.like "%B_d%" "abcde" = true ∧ Text.like "%bd%" "abcde" = false.
Proof. split; reflexivity. Qed.

Example create_on_fresh_schema :
  fst (create_note 100
         {| c_title := "abc"; c_content := "x"; c_category := None;
            c_tags := Some [" b "%string; "a"%string; "b"%string; " "%string] |}
         (init_db None))
  = Ok (NoteDict.mk 1 "abc" "x" None 100 100 (Some ["a"%string; "b"%string])).
Proof. reflexivity. Qed.

(** ** Schema constraints and the states the operations reach *)

(** What the schema of [init_db] enforces (primary keys, [UNIQUE]) together
    with what [AUTOINCREMENT] guarantees: no row id, and no [note_id] ever
    linked, exceeds the notes counter. *)
Record wf (d : database) : Prop := {
  wf_tag_ids : NoDup (Tag.id <$> tags d);
  wf_tag_names : NoDup (Tag.name <$> tags d);
  wf_note_ids : NoDup (Note.id <$> notes d);
  wf_note_seq : Forall (fun r => Note.id r ≤ notes_seq d) (notes d);
  wf_note_tags : NoDup (note_tags d);
  wf_note_tags_seq :
    Forall (fun x => NoteTag.note_id x ≤ notes_seq d) (note_tags d)
}.

#[global] Instance wf_dec d : Decision (wf d).
Proof.
  destruct
    (decide (NoDup (Tag.id <$> tags d) ∧ NoDup (Tag.name <$> tags d)
             ∧ NoDup (Note.id <$> notes d)
             ∧ Forall (fun r => Note.id r ≤ notes_seq d) (notes d)
             ∧ NoDup (note_tags d)
             ∧ Forall (fun x => NoteTag.note_id x ≤ notes_seq d) (note_tags d)))
    as [H|H]; [left|right].
  - destruct H as (?&?&?&?&?&?); by constructor.
  - intros []; apply H; repeat split; assumption.
Defined.

(** States reachable from a fresh schema by the writing operations (the
    reading ones leave the database as it is). *)
Inductive reachable : database -> Prop :=
  | reach_init : reachable (init_db None)
  | reach_create now data d :
      reachable d -> reachable (snd (create_note now data d))
  | reach_update now note_id data d :
      reachable d -> reachable (snd (update_note now note_id data d))
  | reach_delete note_id d :
      reachable d -> reachable (snd (delete_note note_id d))
  | reach_seed clock d :
      reachable d -> reachable (snd (seed_data clock d)).

(** ** Pure readings of the tables *)

(** The id [SELECT id FROM tags WHERE name = ?] fetches. *)
Definition tag_id_of (d : database) (name : string) : option Z :=
  Sql.fetchone (Tag.id <$> filter (fun t => Tag.name t = name) (tags d)).

(** The name [SELECT name FROM tags WHERE id = ?] fetches. *)
Definition tag_name_of (d : database) (tag_id : Z) : option string :=
  Sql.fetchone (Tag.name <$> filter (fun t => Tag.id t = tag_id) (tags d)).

(** The row [SELECT * FROM notes WHERE id = ?] fetches. *)
Definition note_of (d : database) (note_id : Z) : option Note.row :=
  Sql.fetchone (filter (fun r => Note.id r = note_id) (notes d)).

(** The names that survive the trim-and-skip of [get_or_create_tag_ids]. *)
Definition cleaned (tag_names : list string) : list string :=
  filter (fun s => Text.nonempty s = true) (Text.strip <$> tag_names).

(** The rows the insert loop of [set_note_tags] leaves in [note_tags]. *)
Definition add_link (note_id : Z) (rows : list NoteTag.row) (tag_id : Z)
    : list NoteTag.row :=
  if bool_decide (NoteTag.mk note_id tag_id ∈ rows) then rows
  else rows ++ [NoteTag.mk note_id tag_id].

Definition add_links (note_id : Z) (tag_ids : list Z) (rows : list NoteTag.row)
    : list NoteTag.row :=
  foldl (add_link note_id) rows tag_ids.

(** A note row as [list_notes] and [get_note] return it. *)
Definition with_tags (d : database) (r : Note.row) : NoteDict.t :=
  NoteDict.set_tags (row_to_dict r) (Sql.tag_names_of d (Note.id r)).

(** ** Arithmetic of [AUTOINCREMENT] *)

Lemma foldr_max_ge (ids : list Z) (i : Z) : i ∈ ids -> i ≤ foldr Z.max 0 ids.
Proof.
  induction ids as [|j ids IH]; intros Hin.
  - by apply elem_of_nil in Hin.
  - apply elem_of_cons in Hin as [->|Hin]; simpl; [lia|].
    specialize (IH Hin). lia.
Qed.

Lemma next_rowid_gt_seq seq ids : seq < Sql.next_rowid seq ids.
Proof. unfold Sql.next_rowid. lia. Qed.

Lemma next_rowid_gt_ids seq ids i : i ∈ ids -> i < Sql.next_rowid seq ids.
Proof. intros Hin%foldr_max_ge. unfold Sql.next_rowid. lia. Qed.

Lemma next_rowid_fresh seq ids : Sql.next_rowid seq ids ∉ ids.
Proof. intros Hin. pose proof (next_rowid_gt_ids seq ids _ Hin). lia. Qed.

(** ** Lookups are stable when rows are appended *)

Lemma fetchone_app {A} (l k : list A) x :
  Sql.fetchone l = Some x -> Sql.fetchone (l ++ k) = Some x.
Proof. destruct l; [done|]. simpl. auto. Qed.

Lemma tag_id_of_None d name :
  tag_id_of d name = None <-> name ∉ Tag.name <$> tags d.
Proof.
  unfold tag_id_of, Sql.fetchone. rewrite head_None. split.
  - intros Hnil Hin. apply list_elem_of_fmap in Hin as (t & -> & Hin).
    apply fmap_nil_inv in Hnil.
    by apply (filter_nil_not_elem_of _ _ t) in Hnil.
  - intros Hnot. destruct (filter _ _) as [|t l] eqn:E; [done|].
    exfalso. apply Hnot.
    assert (Ht : t ∈ filter (fun t => Tag.name t = name) (tags d))
      by (rewrite E; left).
    apply list_elem_of_filter in Ht as [<- Ht].
    by apply list_elem_of_fmap_2.
Qed.

Lemma tag_id_of_Some_elem d name i :
  tag_id_of d name = Some i -> Tag.mk i name ∈ tags d.
Proof.
  unfold tag_id_of, Sql.fetchone. intros H.
  apply head_Some_elem_of in H. apply list_elem_of_fmap in H as (t & -> & Ht).
  apply list_elem_of_filter in Ht as [<- Ht]. by destruct t.
Qed.

Lemma tag_id_of_app d d' new name i :
  tags d' = tags d ++ new ->
  tag_id_of d name = Some i -> tag_id_of d' name = Some i.
Proof.
  unfold tag_id_of. intros ->. rewrite filter_app, fmap_app.
  apply fetchone_app.
Qed.

Lemma tag_id_of_snoc d d' name i :
  tags d' = tags d ++ [Tag.mk i name] ->
  tag_id_of d name = None -> tag_id_of d' name = Some i.
Proof.
  unfold tag_id_of, Sql.fetchone. intros -> Hnone.
  apply head_None, fmap_nil_inv in Hnone.
  rewrite filter_app, Hnone. simpl.
  rewrite filter_cons_True by done. done.
Qed.

(** ** The tag normaliser only ever appends to [tags] *)

Record grows (c c' : connection) : Prop := {
  grows_fk : foreign_keys c' = foreign_keys c;
  grows_notes : notes (db c') = notes (db c);
  grows_notes_seq : notes_seq (db c') = notes_seq (db c);
  grows_note_tags : note_tags (db c') = note_tags (db c);
  grows_tags : exists new, tags (db c') = tags (db c) ++ new;
  grows_wf : wf (db c) -> wf (db c')
}.

Lemma grows_refl c : grows c c.
Proof. split; auto. exists []. by rewrite app_nil_r. Qed.

Lemma grows_trans c1 c2 c3 : grows c1 c2 -> grows c2 c3 -> grows c1 c3.
Proof.
  intros [] []. split; try congruence; auto.
  destruct grows_tags0 as [n1 E1], grows_tags1 as [n2 E2].
  exists (n1 ++ n2). by rewrite E2, E1, app_assoc.
Qed.

Lemma grows_lookup c c' name i :
  grows c c' ->
  tag_id_of (db c) name = Some i -> tag_id_of (db c') name = Some i.
Proof. intros [_ _ _ _ [new E] _]. by apply tag_id_of_app with new. Qed.

Lemma insert_tag_spec c name :
  tag_id_of (db c) name = None ->
  exists i c', Sql.insert_tag name c = Ok (i, c') ∧ grows c c'
            ∧ tag_id_of (db c') name = Some i.
Proof.
  intros Hnone. pose proof Hnone as Hfresh. apply tag_id_of_None in Hfresh.
  unfold Sql.insert_tag. rewrite bool_decide_eq_false_2 by done.
  eexists _, _. split; [reflexivity|]. split.
  - split; simpl; auto.
    + by eexists.
    + intros []. split; simpl; auto.
      * rewrite fmap_app. apply NoDup_app. split; [done|]. split.
        -- intros i Hi Hin. apply list_elem_of_singleton in Hin. subst i.
           by apply next_rowid_fresh in Hi.
        -- apply NoDup_singleton.
      * rewrite fmap_app. apply NoDup_app. split; [done|]. split.
        -- intros n Hn Hin. apply list_elem_of_singleton in Hin. by subst n.
        -- apply NoDup_singleton.
  - eapply tag_id_of_snoc; [|done]. reflexivity.
Qed.

Lemma cleaned_cons name rest :
  cleaned (name :: rest) =
    if Text.nonempty (Text.strip name) then Text.strip name :: cleaned rest
    else cleaned rest.
Proof.
  unfold cleaned. rewrite fmap_cons, filter_cons.
  destruct (Text.nonempty (Text.strip name)); by case_decide.
Qed.

Lemma get_or_create_from_spec tag_names : forall ids0 c,
  exists ids c',
    get_or_create_tag_ids_from ids0 tag_names c = Ok (ids0 ++ ids, c')
    ∧ grows c c'
    ∧ Forall2 (fun i name => tag_id_of (db c') name = Some i)
              ids (cleaned tag_names).
Proof.
  induction tag_names as [|name rest IH]; intros ids0 c.
  - exists [], c. rewrite app_nil_r. split; [done|]. split; [apply grows_refl|].
    constructor.
  - rewrite cleaned_cons. simpl.
    destruct (Text.nonempty (Text.strip name)) eqn:Hne; simpl.
    + unfold bind at 1. unfold Sql.select_tag_id, query.
      fold (tag_id_of (db c) (Text.strip name)).
      destruct (tag_id_of (db c) (Text.strip name)) as [i|] eqn:Hlook.
      * destruct (IH (ids0 ++ [i]) c) as (ids & c' & Hrun & Hg & Hall).
        exists (i :: ids), c'. rewrite Hrun, <- app_assoc. split; [done|].
        split; [done|]. constructor; [|done]. by apply grows_lookup with c.
      * destruct (insert_tag_spec c _ Hlook) as (i & c1 & Hins & Hg1 & Hl1).
        unfold bind. rewrite Hins.
        destruct (IH (ids0 ++ [i]) c1) as (ids & c' & Hrun & Hg & Hall).
        exists (i :: ids), c'. rewrite Hrun, <- app_assoc. split; [done|].
        split; [by apply grows_trans with c1|].
        constructor; [|done]. by apply grows_lookup with c1.
    + apply IH.
Qed.

(** Once every cleaned name resolves, a run changes nothing. *)
Lemma get_or_create_from_resolved tag_names : forall ids0 ids c,
  Forall2 (fun i name => tag_id_of (db c) name = Some i)
          ids (cleaned tag_names) ->
  get_or_create_tag_ids_from ids0 tag_names c = Ok (ids0 ++ ids, c).
Proof.
  induction tag_names as [|name rest IH]; intros ids0 ids c.
  - intros Hall. apply Forall2_nil_inv_r in Hall as ->. by rewrite app_nil_r.
  - rewrite cleaned_cons. simpl.
    destruct (Text.nonempty (Text.strip name)) eqn:Hne; simpl; [|apply IH].
    intros Hall. apply Forall2_cons_inv_r in Hall as (i & ids' & Hi & Hall & ->).
    unfold bind at 1. unfold Sql.select_tag_id, query.
    fold (tag_id_of (db c) (Text.strip name)). rewrite Hi.
    rewrite (IH _ ids' c Hall). by rewrite <- app_assoc.
Qed.

(** ** Replacing the tag set of a note *)

Definition with_note_tags (c : connection) (rows : list NoteTag.row)
    : connection :=
  {| foreign_keys := foreign_keys c;
     db := {| notes := notes (db c); notes_seq := notes_seq (db c);
              tags := tags (db c); tags_seq := tags_seq (db c);
              note_tags := rows |} |}.

Lemma with_note_tags_same c : with_note_tags c (note_tags (db c)) = c.
Proof. by destruct c as [fk []]. Qed.

Lemma add_links_cons note_id tid rest rows :
  add_links note_id (tid :: rest) rows
  = add_links note_id rest (add_link note_id rows tid).
Proof. done. Qed.

Lemma insert_links_spec note_id tag_ids : forall c,
  foreign_keys c = false ->
  for_each tag_ids (fun tid => Sql.insert_or_ignore_note_tag note_id tid) c
  = Ok (tt, with_note_tags c (add_links note_id tag_ids (note_tags (db c)))).
Proof.
  induction tag_ids as [|tid rest IH]; intros c Hfk.
  - simpl. by rewrite with_note_tags_same.
  - rewrite add_links_cons. cbn [for_each].
    unfold bind, Sql.insert_or_ignore_note_tag, add_link. rewrite Hfk.
    cbn [andb].
    destruct (bool_decide (NoteTag.mk note_id tid ∈ note_tags (db c))) eqn:E.
    + by rewrite IH.
    + rewrite IH by done. unfold with_note_tags. simpl. by rewrite Hfk.
Qed.

Lemma tag_names_from_spec tag_ids : forall names c,
  tag_names_from names tag_ids c
  = Ok (names ++ omap (tag_name_of (db c)) tag_ids, c).
Proof.
  induction tag_ids as [|tid rest IH]; intros names c; simpl.
  - by rewrite app_nil_r.
  - unfold bind at 1. unfold Sql.select_tag_name, query.
    fold (tag_name_of (db c) tid).
    destruct (tag_name_of (db c) tid) as [name|]; rewrite IH; [|done].
    by rewrite <- app_assoc.
Qed.

(** The rows of other notes, which [DELETE FROM note_tags WHERE note_id = ?]
    keeps. *)
Definition others (note_id : Z) (rows : list NoteTag.row) : list NoteTag.row :=
  filter (fun x => NoteTag.note_id x ≠ note_id) rows.

Lemma set_note_tags_run c note_id tag_names ids c1 :
  foreign_keys c = false ->
  get_or_create_tag_ids tag_names
    (with_note_tags c (others note_id (note_tags (db c)))) = Ok (ids, c1) ->
  foreign_keys c1 = false ->
  set_note_tags note_id tag_names c
  = Ok (Text.sorted_set (omap (tag_name_of (db c1)) ids),
        with_note_tags c1 (add_links note_id ids (note_tags (db c1)))).
Proof.
  intros Hfk Hrun Hfk1. unfold set_note_tags.
  unfold bind at 1. unfold Sql.delete_note_tags, modify.
  change {| foreign_keys := foreign_keys c; db := _ |}
    with (with_note_tags c (others note_id (note_tags (db c)))).
  unfold bind at 1. rewrite Hrun.
  unfold bind at 1. rewrite insert_links_spec by done.
  unfold bind at 1. rewrite tag_names_from_spec. done.
Qed.

Lemma add_link_app note_id tid base acc :
  Forall (fun x => NoteTag.note_id x ≠ note_id) base ->
  add_link note_id (base ++ acc) tid = base ++ add_link note_id acc tid.
Proof.
  intros Hbase. unfold add_link.
  assert (Hmem : bool_decide (NoteTag.mk note_id tid ∈ base ++ acc)
                 = bool_decide (NoteTag.mk note_id tid ∈ acc)).
  { apply bool_decide_ext. rewrite elem_of_app. split; [|auto].
    intros [Hin|Hin]; [|done]. exfalso.
    rewrite Forall_forall in Hbase. by apply (Hbase _ Hin). }
  rewrite Hmem. destruct (bool_decide (_ ∈ acc)); [done|].
  by rewrite app_assoc.
Qed.

Lemma add_links_app note_id tag_ids : forall base acc,
  Forall (fun x => NoteTag.note_id x ≠ note_id) base ->
  add_links note_id tag_ids (base ++ acc)
  = base ++ add_links note_id tag_ids acc.
Proof.
  induction tag_ids as [|tid rest IH]; intros base acc Hbase; [done|].
  rewrite !add_links_cons, add_link_app by done. by apply IH.
Qed.

Lemma add_link_owner note_id tid acc :
  Forall (fun x => NoteTag.note_id x = note_id) acc ->
  Forall (fun x => NoteTag.note_id x = note_id) (add_link note_id acc tid).
Proof.
  intros Hacc. unfold add_link. destruct (bool_decide _); [done|].
  apply Forall_app; split; [done|]. by repeat constructor.
Qed.

Lemma add_links_owner note_id tag_ids : forall acc,
  Forall (fun x => NoteTag.note_id x = note_id) acc ->
  Forall (fun x => NoteTag.note_id x = note_id) (add_links note_id tag_ids acc).
Proof.
  induction tag_ids as [|tid rest IH]; intros acc Hacc; [done|].
  rewrite add_links_cons. by apply IH, add_link_owner.
Qed.

Lemma add_link_NoDup note_id tid acc :
  NoDup acc -> NoDup (add_link note_id acc tid).
Proof.
  intros Hacc. unfold add_link. destruct (bool_decide _) eqn:E; [done|].
  apply bool_decide_eq_false in E.
  apply NoDup_app. split; [done|]. split; [|apply NoDup_singleton].
  intros x Hx Hin. apply list_elem_of_singleton in Hin. by subst x.
Qed.

Lemma add_links_NoDup note_id tag_ids : forall acc,
  NoDup acc -> NoDup (add_links note_id tag_ids acc).
Proof.
  induction tag_ids as [|tid rest IH]; intros acc Hacc; [done|].
  rewrite add_links_cons. by apply IH, add_link_NoDup.
Qed.

Lemma add_link_keeps note_id tid acc x :
  x ∈ acc -> x ∈ add_link note_id acc tid.
Proof.
  intros Hx. unfold add_link. destruct (bool_decide _); [done|].
  apply elem_of_app; auto.
Qed.

Lemma add_links_keeps note_id tag_ids : forall acc x,
  x ∈ acc -> x ∈ add_links note_id tag_ids acc.
Proof.
  induction tag_ids as [|tid rest IH]; intros acc x Hx; [done|].
  rewrite add_links_cons. by apply IH, add_link_keeps.
Qed.

Lemma add_links_elem note_id tag_ids : forall acc tid,
  tid ∈ tag_ids -> NoteTag.mk note_id tid ∈ add_links note_id tag_ids acc.
Proof.
  induction tag_ids as [|t rest IH]; intros acc tid Hin.
  - by apply elem_of_nil in Hin.
  - rewrite add_links_cons.
    apply elem_of_cons in Hin as [->|Hin]; [|by apply IH].
    apply add_links_keeps. unfold add_link.
    destruct (bool_decide _) eqn:E.
    + by apply bool_decide_eq_true in E.
    + apply elem_of_app. right. left.
Qed.

(** Every link the loop adds belongs to the note and to a listed tag. *)
Lemma add_links_inv note_id tag_ids : forall acc x,
  x ∈ add_links note_id tag_ids acc ->
  x ∈ acc ∨ (NoteTag.note_id x = note_id ∧ NoteTag.tag_id x ∈ tag_ids).
Proof.
  induction tag_ids as [|t rest IH]; intros acc x Hx; [by left|].
  rewrite add_links_cons in Hx. apply IH in Hx as [Hx|[? ?]].
  - unfold add_link in Hx. destruct (bool_decide _); [by left|].
    apply elem_of_app in Hx as [Hx|Hx]; [by left|].
    apply list_elem_of_singleton in Hx. subst x. right. split; [done|left].
  - right. split; [done|by right].
Qed.

Lemma others_owner note_id rows :
  Forall (fun x => NoteTag.note_id x ≠ note_id) (others note_id rows).
Proof. apply Forall_forall. intros x Hx. by apply list_elem_of_filter in Hx as []. Qed.

Lemma others_of_owned note_id rows :
  Forall (fun x => NoteTag.note_id x = note_id) rows -> others note_id rows = [].
Proof.
  intros Hall. unfold others. induction Hall as [|x l Hx _ IH]; [done|].
  by rewrite filter_cons_False by (intros Hne; by apply Hne).
Qed.

Lemma others_idemp note_id rows :
  others note_id (others note_id rows) = others note_id rows.
Proof.
  unfold others. induction rows as [|x l IH]; [done|].
  rewrite (filter_cons _ x l). case_decide.
  - rewrite filter_cons_True by done. by rewrite IH.
  - done.
Qed.

Lemma others_app note_id l k :
  others note_id (l ++ k) = others note_id l ++ others note_id k.
Proof. apply filter_app. Qed.

(** After a replacement, the other notes' rows are as they were. *)
Lemma others_add_links note_id tag_ids rows :
  others note_id (add_links note_id tag_ids (others note_id rows))
  = others note_id rows.
Proof.
  pose proof (add_links_app note_id tag_ids (others note_id rows) []
                (others_owner _ _)) as H.
  rewrite app_nil_r in H. rewrite H, others_app, others_idemp.
  rewrite (others_of_owned note_id (add_links note_id tag_ids []));
    [by rewrite app_nil_r|].
  apply add_links_owner. constructor.
Qed.

(** ** Rows selected by a unique key *)

Lemma filter_key_absent {A K} `{EqDecision K} (f : A -> K) (l : list A) k :
  k ∉ f <$> l -> filter (fun y => f y = k) l = [].
Proof.
  intros Hk. induction l as [|y l IH]; [done|].
  rewrite fmap_cons in Hk. apply not_elem_of_cons in Hk as [Hy Hl].
  rewrite filter_cons_False by congruence. by apply IH.
Qed.

Lemma filter_key_unique {A K} `{EqDecision K} (f : A -> K) (l : list A) x :
  NoDup (f <$> l) -> x ∈ l -> filter (fun y => f y = f x) l = [x].
Proof.
  induction l as [|y l IH]; intros Hnd Hx.
  - by apply elem_of_nil in Hx.
  - rewrite fmap_cons in Hnd. apply NoDup_cons in Hnd as [Hy Hnd].
    apply elem_of_cons in Hx as [->|Hx].
    + rewrite filter_cons_True by done. by rewrite filter_key_absent.
    + rewrite filter_cons_False; [by apply IH|].
      intros E. apply Hy. rewrite E. by apply list_elem_of_fmap_2.
Qed.

Lemma filter_key_snoc {A K} `{EqDecision K} (f : A -> K) (l : list A) x :
  f x ∉ f <$> l -> filter (fun y => f y = f x) (l ++ [x]) = [x].
Proof.
  intros Hx. rewrite filter_app, filter_key_absent by done.
  by rewrite filter_cons_True.
Qed.

Lemma tag_name_of_elem d i name :
  NoDup (Tag.id <$> tags d) -> Tag.mk i name ∈ tags d ->
  tag_name_of d i = Some name.
Proof.
  intros Hnd Hin. unfold tag_name_of.
  change i with (Tag.id (Tag.mk i name)).
  by rewrite (filter_key_unique Tag.id _ _ Hnd Hin).
Qed.

(** On a well-formed table the resolved ids read back as the cleaned names. *)
Lemma resolved_names d ids names :
  NoDup (Tag.id <$> tags d) ->
  Forall2 (fun i name => tag_id_of d name = Some i) ids names ->
  omap (tag_name_of d) ids = names.
Proof.
  intros Hnd Hall. induction Hall as [|i name ids names Hi _ IH]; [done|].
  apply tag_id_of_Some_elem in Hi.
  cbn [omap list_omap]. rewrite (tag_name_of_elem _ _ _ Hnd Hi).
  f_equal. exact IH.
Qed.

(** ** What [set_note_tags] does on a connection of [get_conn] *)

Lemma wf_with_others c note_id :
  wf (db c) -> wf (db (with_note_tags c (others note_id (note_tags (db c))))).
Proof.
  intros []. split; simpl; auto.
  - by apply NoDup_filter.
  - apply Forall_forall. intros x [_ Hx]%list_elem_of_filter.
    rewrite Forall_forall in wf_note_tags_seq0. auto.
Qed.

Lemma wf_with_links c note_id tag_ids :
  wf (db c) -> note_id ≤ notes_seq (db c) ->
  wf (db (with_note_tags c (add_links note_id tag_ids (note_tags (db c))))).
Proof.
  intros [] Hle. split; simpl; auto.
  - by apply add_links_NoDup.
  - apply Forall_forall. intros x Hx.
    apply add_links_inv in Hx as [Hx|[-> _]]; [|done].
    rewrite Forall_forall in wf_note_tags_seq0. auto.
Qed.

Lemma set_note_tags_spec c note_id tag_names :
  foreign_keys c = false ->
  exists ids c1,
    grows (with_note_tags c (others note_id (note_tags (db c)))) c1
    ∧ Forall2 (fun i name => tag_id_of (db c1) name = Some i)
              ids (cleaned tag_names)
    ∧ set_note_tags note_id tag_names c
      = Ok (Text.sorted_set (omap (tag_name_of (db c1)) ids),
            with_note_tags c1
              (add_links note_id ids (others note_id (note_tags (db c))))).
Proof.
  intros Hfk.
  destruct (get_or_create_from_spec tag_names []
              (with_note_tags c (others note_id (note_tags (db c)))))
    as (ids & c1 & Hrun & Hg & Hall).
  exists ids, c1. split; [done|]. split; [done|].
  assert (Hfk1 : foreign_keys c1 = false) by (by rewrite (grows_fk _ _ Hg)).
  rewrite (set_note_tags_run c note_id tag_names ids c1 Hfk Hrun Hfk1).
  by rewrite (grows_note_tags _ _ Hg).
Qed.

(** The frame of a replacement: notes and the other notes' links stay, tags
    only grow, the schema constraints survive. *)
Lemma set_note_tags_frame c note_id tag_names :
  foreign_keys c = false ->
  exists r c',
    set_note_tags note_id tag_names c = Ok (r, c')
    ∧ foreign_keys c' = false
    ∧ notes (db c') = notes (db c)
    ∧ notes_seq (db c') = notes_seq (db c)
    ∧ (exists new, tags (db c') = tags (db c) ++ new)
    ∧ others note_id (note_tags (db c')) = others note_id (note_tags (db c))
    ∧ (wf (db c) -> note_id ≤ notes_seq (db c) -> wf (db c')).
Proof.
  intros Hfk.
  destruct (set_note_tags_spec c note_id tag_names Hfk)
    as (ids & c1 & Hg & Hall & Hrun).
  eexists _, _. split; [exact Hrun|].
  destruct Hg as [Gfk Gn Gs Gnt Gt Gwf]. simpl in *.
  split_and!; simpl; auto.
  - congruence.
  - apply others_add_links.
  - intros Hwf Hle.
    pose proof (Gwf (wf_with_others c note_id Hwf)) as Hwf1.
    assert (Hwf2 : wf (db (with_note_tags c1
               (add_links note_id ids (note_tags (db c1)))))).
    { apply wf_with_links; [done|]. by rewrite Gs. }
    by rewrite Gnt in Hwf2.
Qed.

Lemma wf_replaced c c1 note_id ids :
  grows (with_note_tags c (others note_id (note_tags (db c)))) c1 ->
  wf (db c) -> note_id ≤ notes_seq (db c) ->
  wf (db (with_note_tags c1
            (add_links note_id ids (others note_id (note_tags (db c)))))).
Proof.
  intros [Gfk Gn Gs Gnt Gt Gwf] Hwf Hle. simpl in *.
  pose proof (Gwf (wf_with_others c note_id Hwf)) as Hwf1.
  assert (Hwf2 : wf (db (with_note_tags c1
             (add_links note_id ids (note_tags (db c1)))))).
  { apply wf_with_links; [done|]. by rewrite Gs. }
  by rewrite Gnt in Hwf2.
Qed.

(** ** The repository operations, in closed form *)

Definition with_notes (c : connection) (rows : list Note.row) (seq : Z)
    : connection :=
  {| foreign_keys := foreign_keys c;
     db := {| notes := rows; notes_seq := seq;
              tags := tags (db c); tags_seq := tags_seq (db c);
              note_tags := note_tags (db c) |} |}.

(** The row [create_note] inserts. *)
Definition new_note (now : Z) (data : create_data) (d : database) : Note.row :=
  Note.mk (Sql.next_rowid (notes_seq d) (Note.id <$> notes d))
          (c_title data) (c_content data) (c_category data) now now.

Lemma insert_note_run now title content category c :
  Sql.insert_note now title content category c
  = let rowid := Sql.next_rowid (notes_seq (db c)) (Note.id <$> notes (db c)) in
    Ok (rowid,
        with_notes c (notes (db c)
                      ++ [Note.mk rowid title content category now now]) rowid).
Proof. done. Qed.

Lemma wf_insert_note c row :
  Note.id row = Sql.next_rowid (notes_seq (db c)) (Note.id <$> notes (db c)) ->
  wf (db c) -> wf (db (with_notes c (notes (db c) ++ [row]) (Note.id row))).
Proof.
  intros Hid [].
  pose proof (next_rowid_gt_seq (notes_seq (db c)) (Note.id <$> notes (db c))).
  pose proof (next_rowid_fresh (notes_seq (db c)) (Note.id <$> notes (db c))).
  split; simpl; auto.
  - rewrite fmap_app. apply NoDup_app. split; [done|].
    split; [|apply NoDup_singleton].
    intros i Hi Hin. apply list_elem_of_singleton in Hin. subst i. congruence.
  - apply Forall_app. split; [|repeat constructor; lia].
    eapply Forall_impl; [done|]. simpl. intros. lia.
  - eapply Forall_impl; [done|]. simpl. intros. lia.
Qed.

Lemma note_of_new now data d d' :
  notes d' = notes d ++ [new_note now data d] ->
  note_of d' (Note.id (new_note now data d)) = Some (new_note now data d).
Proof.
  intros E. unfold note_of. rewrite E, filter_key_snoc; [done|].
  apply next_rowid_fresh.
Qed.

Lemma create_note_spec now data d :
  exists names d',
    create_note now data d
    = (Ok (NoteDict.set_tags (row_to_dict (new_note now data d)) names), d')
    ∧ notes d' = notes d ++ [new_note now data d]
    ∧ notes_seq d' = Note.id (new_note now data d)
    ∧ (exists new, tags d' = tags d ++ new)
    ∧ (wf d -> wf d')
    ∧ match default [] (c_tags data) with
      | [] => names = [] ∧ tags d' = tags d ∧ note_tags d' = note_tags d
      | _ :: _ =>
          exists ids,
            Forall2 (fun i name => tag_id_of d' name = Some i)
                    ids (cleaned (default [] (c_tags data)))
            ∧ note_tags d'
              = add_links (Note.id (new_note now data d)) ids
                  (others (Note.id (new_note now data d)) (note_tags d))
            ∧ names = Text.sorted_set (omap (tag_name_of d') ids)
      end.
Proof.
  unfold create_note, get_conn. unfold bind at 1.
  rewrite insert_note_run. cbv zeta.
  change (db (connect d)) with d.
  change (Note.mk _ (c_title data) _ _ now now) with (new_note now data d).
  change (Sql.next_rowid _ _) with (Note.id (new_note now data d)).
  set (row := new_note now data d).
  set (c1 := with_notes (connect d) (notes d ++ [row]) (Note.id row)).
  assert (Hwf1 : wf d -> wf (db c1)).
  { intros Hwf. by apply (wf_insert_note (connect d) row). }
  destruct (default [] (c_tags data)) as [|name rest] eqn:Etags.
  - unfold bind, ret. unfold Sql.select_note, query.
    fold (note_of (db c1) (Note.id row)).
    assert (Hrow : note_of (db c1) (Note.id row) = Some row)
      by (by apply (note_of_new now data d)).
    rewrite Hrow.
    eexists _, _. split; [reflexivity|]. simpl. split_and!; auto.
    exists []. by rewrite app_nil_r.
  - destruct (set_note_tags_spec c1 (Note.id row) (name :: rest) eq_refl)
      as (ids & c2 & Hg & Hall & Hrun).
    unfold bind at 1. rewrite Hrun.
    unfold bind, ret. unfold Sql.select_note, query.
    match goal with |- context [Sql.fetchone (filter _ (notes ?x))] =>
      fold (note_of x (Note.id row));
      assert (Hrow : note_of x (Note.id row) = Some row)
        by (apply (note_of_new now data d); simpl;
            by rewrite (grows_notes _ _ Hg))
    end.
    rewrite Hrow.
    eexists _, _. split; [reflexivity|]. simpl. split_and!.
    + by rewrite (grows_notes _ _ Hg).
    + by rewrite (grows_notes_seq _ _ Hg).
    + apply (grows_tags _ _ Hg).
    + intros Hwf. apply (wf_replaced c1 c2); [done|by apply Hwf1|]. simpl. lia.
    + exists ids. split_and!; auto.
Qed.

Lemma get_note_spec note_id d :
  get_note note_id d = (Ok (with_tags d <$> note_of d note_id), d).
Proof.
  unfold get_note, get_conn. unfold bind at 1. unfold Sql.select_note, query.
  change (db (connect d)) with d. fold (note_of d note_id).
  destruct (note_of d note_id) as [r|] eqn:E; [|done].
  unfold bind, get_tags_for_note, Sql.select_tag_names_of_note, query, ret.
  simpl. unfold with_tags.
  assert (Hid : Note.id r = note_id).
  { unfold note_of, Sql.fetchone in E. apply head_Some_elem_of in E.
    by apply list_elem_of_filter in E as []. }
  by rewrite Hid.
Qed.

Lemma delete_note_spec note_id d :
  delete_note note_id d
  = (Ok (bool_decide
           (0 < length (filter (fun r => Note.id r = note_id) (notes d)))%nat),
     {| notes := filter (fun r => Note.id r ≠ note_id) (notes d);
        notes_seq := notes_seq d;
        tags := tags d; tags_seq := tags_seq d;
        note_tags := note_tags d |}).
Proof. done. Qed.

(** The row an [UPDATE] of [update_note] leaves in place of [r]. *)
Definition updated_row (now : Z) (data : update_data) (r : Note.row) : Note.row :=
  match update_sets data with
  | [] => r
  | _ :: _ => foldl (Sql.assign now) r (update_sets data ++ [Sql.SetUpdatedAtNow])
  end.

(** [updated_row], column by column. *)
Lemma updated_row_columns now data r :
  updated_row now data r
  = Note.mk (Note.id r)
            (default (Note.title r) (u_title data))
            (default (Note.content r) (u_content data))
            (default (Note.category r) (u_category data))
            (Note.created_at r)
            (match u_title data, u_content data, u_category data with
             | None, None, None => Note.updated_at r
             | _, _, _ => now
             end).
Proof.
  destruct r, data as [[?|] [?|] [?|] ?]; reflexivity.
Qed.

Lemma updated_row_id now data r : Note.id (updated_row now data r) = Note.id r.
Proof. by rewrite updated_row_columns. Qed.

Definition update_rows (now note_id : Z) (data : update_data)
    (rows : list Note.row) : list Note.row :=
  (fun r => if decide (Note.id r = note_id) then updated_row now data r else r)
    <$> rows.

Lemma update_rows_ids now note_id data rows :
  Note.id <$> update_rows now note_id data rows = Note.id <$> rows.
Proof.
  unfold update_rows. rewrite <- list_fmap_compose.
  apply list_fmap_ext. intros _ r _. simpl.
  case_decide; [apply updated_row_id|done].
Qed.

Lemma update_rows_filter now note_id data rows :
  filter (fun r => Note.id r = note_id) (update_rows now note_id data rows)
  = updated_row now data <$> filter (fun r => Note.id r = note_id) rows.
Proof.
  unfold update_rows. induction rows as [|r rows IH]; [done|].
  rewrite fmap_cons. destruct (decide (Note.id r = note_id)) as [E|E].
  - rewrite !filter_cons_True by (by rewrite ?updated_row_id).
    by rewrite fmap_cons, IH.
  - by rewrite !filter_cons_False by done.
Qed.

Lemma note_of_update_rows now note_id data d d' :
  notes d' = update_rows now note_id data (notes d) ->
  note_of d' note_id = updated_row now data <$> note_of d note_id.
Proof.
  intros E. unfold note_of, Sql.fetchone.
  rewrite E, update_rows_filter. by destruct (filter _ (notes d)).
Qed.

Lemma wf_update_rows c now note_id data :
  wf (db c) ->
  wf (db (with_notes c (update_rows now note_id data (notes (db c)))
                     (notes_seq (db c)))).
Proof.
  intros []. split; simpl; auto.
  - by rewrite update_rows_ids.
  - apply Forall_forall. intros r Hr.
    assert (Hid : Note.id r ∈ Note.id <$> update_rows now note_id data
                                             (notes (db c)))
      by (by apply list_elem_of_fmap_2).
    rewrite update_rows_ids in Hid.
    apply list_elem_of_fmap in Hid as (r0 & -> & Hr0).
    rewrite Forall_forall in wf_note_seq0. auto.
Qed.

Lemma note_of_id d note_id r : note_of d note_id = Some r -> Note.id r = note_id.
Proof.
  unfold note_of, Sql.fetchone. intros E. apply head_Some_elem_of in E.
  by apply list_elem_of_filter in E as [].
Qed.

Lemma note_of_elem d note_id r : note_of d note_id = Some r -> r ∈ notes d.
Proof.
  unfold note_of, Sql.fetchone. intros E. apply head_Some_elem_of in E.
  by apply list_elem_of_filter in E as [].
Qed.

(** The [UPDATE] step of [update_note], including the [if sets:] guard. *)
Lemma update_step_run now note_id data c :
  (let sets := update_sets data in
   match sets with
   | [] => ret tt
   | _ :: _ => Sql.update_notes now (sets ++ [Sql.SetUpdatedAtNow]) note_id
   end) c
  = Ok (tt, with_notes c (update_rows now note_id data (notes (db c)))
                       (notes_seq (db c))).
Proof.
  cbv zeta. unfold update_rows, updated_row.
  destruct (update_sets data) as [|a sets] eqn:E.
  - unfold ret. f_equal. f_equal. destruct c as [fk []]. unfold with_notes.
    simpl. f_equal. f_equal.
    rewrite <- (list_fmap_id notes0) at 1.
    apply list_fmap_ext. intros _ r _. by case_decide.
  - reflexivity.
Qed.

Lemma update_note_missing now note_id data d :
  note_of d note_id = None -> update_note now note_id data d = (Ok None, d).
Proof.
  intros E. unfold update_note, get_conn. unfold bind at 1.
  unfold Sql.select_note, query. change (db (connect d)) with d.
  fold (note_of d note_id). by rewrite E.
Qed.

Lemma update_note_spec now note_id data d r :
  note_of d note_id = Some r ->
  exists d',
    update_note now note_id data d
    = (Ok (Some (with_tags d' (updated_row now data r))), d')
    ∧ notes d' = update_rows now note_id data (notes d)
    ∧ notes_seq d' = notes_seq d
    ∧ (exists new, tags d' = tags d ++ new)
    ∧ (wf d -> wf d')
    ∧ match u_tags data with
      | None => tags d' = tags d ∧ note_tags d' = note_tags d
      | Some tag_names =>
          exists ids,
            Forall2 (fun i name => tag_id_of d' name = Some i)
                    ids (cleaned tag_names)
            ∧ note_tags d' = add_links note_id ids (others note_id (note_tags d))
      end.
Proof.
  intros Hr. pose proof (note_of_id _ _ _ Hr) as Hid.
  unfold update_note, get_conn. unfold bind at 1.
  unfold Sql.select_note at 1. unfold query at 1.
  change (db (connect d)) with d. fold (note_of d note_id). rewrite Hr.
  unfold bind at 1. rewrite update_step_run.
  set (c1 := with_notes (connect d) _ _).
  assert (Hwf1 : wf d -> wf (db c1))
    by (intros Hwf; by apply (wf_update_rows (connect d))).
  assert (Hfinish : forall c2, notes (db c2) = notes (db c1) ->
    (let* rows := Sql.select_note note_id in
     match Sql.fetchone rows with
     | None => raise (TypeError "row_to_dict(None)")
     | Some row =>
         let* tags := get_tags_for_note note_id in
         ret (Some (NoteDict.set_tags (row_to_dict row) tags))
     end) c2 = Ok (Some (with_tags (db c2) (updated_row now data r)), c2)).
  { intros c2 E2. unfold bind at 1. unfold Sql.select_note, query.
    fold (note_of (db c2) note_id).
    rewrite (note_of_update_rows now note_id data d (db c2)) by (by rewrite E2).
    rewrite Hr. simpl. unfold bind, get_tags_for_note,
      Sql.select_tag_names_of_note, query, ret, with_tags.
    by rewrite updated_row_id, Hid. }
  destruct (u_tags data) as [tag_names|].
  - destruct (set_note_tags_spec c1 note_id tag_names eq_refl)
      as (ids & c2 & Hg & Hall & Hrun).
    unfold bind at 1. unfold bind at 1. rewrite Hrun. unfold ret at 1.
    rewrite Hfinish by (simpl; by rewrite (grows_notes _ _ Hg)).
    eexists. split; [reflexivity|]. simpl. split_and!.
    + by rewrite (grows_notes _ _ Hg).
    + by rewrite (grows_notes_seq _ _ Hg).
    + apply (grows_tags _ _ Hg).
    + intros Hwf. apply (wf_replaced c1 c2); [done|by apply Hwf1|]. simpl.
      destruct Hwf. rewrite Forall_forall in wf_note_seq0.
      rewrite <- Hid. apply wf_note_seq0. by apply (note_of_elem _ note_id).
    + exists ids. split; auto.
  - unfold bind at 1. unfold ret at 1. rewrite Hfinish by done.
    eexists. split; [reflexivity|]. simpl. split_and!; auto.
    exists []. by rewrite app_nil_r.
Qed.

Lemma seed_samples_spec clock ss : forall i c,
  foreign_keys c = false ->
  exists c', seed_samples clock i ss c = Ok (tt, c')
           ∧ foreign_keys c' = false ∧ (wf (db c) -> wf (db c')).
Proof.
  induction ss as [|[[[title content] category] tag_names] rest IH];
    intros i c Hfk.
  - by exists c.
  - cbn [seed_samples]. unfold bind at 1. rewrite insert_note_run. cbv zeta.
    set (nid := Sql.next_rowid _ _).
    set (row := Note.mk nid title content (Some category) (clock i) (clock i)).
    set (c1 := with_notes c _ _).
    destruct (set_note_tags_frame c1 nid tag_names Hfk)
      as (r & c2 & Hrun & Hfk2 & _ & Hseq & _ & _ & Hwf2).
    unfold bind at 1. rewrite Hrun.
    destruct (IH (S i) c2 Hfk2) as (c3 & Hrest & Hfk3 & Hwf3).
    exists c3. split; [done|]. split; [done|].
    intros Hwf. apply Hwf3, Hwf2; [|simpl; lia].
    exact (wf_insert_note c row eq_refl Hwf).
Qed.

Lemma wf_empty : wf empty_db.
Proof. split; simpl; constructor. Qed.

Lemma wf_create now data d : wf d -> wf (snd (create_note now data d)).
Proof.
  destruct (create_note_spec now data d) as (? & ? & -> & _ & _ & _ & H & _).
  exact H.
Qed.

Lemma wf_update now note_id data d :
  wf d -> wf (snd (update_note now note_id data d)).
Proof.
  destruct (note_of d note_id) as [r|] eqn:E.
  - destruct (update_note_spec now note_id data d r E)
      as (? & -> & _ & _ & _ & H & _). exact H.
  - by rewrite update_note_missing.
Qed.

Lemma wf_delete note_id d : wf d -> wf (snd (delete_note note_id d)).
Proof.
  rewrite delete_note_spec. intros []. split; simpl; auto.
  - apply NoDup_fmap_2_strong; [|by apply NoDup_filter, (NoDup_fmap_1 Note.id)].
    intros x y [_ Hx]%list_elem_of_filter [_ Hy]%list_elem_of_filter Exy.
    clear -wf_note_ids0 Hx Hy Exy.
    induction (notes d) as [|z l IH]; [by apply elem_of_nil in Hx|].
    rewrite fmap_cons in wf_note_ids0.
    apply NoDup_cons in wf_note_ids0 as [Hz Hnd].
    apply elem_of_cons in Hx as [->|Hx], Hy as [->|Hy]; auto.
    + exfalso. apply Hz. rewrite Exy. by apply list_elem_of_fmap_2.
    + exfalso. apply Hz. rewrite <- Exy. by apply list_elem_of_fmap_2.
  - apply Forall_forall. intros x [_ Hx]%list_elem_of_filter.
    rewrite Forall_forall in wf_note_seq0. auto.
Qed.

Lemma wf_seed clock d : wf d -> wf (snd (seed_data clock d)).
Proof.
  intros Hwf. unfold seed_data, get_conn. unfold bind at 1.
  unfold Sql.count_notes, query. change (db (connect d)) with d.
  destruct (bool_decide (0 < length (notes d))%nat); [done|].
  destruct (seed_samples_spec clock samples 0%nat (connect d) eq_refl)
    as (c' & -> & _ & H). by apply H.
Qed.

(** Every reachable state satisfies the schema constraints. *)
Lemma reachable_wf d : reachable d -> wf d.
Proof.
  induction 1; auto using wf_empty, wf_create, wf_update, wf_delete, wf_seed.
Qed.

(** ** The tag names joined to a note *)

(** The rows of the join of [get_tags_for_note], before [ORDER BY]. *)
Definition linked_names (d : database) (note_id : Z) : list string :=
  t ← tags d;
  nt ← note_tags d;
  if decide (NoteTag.tag_id nt = Tag.id t ∧ NoteTag.note_id nt = note_id)
  then [Tag.name t] else [].

Lemma tag_names_of_sorted_linked d note_id :
  Sql.tag_names_of d note_id = merge_sort String.le (linked_names d note_id).
Proof. done. Qed.

Lemma elem_of_link_row (t : Tag.row) note_id rows name :
  name ∈ (nt ← rows;
          if decide (NoteTag.tag_id nt = Tag.id t ∧ NoteTag.note_id nt = note_id)
          then [Tag.name t] else [])
  <-> name = Tag.name t ∧ NoteTag.mk note_id (Tag.id t) ∈ rows.
Proof.
  rewrite list_elem_of_bind. split.
  - intros (nt & Hin & Hnt). case_decide as Hd; [|by apply elem_of_nil in Hin].
    apply list_elem_of_singleton in Hin. destruct Hd as [<- <-].
    split; [done|]. by destruct nt.
  - intros [-> Hin]. exists (NoteTag.mk note_id (Tag.id t)). split; [|done].
    rewrite decide_True by done. left.
Qed.

Lemma elem_of_linked_names d note_id name :
  name ∈ linked_names d note_id
  <-> exists t, t ∈ tags d ∧ Tag.name t = name
             ∧ NoteTag.mk note_id (Tag.id t) ∈ note_tags d.
Proof.
  unfold linked_names. rewrite list_elem_of_bind. split.
  - intros (t & Hin & Ht). apply elem_of_link_row in Hin as [-> Hin]. eauto.
  - intros (t & Ht & <- & Hin). exists t. split; [|done].
    by apply elem_of_link_row.
Qed.

Lemma NoDup_link_row (t : Tag.row) note_id rows :
  NoDup rows ->
  NoDup (nt ← rows;
         if decide (NoteTag.tag_id nt = Tag.id t ∧ NoteTag.note_id nt = note_id)
         then [Tag.name t] else []).
Proof.
  intros Hnd. apply NoDup_bind; [| |done].
  - intros x1 x2 y _ _ H1 H2.
    destruct (decide (NoteTag.tag_id x1 = Tag.id t
                      ∧ NoteTag.note_id x1 = note_id)) as [D1|];
      [|by apply elem_of_nil in H1].
    destruct (decide (NoteTag.tag_id x2 = Tag.id t
                      ∧ NoteTag.note_id x2 = note_id)) as [D2|];
      [|by apply elem_of_nil in H2].
    destruct x1, x2, D1, D2. simpl in *. congruence.
  - intros x _. case_decide; [apply NoDup_singleton|constructor].
Qed.

Lemma NoDup_linked_names d note_id : wf d -> NoDup (linked_names d note_id).
Proof.
  intros []. unfold linked_names. apply NoDup_bind.
  - intros t1 t2 y Ht1 Ht2 [E1 _]%elem_of_link_row [E2 _]%elem_of_link_row.
    assert (Hf1 := filter_key_unique Tag.name _ _ wf_tag_names0 Ht1).
    assert (Hf2 := filter_key_unique Tag.name _ _ wf_tag_names0 Ht2).
    rewrite <- E1 in Hf1. rewrite <- E2 in Hf2. congruence.
  - intros t _. by apply NoDup_link_row.
  - by apply (NoDup_fmap_1 Tag.id).
Qed.

Lemma linked_names_nil d note_id :
  Forall (fun x => NoteTag.note_id x ≠ note_id) (note_tags d) ->
  linked_names d note_id = [].
Proof.
  intros Hall. destruct (linked_names d note_id) as [|name l] eqn:E; [done|].
  assert (Hin : name ∈ linked_names d note_id) by (rewrite E; left).
  apply elem_of_linked_names in Hin as (t & _ & _ & Hin).
  rewrite Forall_forall in Hall. by destruct (Hall _ Hin).
Qed.

(** The listing is strictly increasing in code-point order: sorted, and
    free of duplicates. *)
Definition strictly_sorted (names : list string) : Prop :=
  Sorted String.le names ∧ NoDup names.

Lemma tag_names_of_strictly_sorted d note_id :
  wf d -> strictly_sorted (Sql.tag_names_of d note_id).
Proof.
  intros Hwf. rewrite tag_names_of_sorted_linked. split.
  - apply Sorted_merge_sort, _.
  - rewrite merge_sort_Permutation. by apply NoDup_linked_names.
Qed.

Lemma sorted_set_strictly_sorted names :
  strictly_sorted (Text.sorted_set names).
Proof.
  unfold Text.sorted_set. split.
  - apply Sorted_merge_sort, _.
  - rewrite merge_sort_Permutation. apply NoDup_remove_dups.
Qed.

Lemma strictly_sorted_ext l1 l2 :
  strictly_sorted l1 -> strictly_sorted l2 ->
  (forall x, x ∈ l1 <-> x ∈ l2) -> l1 = l2.
Proof.
  intros [S1 N1] [S2 N2] Hiff.
  apply (Sorted_unique String.le); [done|done|].
  by apply NoDup_Permutation.
Qed.

(** ** The stored tag set after a replacement *)

Lemma Forall2_elem_r {A B} (P : A -> B -> Prop) (l : list A) (k : list B) y :
  Forall2 P l k -> y ∈ k -> exists x, x ∈ l ∧ P x y.
Proof.
  intros Hall [i Hi]%list_elem_of_lookup_1.
  destruct (Forall2_lookup_r _ _ _ _ _ Hall Hi) as (x & Hx & HP).
  exists x. split; [by apply list_elem_of_lookup_2 with i|done].
Qed.

Lemma Forall2_elem_l {A B} (P : A -> B -> Prop) (l : list A) (k : list B) x :
  Forall2 P l k -> x ∈ l -> exists y, y ∈ k ∧ P x y.
Proof.
  intros Hall [i Hi]%list_elem_of_lookup_1.
  destruct (Forall2_lookup_l _ _ _ _ _ Hall Hi) as (y & Hy & HP).
  exists y. split; [by apply list_elem_of_lookup_2 with i|done].
Qed.

Lemma tag_names_of_elem d note_id name :
  name ∈ Sql.tag_names_of d note_id <-> name ∈ linked_names d note_id.
Proof. by rewrite tag_names_of_sorted_linked, merge_sort_Permutation. Qed.

Lemma sorted_set_elem names name : name ∈ Text.sorted_set names <-> name ∈ names.
Proof.
  unfold Text.sorted_set. by rewrite merge_sort_Permutation, elem_of_remove_dups.
Qed.

(** After [set_note_tags] the join of [get_tags_for_note] reads back exactly
    the cleaned names, sorted and without duplicates. *)
Lemma replaced_tag_names d' note_id ids rows names :
  wf d' ->
  note_tags d' = add_links note_id ids (others note_id rows) ->
  Forall2 (fun i name => tag_id_of d' name = Some i) ids names ->
  Sql.tag_names_of d' note_id = Text.sorted_set names
  ∧ omap (tag_name_of d') ids = names.
Proof.
  intros Hwf Hlinks Hall. split; [|by apply resolved_names; [apply Hwf|]].
  apply strictly_sorted_ext;
    [by apply tag_names_of_strictly_sorted|apply sorted_set_strictly_sorted|].
  intros x. rewrite tag_names_of_elem, sorted_set_elem, elem_of_linked_names.
  split.
  - intros (t & Ht & <- & Hin). rewrite Hlinks in Hin.
    apply add_links_inv in Hin as [Hin|[_ Hin]].
    + pose proof (others_owner note_id rows) as Ho.
      rewrite Forall_forall in Ho. by destruct (Ho _ Hin).
    + simpl in Hin. destruct (Forall2_elem_l _ _ _ _ Hall Hin) as (y & Hy & Hl).
      apply tag_id_of_Some_elem in Hl.
      pose proof (tag_name_of_elem _ _ _ (wf_tag_ids _ Hwf) Hl) as E1.
      assert (Ht' : Tag.mk (Tag.id t) (Tag.name t) ∈ tags d') by (by destruct t).
      pose proof (tag_name_of_elem _ _ _ (wf_tag_ids _ Hwf) Ht') as E2.
      congruence.
  - intros Hx. destruct (Forall2_elem_r _ _ _ _ Hall Hx) as (i & Hi & Hl).
    apply tag_id_of_Some_elem in Hl.
    exists (Tag.mk i x). split; [done|]. split; [done|].
    rewrite Hlinks. by apply add_links_elem.
Qed.

(** * The claims *)

(** C7. For every sequence of tag names, on any connection,
    [get_or_create_tag_ids] succeeds and returns exactly one id per name
    that is non-empty after trimming ([cleaned]: trimmed, empties skipped,
    input order kept, nothing deduplicated): the [k]-th id is the id of the
    tag row carrying the [k]-th cleaned name, as a lookup by name now finds
    it; so equal names, wherever they occur, yield the same id repeated. *)
Theorem get_or_create_tag_ids_one_id_per_name (tag_names : list string)
    (c : connection) :
  exists ids c',
    get_or_create_tag_ids tag_names c = Ok (ids, c')
    ∧ cleaned tag_names
      = filter (fun s => Text.nonempty s = true) (Text.strip <$> tag_names)
    ∧ length ids = length (cleaned tag_names)
    ∧ Forall2 (fun i name => tag_id_of (db c') name = Some i
                             ∧ Tag.mk i name ∈ tags (db c'))
              ids (cleaned tag_names)
    ∧ (forall j k name,
         cleaned tag_names !! j = Some name ->
         cleaned tag_names !! k = Some name ->
         ids !! j = ids !! k ∧ is_Some (ids !! j)).
Proof.
  destruct (get_or_create_from_spec tag_names [] c) as (ids & c' & Hrun & _ & Hall).
  exists ids, c'. split; [exact Hrun|]. split; [done|].
  split; [by apply Forall2_length in Hall|]. split.
  - eapply Forall2_impl; [exact Hall|]. intros i name Hi. split; [done|].
    by apply tag_id_of_Some_elem.
  - intros j k name Hj Hk.
    destruct (Forall2_lookup_r _ _ _ _ _ Hall Hj) as (ij & Eij & Hij).
    destruct (Forall2_lookup_r _ _ _ _ _ Hall Hk) as (ik & Eik & Hik).
    rewrite Eij, Eik. split; [congruence|eauto].
Qed.

(** A small database used to exercise the statements at concrete inputs:
    one note tagged [a] and [b], created at second [100]. *)
Definition sample_data : create_data :=
  {| c_title := "abc"; c_content := "x"; c_category := Some "work"%string;
     c_tags := Some [" a "%string; "b"%string; "a"%string; "  "%string] |}.

Definition sample_db : database := snd (create_note 100 sample_data empty_db).

Lemma sample_db_wf : wf sample_db.
Proof. apply (bool_decide_unpack _). vm_compute. exact I. Qed.

(** C4. For every note id and list of tag names, on a connection of
    [get_conn]: [set_note_tags] succeeds; a second call with the same list
    returns the same names and leaves the database exactly as the first call
    left it; the table holds no [(note_id, tag_id)] row twice afterwards
    (given it held none twice before, as its primary key demands); on a
    well-formed database the names returned are the cleaned names, sorted
    and deduplicated, and are what [get_tags_for_note] then reads; and with
    the empty list the call returns no names and leaves the note without any
    link. *)
Theorem set_note_tags_idempotent (note_id : Z) (tag_names : list string)
    (d : database) :
  exists names c1,
    set_note_tags note_id tag_names (connect d) = Ok (names, c1)
    ∧ set_note_tags note_id tag_names c1 = Ok (names, c1)
    ∧ (NoDup (note_tags d) -> NoDup (note_tags (db c1)))
    ∧ (wf d -> note_id ≤ notes_seq d ->
       names = Text.sorted_set (cleaned tag_names)
       ∧ get_tags_for_note note_id c1 = Ok (names, c1))
    ∧ exists c0,
        set_note_tags note_id [] (connect d) = Ok ([], c0)
        ∧ Forall (fun x => NoteTag.note_id x ≠ note_id) (note_tags (db c0))
        ∧ get_tags_for_note note_id c0 = Ok ([], c0).
Proof.
  destruct (set_note_tags_spec (connect d) note_id tag_names eq_refl)
    as (ids & c1 & Hg & Hall & Hrun).
  change (note_tags (db (connect d))) with (note_tags d) in *.
  set (links := add_links note_id ids (others note_id (note_tags d))) in *.
  eexists _, _. split; [exact Hrun|].
  assert (Hfk1 : foreign_keys c1 = false) by (by rewrite (grows_fk _ _ Hg)).
  split; [|split; [|split]].
  - rewrite (set_note_tags_run (with_note_tags c1 links) note_id tag_names ids
               (with_note_tags c1 (others note_id (note_tags d)))).
    + reflexivity.
    + done.
    + simpl. unfold links. rewrite others_add_links.
      by apply (get_or_create_from_resolved tag_names [] ids).
    + done.
  - intros Hnd. simpl. by apply add_links_NoDup, NoDup_filter.
  - intros Hwf Hle.
    pose proof (wf_replaced (connect d) c1 note_id ids Hg Hwf Hle) as Hwf1.
    destruct (replaced_tag_names (db (with_note_tags c1 links)) note_id ids
                (note_tags d) (cleaned tag_names) Hwf1 eq_refl Hall)
      as [Hstored Hnames].
    unfold tag_name_of in Hnames. simpl in Hnames.
    fold (tag_name_of (db c1)) in Hnames. rewrite Hnames. split; [done|].
    unfold get_tags_for_note, Sql.select_tag_names_of_note, query.
    by rewrite Hstored.
  - eexists. split; [reflexivity|]. simpl. split; [apply others_owner|].
    unfold get_tags_for_note, Sql.select_tag_names_of_note, query. simpl.
    rewrite tag_names_of_sorted_linked, linked_names_nil; [done|].
    apply others_owner.
Qed.

Lemma set_note_tags_idempotent_witness :
  exists names c1,
    set_note_tags 1 ["b"%string; " b"%string] (connect sample_db) = Ok (names, c1)
    ∧ NoDup (note_tags (db c1))
    ∧ names = Text.sorted_set (cleaned ["b"%string; " b"%string]).
Proof.
  destruct (set_note_tags_idempotent 1 ["b"%string; " b"%string] sample_db)
    as (names & c1 & Hrun & _ & Hnd & Hstored & _).
  exists names, c1. split; [exact Hrun|]. split.
  - apply Hnd. apply (bool_decide_unpack _). vm_compute. exact I.
  - apply Hstored.
    + apply (bool_decide_unpack _). vm_compute. exact I.
    + vm_compute. discriminate.
Defined.

(** C9. In every reachable state and for every title and content (valid
    non-empty pairs among them), when no tags are supplied [create_note]
    succeeds with a note carrying that title and content and the empty tag
    list, present under the [tags] key; [get_note] on the returned id then
    succeeds with that very note. *)
Theorem create_then_get (now : Z) (data : create_data) (d : database) :
  reachable d ->
  default [] (c_tags data) = [] ->
  exists note d',
    create_note now data d = (Ok note, d')
    ∧ get_note (NoteDict.id note) d' = (Ok (Some note), d')
    ∧ NoteDict.title note = c_title data
    ∧ NoteDict.content note = c_content data
    ∧ NoteDict.tags note = Some [].
Proof.
  intros Hwf%reachable_wf Hnone.
  destruct (create_note_spec now data d)
    as (names & d' & Hrun & Hnotes & Hseq & _ & _ & Htags).
  rewrite Hnone in Htags. destruct Htags as (-> & _ & Hlinks).
  eexists _, d'. split; [exact Hrun|]. split; [|done].
  rewrite get_note_spec. simpl.
  change (Sql.next_rowid _ _) with (Note.id (new_note now data d)).
  rewrite (note_of_new now data d d' Hnotes). simpl. unfold with_tags.
  rewrite tag_names_of_sorted_linked, linked_names_nil; [done|].
  rewrite Hlinks. eapply Forall_impl; [apply (wf_note_tags_seq _ Hwf)|].
  simpl. intros x Hx.
  pose proof (next_rowid_gt_seq (notes_seq d) (Note.id <$> notes d)). lia.
Qed.

Lemma create_then_get_witness :
  exists note d',
    create_note 7 {| c_title := "t"; c_content := "body"; c_category := None;
                     c_tags := None |} sample_db = (Ok note, d')
    ∧ get_note (NoteDict.id note) d' = (Ok (Some note), d')
    ∧ NoteDict.title note = "t"%string
    ∧ NoteDict.content note = "body"%string
    ∧ NoteDict.tags note = Some [].
Proof.
  apply (create_then_get 7 {| c_title := "t"; c_content := "body";
                              c_category := None; c_tags := None |} sample_db).
  - apply reach_create, reach_init.
  - reflexivity.
Defined.

(** What [create_note] does when handed the single tag [a]. *)
Lemma create_note_tag_a now data d :
  wf d -> c_tags data = Some ["a"%string] ->
  exists i d',
    create_note now data d
    = (Ok (NoteDict.set_tags (row_to_dict (new_note now data d)) ["a"%string]), d')
    ∧ wf d'
    ∧ notes_seq d' = Note.id (new_note now data d)
    ∧ (exists new, tags d' = tags d ++ new)
    ∧ tag_id_of d' "a" = Some i
    ∧ note_tags d'
      = add_links (Note.id (new_note now data d)) [i]
          (others (Note.id (new_note now data d)) (note_tags d)).
Proof.
  intros Hwf Ha.
  destruct (create_note_spec now data d)
    as (names & d' & Hrun & _ & Hseq & Hgrow & Hwf' & Htags).
  rewrite Ha in Htags. simpl in Htags.
  destruct Htags as (ids & Hall & Hlinks & ->).
  change (cleaned ["a"%string]) with ["a"%string] in Hall.
  apply Forall2_cons_inv_r in Hall as (i & ids' & Hi & Hnil & ->).
  apply Forall2_nil_inv_r in Hnil as ->.
  exists i, d'. rewrite Hrun.
  rewrite (resolved_names d' [i] ["a"%string]);
    [|apply (wf_tag_ids _ (Hwf' Hwf))|by repeat constructor].
  split_and!; auto.
Qed.

(** C6. In every reachable state no two tag rows share a name; and creating
    two notes, each with tags [["a"]], from such a state succeeds twice,
    leaves exactly one tag row named [a], and links both notes to it. *)
Theorem tag_names_unique (d : database) :
  reachable d ->
  NoDup (Tag.name <$> tags d)
  ∧ forall now1 now2 data1 data2,
      c_tags data1 = Some ["a"%string] ->
      c_tags data2 = Some ["a"%string] ->
      exists n1 d1 n2 d2 t,
        create_note now1 data1 d = (Ok n1, d1)
        ∧ create_note now2 data2 d1 = (Ok n2, d2)
        ∧ NoteDict.id n1 ≠ NoteDict.id n2
        ∧ filter (fun t => Tag.name t = "a"%string) (tags d2) = [t]
        ∧ NoteTag.mk (NoteDict.id n1) (Tag.id t) ∈ note_tags d2
        ∧ NoteTag.mk (NoteDict.id n2) (Tag.id t) ∈ note_tags d2
        ∧ NoteDict.tags n1 = Some ["a"%string]
        ∧ NoteDict.tags n2 = Some ["a"%string].
Proof.
  intros Hwf%reachable_wf. split; [apply Hwf|].
  intros now1 now2 data1 data2 Ha1 Ha2.
  destruct (create_note_tag_a now1 data1 d Hwf Ha1)
    as (i1 & d1 & Hrun1 & Hwf1 & Hseq1 & _ & Hi1 & Hl1).
  destruct (create_note_tag_a now2 data2 d1 Hwf1 Ha2)
    as (i2 & d2 & Hrun2 & Hwf2 & _ & [new Hgrow] & Hi2 & Hl2).
  set (id1 := Note.id (new_note now1 data1 d)) in *.
  set (id2 := Note.id (new_note now2 data2 d1)) in *.
  assert (Hne : id1 ≠ id2).
  { pose proof (next_rowid_gt_seq (notes_seq d1) (Note.id <$> notes d1)) as Hgt.
    change (Sql.next_rowid _ _) with id2 in Hgt. lia. }
  assert (Hsame : i2 = i1).
  { apply (tag_id_of_app d1 d2 new) in Hi1; [|done]. congruence. }
  subst i2.
  exists (NoteDict.set_tags (row_to_dict (new_note now1 data1 d)) ["a"%string]),
    d1,
    (NoteDict.set_tags (row_to_dict (new_note now2 data2 d1)) ["a"%string]),
    d2, (Tag.mk i1 "a").
  split; [done|]. split; [done|]. split; [done|]. split.
  - apply (filter_key_unique Tag.name (tags d2) (Tag.mk i1 "a")).
    + apply Hwf2.
    + by apply tag_id_of_Some_elem.
  - simpl. fold id1 id2. split; [|split; [|done]].
    + rewrite Hl2. apply add_links_keeps, list_elem_of_filter.
      split; [done|]. rewrite Hl1. apply add_links_elem. left.
    + rewrite Hl2. apply add_links_elem. left.
Qed.

Lemma tag_names_unique_witness :
  NoDup (Tag.name <$> tags sample_db).
Proof. apply (tag_names_unique sample_db). apply reach_create, reach_init. Defined.

(** ** Listing *)

Lemma attach_tags_spec rows : forall results c,
  attach_tags results rows c = Ok (results ++ (with_tags (db c) <$> rows), c).
Proof.
  induction rows as [|r rows IH]; intros results c; simpl.
  - by rewrite app_nil_r.
  - unfold bind at 1.
    unfold get_tags_for_note, Sql.select_tag_names_of_note, query.
    rewrite IH. by rewrite <- app_assoc.
Qed.

Lemma list_notes_spec q tag category d :
  list_notes q tag category d
  = match Sql.select_notes_where d (list_notes_query q tag category).1
                                   (list_notes_query q tag category).2 with
    | Ok rows => (Ok (with_tags d <$> rows), d)
    | Raise e => (Raise e, d)
    end.
Proof.
  unfold list_notes, get_conn.
  destruct (list_notes_query q tag category) as [join where_].
  unfold bind, Sql.select_notes. cbn [fst snd]. change (db (connect d)) with d.
  destruct (Sql.select_notes_where d join where_) as [rows|e]; [|done].
  cbn [and_then]. by rewrite attach_tags_spec.
Qed.

(** [list_notes] writes nothing, whether it returns or raises. *)
Lemma list_notes_reads q tag category d : snd (list_notes q tag category d) = d.
Proof. rewrite list_notes_spec. by destruct (Sql.select_notes_where _ _ _). Qed.

(** A filter as [list_notes] reads it: an empty string counts as absent. *)
Definition supplied (o : option string) : option string :=
  if Text.truthy o then o else None.

Lemma list_notes_query_supplied q tag category :
  list_notes_query q tag category
  = list_notes_query (supplied q) (supplied tag) (supplied category).
Proof.
  destruct q as [[|??]|], tag as [[|??]|], category as [[|??]|]; reflexivity.
Qed.

Lemma list_notes_supplied q tag category d :
  list_notes q tag category d
  = list_notes (supplied q) (supplied tag) (supplied category) d.
Proof. by rewrite !list_notes_spec, <- list_notes_query_supplied. Qed.

#[global] Instance order_by_total : Total Sql.order_by.
Proof. intros a b. unfold Sql.order_by. lia. Qed.

#[global] Instance order_by_trans : Transitive Sql.order_by.
Proof. intros a b c. unfold Sql.order_by. lia. Qed.

(** [ORDER BY updated_at DESC, created_at DESC], read on the returned dicts. *)
Definition listed_before (a b : NoteDict.t) : Prop :=
  NoteDict.updated_at b < NoteDict.updated_at a
  ∨ (NoteDict.updated_at a = NoteDict.updated_at b
     ∧ NoteDict.created_at b ≤ NoteDict.created_at a).

Lemma with_tags_sorted d rows :
  StronglySorted Sql.order_by rows ->
  StronglySorted listed_before (with_tags d <$> rows).
Proof.
  induction 1 as [|r rows _ IH Hall]; [constructor|].
  rewrite fmap_cons. constructor; [done|].
  apply Forall_fmap. eapply Forall_impl; [exact Hall|]. done.
Qed.

Lemma filter_all {A} (P : A -> Prop) `{forall x, Decision (P x)} (l : list A) :
  (forall x, P x) -> filter P l = l.
Proof.
  intros HP. induction l as [|x l IH]; [done|].
  by rewrite filter_cons_True, IH.
Qed.

(** ** The sorter *)

Lemma sorted_insert_Permutation r rows : Sql.sorted_insert r rows ≡ₚ r :: rows.
Proof.
  induction rows as [|x rows IH]; [done|]. simpl.
  case_decide; [done|]. by rewrite IH, Permutation_swap.
Qed.

Lemma sort_rows_Permutation rows : Sql.sort_rows rows ≡ₚ rows.
Proof.
  induction rows as [|r rows IH]; [done|]. simpl.
  by rewrite sorted_insert_Permutation, IH.
Qed.

Lemma sorted_insert_sorted r rows :
  StronglySorted Sql.order_by rows ->
  StronglySorted Sql.order_by (Sql.sorted_insert r rows).
Proof.
  induction 1 as [|x rows Hs IH Hall]; simpl.
  - repeat constructor.
  - case_decide as Hrx.
    + constructor; [by constructor|]. constructor; [done|].
      eapply Forall_impl; [exact Hall|]. intros y Hxy. by transitivity x.
    + constructor; [done|]. rewrite sorted_insert_Permutation.
      constructor; [|done]. by destruct (total Sql.order_by r x).
Qed.

Lemma sort_rows_sorted rows : StronglySorted Sql.order_by (Sql.sort_rows rows).
Proof.
  induction rows as [|r rows IH]; [constructor|]. by apply sorted_insert_sorted.
Qed.

(** Rows already in listing order are left as they are: on equal keys the
    order of the scan is kept. *)
Lemma sort_rows_of_sorted rows :
  StronglySorted Sql.order_by rows -> Sql.sort_rows rows = rows.
Proof.
  induction 1 as [|x rows Hs IH Hall]; [done|]. simpl. rewrite IH.
  destruct rows as [|y rows]; [done|]. simpl.
  apply Forall_cons in Hall as [Hxy _]. by rewrite decide_True.
Qed.

(** Seven rows, the fourth updated last, the sixth and seventh created a
    second after the rest: rows whose keys are equal leave the sorter in the
    order of their row ids. *)
Example sorter_keeps_scan_order :
  Note.id <$>
    Sql.sort_rows
      ((fun i => Note.mk i "t" "c" None (if bool_decide (6 ≤ i) then 1 else 0)
                         (if bool_decide (i = 4) then 5 else 0))
         <$> [1; 2; 3; 4; 5; 6; 7])
  = [4; 6; 7; 1; 2; 3; 5].
Proof. by vm_compute. Qed.

(** ** Loops that do not raise *)

Lemma loop_ok {A B} (xs : list A) (body : A -> result (list B))
    (f : A -> list B) :
  (forall x, x ∈ xs -> body x = Ok (f x)) -> loop xs body = Ok (xs ≫= f).
Proof.
  induction xs as [|x xs IH]; intros Hbody; [done|]. simpl.
  rewrite (Hbody x) by left. simpl.
  rewrite IH by (intros y Hy; apply Hbody; by right). done.
Qed.

Lemma loop_raises {A B} (x : A) (xs : list A) (body : A -> result (list B)) e :
  body x = Raise e -> loop (x :: xs) body = Raise e.
Proof. intros H. simpl. by rewrite H. Qed.

(** ** The statement of [list_notes] when no pattern is refused *)

(** The text filter, as [list_notes] reads it, gives a [LIKE] pattern
    within the engine's limit. *)
Definition searchable (q : option string) : Prop :=
  match supplied q with
  | Some s =>
      Text.utf8_length (Text.contains_pattern s) ≤ Sql.max_like_pattern_length
  | None => True
  end.

#[global] Instance searchable_dec q : Decision (searchable q).
Proof. unfold searchable. destruct (supplied q); apply _. Defined.

Definition within_limit (w : Sql.where_clause) : Prop :=
  match w with
  | Sql.TitleOrContentLike p1 p2 =>
      Text.utf8_length p1 ≤ Sql.max_like_pattern_length
      ∧ Text.utf8_length p2 ≤ Sql.max_like_pattern_length
  | _ => True
  end.

(** What a term on [n] decides once its pattern is accepted. *)
Definition satisfies (r : Note.row) (w : Sql.where_clause) : bool :=
  match w with
  | Sql.TitleOrContentLike p1 p2 =>
      Text.like p1 (Note.title r) || Text.like p2 (Note.content r)
  | Sql.CategoryEq c => bool_decide (Note.category r = Some c)
  | Sql.TagNameEq _ => true
  end.

Lemma holds_within_limit r w :
  within_limit w -> Sql.holds r w = Ok (satisfies r w).
Proof.
  destruct w as [p1 p2|c|name]; [|done..]. intros [H1 H2].
  unfold Sql.holds, Sql.like. rewrite !bool_decide_eq_true_2 by done.
  simpl. by destruct (Text.like p1 _).
Qed.

Lemma all_hold_within_limit r where_ :
  Forall within_limit where_ ->
  Sql.all_hold r where_ = Ok (forallb (satisfies r) where_).
Proof.
  induction 1 as [|w ws Hw _ IH]; [done|]. simpl.
  rewrite holds_within_limit by done. simpl.
  by destruct (satisfies r w).
Qed.

Lemma list_notes_query_within_limit q tag category :
  searchable q -> Forall within_limit (list_notes_query q tag category).2.
Proof.
  unfold searchable, supplied.
  destruct q as [[|??]|], tag as [[|??]|], category as [[|??]|]; simpl;
    intros H; repeat constructor; done.
Qed.

Lemma bind_if_then {A B} (P : A -> bool) (g : A -> list B) (l : list A) :
  l ≫= (fun x => if P x then g x else []) = filter (fun x => P x = true) l ≫= g.
Proof.
  induction l as [|x l IH]; [done|].
  rewrite bind_cons, filter_cons, IH. destruct (P x) eqn:E.
  - by rewrite decide_True, bind_cons.
  - by rewrite decide_False.
Qed.

(** The rows the loops produce before they are sorted. *)
Definition produced (d : database) (join : list Sql.join_clause)
    (where_ : list Sql.where_clause) : list Note.row :=
  let passing :=
    filter (fun r => forallb (satisfies r) where_ = true) (notes d) in
  match join with
  | [] => passing
  | _ :: _ =>
      y ← Sql.named_tags d where_;
      r ← passing;
      x ← note_tags d;
      if decide (NoteTag.note_id x = Note.id r ∧ NoteTag.tag_id x = Tag.id y)
      then [r] else []
  end.

Lemma select_within_limit d join where_ :
  Forall within_limit where_ ->
  Sql.select_notes_where d join where_
  = Ok (Sql.sort_rows (produced d join where_)).
Proof.
  intros Hok. unfold Sql.select_notes_where, produced.
  destruct join as [|j join].
  - rewrite (loop_ok _ _ (fun r => if forallb (satisfies r) where_
                                   then [r] else [])).
    + simpl. f_equal. f_equal. rewrite bind_if_then.
      induction (filter _ (notes d)) as [|r l IH]; [done|].
      by rewrite bind_cons, IH.
    + intros r _. by rewrite all_hold_within_limit.
  - rewrite (loop_ok _ _ (fun y =>
      notes d ≫= (fun r =>
        if forallb (satisfies r) where_
        then x ← note_tags d;
             if decide (NoteTag.note_id x = Note.id r
                        ∧ NoteTag.tag_id x = Tag.id y)
             then [r] else []
        else []))).
    + simpl. f_equal. f_equal. apply list_bind_ext; [|done]. intros y.
      by rewrite bind_if_then.
    + intros y _. apply loop_ok. intros r _.
      by rewrite all_hold_within_limit.
Qed.

Lemma select_notes_sorted d join where_ rows :
  Sql.select_notes_where d join where_ = Ok rows ->
  StronglySorted Sql.order_by rows.
Proof.
  unfold Sql.select_notes_where.
  destruct (match join with [] => _ | _ => _ end) as [l|e]; [|done].
  simpl. intros [= <-]. apply sort_rows_sorted.
Qed.

(** With a text filter within the limit, [list_notes] returns. *)
Lemma list_notes_returns q tag category d :
  searchable q ->
  list_notes q tag category d
  = (Ok (with_tags d <$>
           Sql.sort_rows (produced d (list_notes_query q tag category).1
                                     (list_notes_query q tag category).2)), d).
Proof.
  intros Hq. rewrite list_notes_spec.
  by rewrite select_within_limit by by apply list_notes_query_within_limit.
Qed.

Lemma select_all_notes d :
  Sql.select_notes_where d [] [] = Ok (Sql.sort_rows (notes d)).
Proof.
  unfold Sql.select_notes_where.
  rewrite (loop_ok _ _ (fun r => [r])) by done. simpl. f_equal. f_equal.
  induction (notes d) as [|r l IH]; [done|]. by rewrite bind_cons, IH.
Qed.

(** C10. In every state, an empty string given for [q], [tag] or [category]
    is read as if that filter were absent; in particular [list_notes] with
    [q = ""] and nothing else returns all notes (in listing order, each with
    its tags). *)
Theorem empty_filter_is_absent (q tag category : option string) (d : database) :
  list_notes (Some ""%string) tag category d = list_notes None tag category d
  ∧ list_notes q (Some ""%string) category d = list_notes q None category d
  ∧ list_notes q tag (Some ""%string) d = list_notes q tag None d
  ∧ list_notes q tag category d
    = list_notes (supplied q) (supplied tag) (supplied category) d
  ∧ list_notes (Some ""%string) None None d
    = (Ok (with_tags d <$> Sql.sort_rows (notes d)), d)
  ∧ Sql.sort_rows (notes d) ≡ₚ notes d.
Proof.
  split_and!.
  - rewrite (list_notes_supplied (Some ""%string) tag category),
      (list_notes_supplied None tag category). reflexivity.
  - rewrite (list_notes_supplied q (Some ""%string) category),
      (list_notes_supplied q None category). reflexivity.
  - rewrite (list_notes_supplied q tag (Some ""%string)),
      (list_notes_supplied q tag None). reflexivity.
  - apply list_notes_supplied.
  - rewrite list_notes_spec. cbn [list_notes_query Text.nonempty fst snd].
    by rewrite select_all_notes.
  - apply sort_rows_Permutation.
Qed.

(** Three notes, the first two created within the same second and never
    touched since. *)
Definition listing_db : database :=
  snd (create_note 200
         {| c_title := "third"; c_content := "z"; c_category := None;
            c_tags := Some ["a"%string] |}
         (snd (create_note 100
                 {| c_title := "second"; c_content := "y"; c_category := None;
                    c_tags := Some ["a"%string] |}
                 (snd (create_note 100
                         {| c_title := "first"; c_content := "x";
                            c_category := None; c_tags := None |}
                         empty_db))))).

Lemma listing_db_reachable : reachable listing_db.
Proof. unfold listing_db. apply reach_create, reach_create, reach_create, reach_init. Qed.

(** C8. In every reachable state and for every filter, the sequence
    [list_notes] returns is ordered as claimed: every note in it is followed
    only by notes with a smaller [updated_at], or the same [updated_at] and a
    [created_at] no larger; and every returned note carries under [tags] the
    names of exactly the tags linked to it, in increasing code-point order and
    without duplicates. The database is left as it was. A sequence is
    returned whenever the [LIKE] pattern made from [q] is within the
    engine's limit. *)
Theorem list_notes_ordered (q tag category : option string) (d : database) :
  reachable d ->
  (searchable q -> exists result, list_notes q tag category d = (Ok result, d))
  ∧ forall result d',
      list_notes q tag category d = (Ok result, d') ->
      d' = d
      ∧ StronglySorted listed_before result
      ∧ Forall (fun note =>
          exists names,
            NoteDict.tags note = Some names
            ∧ Sorted String.le names
            ∧ NoDup names
            ∧ forall name,
                name ∈ names
                <-> exists t, t ∈ tags d ∧ Tag.name t = name
                           ∧ NoteTag.mk (NoteDict.id note) (Tag.id t) ∈ note_tags d)
          result.
Proof.
  intros Hwf%reachable_wf. split.
  - intros Hq. rewrite list_notes_returns by done. by eexists.
  - intros result d'. rewrite list_notes_spec.
    destruct (Sql.select_notes_where _ _ _) as [rows|e] eqn:Hrows; [|done].
    intros [= <- <-]. split; [done|]. split.
    + apply with_tags_sorted. by eapply select_notes_sorted.
    + apply Forall_fmap, Forall_forall. intros r _. simpl.
      exists (Sql.tag_names_of d (Note.id r)). split; [done|].
      destruct (tag_names_of_strictly_sorted d (Note.id r) Hwf) as [Hs Hn].
      split; [done|]. split; [done|].
      intros name. by rewrite tag_names_of_elem, elem_of_linked_names.
Qed.

Lemma list_notes_ordered_witness :
  exists result,
    list_notes (Some "d"%string) None None listing_db = (Ok result, listing_db)
    ∧ StronglySorted listed_before result
    ∧ NoteDict.id <$> result = [3; 2]
  ∧ exists result,
    list_notes None None None listing_db = (Ok result, listing_db)
    ∧ StronglySorted listed_before result
    ∧ NoteDict.id <$> result = [3; 1; 2].
Proof.
  pose proof (list_notes_ordered (Some "d"%string) None None listing_db
                listing_db_reachable) as [Hreturns Hordered].
  destruct Hreturns as [result Hrun]; [vm_compute; discriminate|].
  exists result. split; [exact Hrun|].
  split; [exact (proj1 (proj2 (Hordered result listing_db Hrun)))|].
  split.
  { vm_compute in Hrun. by injection Hrun as <-. }
  pose proof (list_notes_ordered None None None listing_db
                listing_db_reachable) as [Hreturns' Hordered'].
  destruct Hreturns' as [result' Hrun']; [exact I|].
  exists result'. split; [exact Hrun'|].
  split; [exact (proj1 (proj2 (Hordered' result' listing_db Hrun')))|].
  vm_compute in Hrun'. by injection Hrun' as <-.
Defined.

(** ** Updating, column by column *)

Lemma tag_names_of_same d d' note_id :
  tags d' = tags d -> note_tags d' = note_tags d ->
  Sql.tag_names_of d' note_id = Sql.tag_names_of d note_id.
Proof. unfold Sql.tag_names_of. by intros -> ->. Qed.

Lemma update_rows_nothing now note_id data rows :
  update_sets data = [] -> update_rows now note_id data rows = rows.
Proof.
  intros E. unfold update_rows, updated_row. rewrite E.
  rewrite <- (list_fmap_id rows) at 2.
  apply list_fmap_ext. intros _ r _. by case_decide.
Qed.

(** The note [update_note] returns is the one stored, and the one a later
    [get_note] returns. *)
Lemma update_note_result now note_id data d r :
  note_of d note_id = Some r ->
  exists d',
    update_note now note_id data d
    = (Ok (Some (with_tags d' (updated_row now data r))), d')
    ∧ get_note note_id d' = (Ok (Some (with_tags d' (updated_row now data r))), d')
    ∧ notes d' = update_rows now note_id data (notes d)
    ∧ (u_tags data = None ->
       tags d' = tags d ∧ note_tags d' = note_tags d
       ∧ Sql.tag_names_of d' note_id = Sql.tag_names_of d note_id).
Proof.
  intros Hr.
  destruct (update_note_spec now note_id data d r Hr)
    as (d' & Hrun & Hnotes & _ & _ & _ & Htags).
  exists d'. split; [done|]. split; [|split; [done|]].
  - rewrite get_note_spec.
    by rewrite (note_of_update_rows now note_id data d d' Hnotes), Hr.
  - intros Hnone. rewrite Hnone in Htags. destruct Htags as [Et El].
    split; [done|]. split; [done|]. by apply tag_names_of_same.
Qed.

(** C2, as the claim states it: a tags-only update of an existing note
    returns the note with [updated_at] set to the current clock reading. *)
Definition tags_only_update_refreshes : Prop :=
  forall (now note_id : Z) (tag_names : list string) (d : database) (r : Note.row),
    note_of d note_id = Some r ->
    exists note d',
      update_note now note_id
        {| u_title := None; u_content := None; u_category := None;
           u_tags := Some tag_names |} d = (Ok (Some note), d')
      ∧ NoteDict.updated_at note = now.

(** C2, refuted: the sample note, written at second [100], keeps
    [updated_at = 100] when only its tags are replaced at second [200]. *)
Lemma tags_only_update_refreshes_counterexample : ~ tags_only_update_refreshes.
Proof.
  intros H.
  destruct (H 200 1 ["z"%string] sample_db
              (Note.mk 1 "abc" "x" (Some "work"%string) 100 100) eq_refl)
    as (note & d' & Hrun & Hnow).
  vm_compute in Hrun. injection Hrun as <- _. vm_compute in Hnow. discriminate.
Qed.

(** C2, amended. For every existing note id and every update whose only
    present field is [tags], [update_note] succeeds, replaces the note's
    links, and leaves [updated_at] (like every row of [notes]) as it was:
    the timestamp is refreshed only when a column is written. *)
Theorem tags_only_update_keeps_updated_at (now note_id : Z)
    (tag_names : list string) (d : database) (r : Note.row) :
  note_of d note_id = Some r ->
  exists note d',
    update_note now note_id
      {| u_title := None; u_content := None; u_category := None;
         u_tags := Some tag_names |} d = (Ok (Some note), d')
    ∧ NoteDict.updated_at note = Note.updated_at r
    ∧ notes d' = notes d
    ∧ get_note note_id d' = (Ok (Some note), d')
    ∧ (wf d -> NoteDict.tags note = Some (Text.sorted_set (cleaned tag_names))).
Proof.
  intros Hr.
  set (data := {| u_title := None; u_content := None; u_category := None;
                  u_tags := Some tag_names |}).
  destruct (update_note_spec now note_id data d r Hr)
    as (d' & Hrun & Hnotes & _ & _ & Hwf' & ids & Hall & Hlinks).
  destruct (update_note_result now note_id data d r Hr)
    as (d'' & Hrun' & Hget & _ & _).
  assert (d'' = d') by congruence. subst d''.
  eexists _, d'. split; [exact Hrun|]. split; [done|].
  split; [by rewrite Hnotes, update_rows_nothing|]. split; [done|].
  intros Hwf. simpl. f_equal.
  rewrite updated_row_id, (note_of_id _ _ _ Hr).
  by destruct (replaced_tag_names d' note_id ids (note_tags d)
                 (cleaned tag_names) (Hwf' Hwf) Hlinks Hall).
Qed.

Lemma tags_only_update_keeps_updated_at_witness :
  exists note d',
    update_note 200 1
      {| u_title := None; u_content := None; u_category := None;
         u_tags := Some ["z"%string] |} sample_db = (Ok (Some note), d')
    ∧ NoteDict.updated_at note = 100.
Proof.
  destruct (tags_only_update_keeps_updated_at 200 1 ["z"%string] sample_db
              (Note.mk 1 "abc" "x" (Some "work"%string) 100 100) eq_refl)
    as (note & d' & Hrun & Hat & _).
  exists note, d'. by split.
Defined.

(** C5, as the claim states it: a title-only update of an existing note
    keeps content, category and tags, sets the title, and returns an
    [updated_at] strictly beyond the stored one. *)
Definition title_update_advances : Prop :=
  forall (now note_id : Z) (x : string) (d : database) (r : Note.row),
    note_of d note_id = Some r ->
    exists note d',
      update_note now note_id
        {| u_title := Some x; u_content := None; u_category := None;
           u_tags := None |} d = (Ok (Some note), d')
      ∧ NoteDict.title note = x
      ∧ NoteDict.content note = Note.content r
      ∧ NoteDict.category note = Note.category r
      ∧ NoteDict.tags note = Some (Sql.tag_names_of d note_id)
      ∧ Note.updated_at r < NoteDict.updated_at note.

(** C5, refuted: retitling the sample note in the second it was created,
    [100], returns [updated_at = 100], not a later value. *)
Lemma title_update_advances_counterexample : ~ title_update_advances.
Proof.
  intros H.
  destruct (H 100 1 "X"%string sample_db
              (Note.mk 1 "abc" "x" (Some "work"%string) 100 100) eq_refl)
    as (note & d' & Hrun & _ & _ & _ & _ & Hlt).
  vm_compute in Hrun. injection Hrun as <- _. vm_compute in Hlt. discriminate.
Qed.

(** C5, amended. For every existing note and every partial input,
    [update_note] succeeds and returns the stored note (the one [get_note]
    then returns): each of title, content and category is the supplied value
    when its key is present and the prior value when absent; [created_at]
    stays; when [tags] is absent the tag tables and the note's tag list stay.
    [updated_at] becomes the clock reading of the update when any of the
    three columns is present, and stays otherwise: after a title-only update
    it is strictly beyond its prior value exactly when the clock reading is
    (an update in the second of the previous write leaves it equal). *)
Theorem update_note_partial (now note_id : Z) (data : update_data)
    (d : database) (r : Note.row) :
  note_of d note_id = Some r ->
  exists note d',
    update_note now note_id data d = (Ok (Some note), d')
    ∧ get_note note_id d' = (Ok (Some note), d')
    ∧ NoteDict.id note = note_id
    ∧ NoteDict.title note = default (Note.title r) (u_title data)
    ∧ NoteDict.content note = default (Note.content r) (u_content data)
    ∧ NoteDict.category note = default (Note.category r) (u_category data)
    ∧ NoteDict.created_at note = Note.created_at r
    ∧ NoteDict.updated_at note
      = match u_title data, u_content data, u_category data with
        | None, None, None => Note.updated_at r
        | _, _, _ => now
        end
    ∧ (Note.updated_at r < NoteDict.updated_at note
       <-> Note.updated_at r < now
           ∧ ~ (u_title data = None ∧ u_content data = None
                ∧ u_category data = None))
    ∧ (u_tags data = None ->
       NoteDict.tags note = Some (Sql.tag_names_of d note_id)
       ∧ tags d' = tags d ∧ note_tags d' = note_tags d).
Proof.
  intros Hr.
  destruct (update_note_result now note_id data d r Hr)
    as (d' & Hrun & Hget & _ & Htags).
  eexists _, d'. split; [exact Hrun|]. split; [exact Hget|].
  unfold with_tags. rewrite updated_row_columns. simpl.
  split_and!; try done.
  - by apply note_of_id in Hr.
  - destruct (u_title data), (u_content data), (u_category data);
      split; try (intros [? Hn]); try split; try lia; try done;
      try (intros (?&?&?); discriminate).
    exfalso. by apply Hn.
  - intros Hnone. destruct (Htags Hnone) as (Et & El & En).
    rewrite (note_of_id _ _ _ Hr), En. done.
Qed.

Lemma update_note_partial_witness :
  exists note d',
    update_note 250 1
      {| u_title := Some "X"%string; u_content := None; u_category := None;
         u_tags := None |} sample_db = (Ok (Some note), d')
    ∧ NoteDict.title note = "X"%string
    ∧ NoteDict.content note = "x"%string
    ∧ NoteDict.category note = Some "work"%string
    ∧ NoteDict.updated_at note = 250.
Proof.
  destruct (update_note_partial 250 1
              {| u_title := Some "X"%string; u_content := None;
                 u_category := None; u_tags := None |} sample_db
              (Note.mk 1 "abc" "x" (Some "work"%string) 100 100) eq_refl)
    as (note & d' & Hrun & _ & _ & Ht & Hc & Hcat & _ & Hat & _).
  exists note, d'. by split_and!.
Defined.

(** ** Deleting *)

Lemma filter_keeps {A} (P : A -> Prop) `{forall x, Decision (P x)} (l : list A) :
  Forall P l -> filter P l = l.
Proof.
  induction 1 as [|x l Hx _ IH]; [done|]. by rewrite filter_cons_True, IH.
Qed.

Lemma note_of_None d note_id :
  note_of d note_id = None <-> Forall (fun r => Note.id r ≠ note_id) (notes d).
Proof.
  unfold note_of, Sql.fetchone. rewrite head_None, Forall_forall. split.
  - intros Hnil r Hr E.
    assert (Hin : r ∈ filter (fun r => Note.id r = note_id) (notes d))
      by (by apply list_elem_of_filter).
    rewrite Hnil in Hin. by apply elem_of_nil in Hin.
  - intros Hall. destruct (filter _ _) as [|r l] eqn:E; [done|].
    assert (Hr : r ∈ filter (fun r => Note.id r = note_id) (notes d))
      by (rewrite E; left).
    apply list_elem_of_filter in Hr as [Hid Hr]. by destruct (Hall _ Hr).
Qed.

(** On an id no row carries, [delete_note] returns [False], raises nothing
    and leaves the database as it was. *)
Lemma delete_note_missing note_id d :
  note_of d note_id = None -> delete_note note_id d = (Ok false, d).
Proof.
  intros Hnone. rewrite delete_note_spec.
  pose proof Hnone as Hall. apply note_of_None in Hall.
  unfold note_of, Sql.fetchone in Hnone. apply head_None in Hnone.
  rewrite Hnone, (filter_keeps _ _ Hall). by destruct d.
Qed.

(** On an existing id it removes the row, returns [True], and a later
    [get_note] finds nothing; the [note_tags] table is not touched. *)
Lemma delete_note_existing note_id d r :
  note_of d note_id = Some r ->
  exists d',
    delete_note note_id d = (Ok true, d')
    ∧ get_note note_id d' = (Ok None, d')
    ∧ note_tags d' = note_tags d.
Proof.
  intros Hr. rewrite delete_note_spec.
  exists {| notes := filter (fun r => Note.id r ≠ note_id) (notes d);
            notes_seq := notes_seq d;
            tags := tags d; tags_seq := tags_seq d;
            note_tags := note_tags d |}.
  split; [|split]; [| |done].
  - unfold note_of, Sql.fetchone in Hr. apply head_Some in Hr as [l ->].
    reflexivity.
  - rewrite get_note_spec.
    assert (Hnone : forall d', notes d' = filter (fun r => Note.id r ≠ note_id)
                                            (notes d) ->
                               note_of d' note_id = None).
    { intros d' E. apply note_of_None. rewrite E. apply Forall_forall.
      by intros x [? _]%list_elem_of_filter. }
    by rewrite Hnone.
Qed.

(** Had the connection enforced foreign keys, the same [DELETE] would have
    cascaded to the note's links. *)
Lemma delete_notes_cascades_when_enforced note_id d r :
  note_of d note_id = Some r ->
  exists n c',
    Sql.delete_notes note_id {| foreign_keys := true; db := d |} = Ok (n, c')
    ∧ Forall (fun x => NoteTag.note_id x ≠ note_id) (note_tags (db c')).
Proof.
  intros Hr. unfold Sql.delete_notes. eexists _, _. split; [reflexivity|].
  simpl. unfold note_of, Sql.fetchone in Hr. apply head_Some in Hr as [l ->].
  simpl. apply others_owner.
Qed.

(** C1. [delete_note] never touches [note_tags]: the connection [get_conn]
    opens does not enforce foreign keys, so the [ON DELETE CASCADE] declared
    by [init_db] stays inert. Deleting the sample note (id [1], tagged [a]
    and [b]) returns [True] and makes [get_note 1] find nothing, yet both of
    its [(note_id, tag_id)] rows remain. *)
Theorem delete_note_keeps_links :
  (forall note_id d, note_tags (snd (delete_note note_id d)) = note_tags d)
  ∧ note_tags sample_db = [NoteTag.mk 1 1; NoteTag.mk 1 2]
  ∧ exists d',
      delete_note 1 sample_db = (Ok true, d')
      ∧ get_note 1 d' = (Ok None, d')
      ∧ note_tags d' = [NoteTag.mk 1 1; NoteTag.mk 1 2].
Proof.
  split; [done|]. split; [done|].
  eexists. split; [reflexivity|]. split; reflexivity.
Qed.

(** ** [LIKE '%q%'] and substring occurrence *)








(** ** The query of [list_notes], as a filter on [notes] *)

(** The [where] list after the [q] and [category] tests. *)
Definition base_where (q category : option string) : list Sql.where_clause :=
  match supplied q with
  | Some s => [Sql.TitleOrContentLike (Text.contains_pattern s)
                                      (Text.contains_pattern s)]
  | None => []
  end
  ++ match supplied category with
     | Some c => [Sql.CategoryEq c]
     | None => []
     end.

Lemma list_notes_query_eq q tag category :
  list_notes_query q tag category
  = match supplied tag with
    | Some name => ([Sql.JoinNoteTags; Sql.JoinTags],
                    base_where q category ++ [Sql.TagNameEq name])
    | None => ([], base_where q category)
    end.
Proof.
  destruct q as [[|??]|], tag as [[|??]|], category as [[|??]|]; reflexivity.
Qed.

Definition text_matches (q : option string) (r : Note.row) : bool :=
  match supplied q with
  | Some s => Text.like (Text.contains_pattern s) (Note.title r)
              || Text.like (Text.contains_pattern s) (Note.content r)
  | None => true
  end.

Definition category_matches (category : option string) (r : Note.row) : bool :=
  match supplied category with
  | Some c => bool_decide (Note.category r = Some c)
  | None => true
  end.

Definition tag_matches (d : database) (tag : option string) (r : Note.row)
    : bool :=
  match supplied tag with
  | Some name => bool_decide (name ∈ Sql.tag_names_of d (Note.id r))
  | None => true
  end.

(** The conjunction [list_notes] selects by. *)
Definition matches (d : database) (q tag category : option string)
    (r : Note.row) : bool :=
  text_matches q r && category_matches category r && tag_matches d tag r.

Lemma base_where_satisfies q category r :
  forallb (satisfies r) (base_where q category)
  = text_matches q r && category_matches category r.
Proof.
  unfold base_where, text_matches, category_matches.
  destruct (supplied q), (supplied category); simpl;
    rewrite ?andb_true_r; reflexivity.
Qed.

Lemma tagged_where_satisfies q category name r :
  forallb (satisfies r) (base_where q category ++ [Sql.TagNameEq name])
  = text_matches q r && category_matches category r.
Proof. by rewrite forallb_app, base_where_satisfies, andb_true_r. Qed.

Lemma tagged_where_names q category name y :
  forallb (Sql.names y) (base_where q category ++ [Sql.TagNameEq name])
  = bool_decide (Tag.name y = name).
Proof.
  rewrite forallb_app. simpl. rewrite andb_true_r.
  unfold base_where. by destruct (supplied q), (supplied category).
Qed.

Lemma filter_ext_in {A} (P Q : A -> Prop) `{forall x, Decision (P x)}
    `{forall x, Decision (Q x)} (l : list A) :
  (forall x, x ∈ l -> P x <-> Q x) -> filter P l = filter Q l.
Proof.
  induction l as [|x l IH]; intros Hext; [done|].
  rewrite !filter_cons.
  assert (Hx : P x <-> Q x) by (apply Hext; left).
  rewrite IH by (intros y Hy; apply Hext; by right).
  destruct (decide (P x)), (decide (Q x)); tauto.
Qed.

Lemma filter_none {A} (P : A -> Prop) `{forall x, Decision (P x)} (l : list A) :
  (forall x, x ∈ l -> ~ P x) -> filter P l = [].
Proof.
  induction l as [|x l IH]; intros Hno; [done|].
  rewrite filter_cons_False by (apply Hno; left).
  apply IH. intros y Hy. apply Hno. by right.
Qed.

Lemma bind_if_filter {A} (P : A -> Prop) `{forall x, Decision (P x)} (l : list A) :
  l ≫= (fun x => if decide (P x) then [x] else []) = filter P l.
Proof.
  induction l as [|x l IH]; [done|].
  rewrite bind_cons, filter_cons, IH. by case_decide.
Qed.

(** Without a tag filter the statement reads [notes] alone. *)
Lemma produced_unjoined d q category :
  produced d [] (base_where q category)
  = filter (fun r => text_matches q r && category_matches category r = true)
           (notes d).
Proof.
  unfold produced. apply filter_ext_in. intros r _.
  by rewrite base_where_satisfies.
Qed.

Lemma same_name_same_tag d y1 y2 :
  wf d -> y1 ∈ tags d -> y2 ∈ tags d -> Tag.name y1 = Tag.name y2 -> y1 = y2.
Proof.
  intros Hwf H1 H2 E.
  pose proof (filter_key_unique Tag.name _ _ (wf_tag_names _ Hwf) H1) as F1.
  pose proof (filter_key_unique Tag.name _ _ (wf_tag_names _ Hwf) H2) as F2.
  rewrite E in F1. congruence.
Qed.

(** The primary key of [note_tags]: the lookup of a pair finds one row at
    most. *)
Lemma link_found_once (l : list NoteTag.row) (a b : Z) (r : Note.row) :
  NoDup l ->
  (x ← l;
   if decide (NoteTag.note_id x = a ∧ NoteTag.tag_id x = b) then [r] else [])
  = if bool_decide (NoteTag.mk a b ∈ l) then [r] else [].
Proof.
  induction l as [|x l IH]; intros Hnd; [done|].
  apply NoDup_cons in Hnd as [Hx Hnd]. rewrite bind_cons, IH by done.
  destruct (decide (NoteTag.note_id x = a ∧ NoteTag.tag_id x = b))
    as [[Ha Hb]|Hk].
  - assert (x = NoteTag.mk a b) as -> by (destruct x; simpl in Ha, Hb; by subst).
    rewrite (bool_decide_eq_false_2 (_ ∈ l)) by done.
    by rewrite bool_decide_eq_true_2 by left.
  - assert (x ≠ NoteTag.mk a b) by (intros ->; by apply Hk).
    simpl. apply (f_equal (fun b : bool => if b then [r] else [])).
    apply bool_decide_ext. rewrite elem_of_cons.
    split; [by right|intros [?|?]; [congruence|done]].
Qed.

(** Under the schema constraints the tag join yields a note once when a tag
    of the name asked for is linked to it, and not at all otherwise. *)
Lemma produced_joined d q category name :
  wf d ->
  produced d [Sql.JoinNoteTags; Sql.JoinTags]
    (base_where q category ++ [Sql.TagNameEq name])
  = filter (fun r => text_matches q r && category_matches category r
                     && bool_decide (name ∈ Sql.tag_names_of d (Note.id r))
                     = true) (notes d).
Proof.
  intros Hwf. unfold produced, Sql.named_tags.
  rewrite (filter_ext_in _ (fun y => Tag.name y = name))
    by (intros y _; by rewrite tagged_where_names, bool_decide_eq_true).
  rewrite (filter_ext_in _
             (fun r => text_matches q r && category_matches category r = true)
             (notes d))
    by (intros r _; by rewrite tagged_where_satisfies).
  assert (Hsplit : forall (P Q : Note.row -> bool) (l : list Note.row),
    filter (fun r => P r && Q r = true) l
    = filter (fun r => Q r = true) (filter (fun r => P r = true) l)).
  { intros P Q l. rewrite list_filter_filter. apply filter_ext_in.
    intros r _. rewrite andb_true_iff. tauto. }
  rewrite (Hsplit (fun r => text_matches q r && category_matches category r)
             (fun r => bool_decide (name ∈ Sql.tag_names_of d (Note.id r)))).
  set (passing := filter (fun r => text_matches q r
                                   && category_matches category r = true)
                         (notes d)).
  destruct (decide (name ∈ Tag.name <$> tags d)) as [Hin|Hout].
  - apply list_elem_of_fmap in Hin as (y & -> & Hy).
    rewrite (filter_key_unique Tag.name _ _ (wf_tag_names _ Hwf) Hy).
    cbn [mbind list_bind app]. rewrite app_nil_r.
    rewrite <- (bind_if_filter
                  (fun r => bool_decide (Tag.name y ∈ Sql.tag_names_of d (Note.id r))
                            = true)).
    apply list_bind_ext; [|done]. intros r.
    rewrite link_found_once by apply Hwf.
    assert (Hiff : NoteTag.mk (Note.id r) (Tag.id y) ∈ note_tags d
                   <-> Tag.name y ∈ Sql.tag_names_of d (Note.id r)).
    { rewrite tag_names_of_elem, elem_of_linked_names. split.
      - intros Hl. by exists y.
      - intros (y' & Hy' & Hn & Hl).
        by rewrite <- (same_name_same_tag d y' y Hwf Hy' Hy Hn). }
    destruct (decide (NoteTag.mk (Note.id r) (Tag.id y) ∈ note_tags d)) as [Hl|Hl].
    + rewrite bool_decide_eq_true_2 by done.
      rewrite decide_True; [done|]. apply bool_decide_eq_true. by apply Hiff.
    + rewrite bool_decide_eq_false_2 by done.
      rewrite decide_False; [done|]. rewrite bool_decide_eq_true. by rewrite <- Hiff.
  - rewrite (filter_none (fun y => Tag.name y = name)).
    + simpl. symmetry. apply filter_none. intros r _.
      rewrite bool_decide_eq_true, tag_names_of_elem, elem_of_linked_names.
      intros (y & Hy & Hn & _). apply Hout. rewrite <- Hn.
      by apply list_elem_of_fmap_2.
    + intros y Hy Hn. apply Hout. rewrite <- Hn. by apply list_elem_of_fmap_2.
Qed.

(** With a text filter within the limit, [list_notes] returns, in listing
    order and each with its tags, exactly the notes [matches] selects; notes
    whose keys are equal come in the order of their row ids. *)
Lemma list_notes_matches q tag category d :
  wf d -> searchable q ->
  list_notes q tag category d
  = (Ok (with_tags d <$>
           Sql.sort_rows
             (filter (fun r => matches d q tag category r = true) (notes d))),
     d).
Proof.
  intros Hwf Hq. rewrite list_notes_returns by done.
  rewrite list_notes_query_eq.
  unfold matches, tag_matches.
  destruct (supplied tag) as [name|]; cbn [fst snd].
  - by rewrite produced_joined.
  - rewrite produced_unjoined.
    rewrite (filter_ext_in _
               (fun r => text_matches q r && category_matches category r
                         && true = true)); [done|].
    intros r _. by rewrite andb_true_r.
Qed.











(** * Further properties of the repository *)

(** ** More on the tag normaliser *)

(** The rows a run of [get_or_create_tag_ids] appends: one per cleaned name
    that had no row, none of them reusing an id. *)
Lemma get_or_create_from_new tag_names : forall ids0 c,
  exists ids c' new,
    get_or_create_tag_ids_from ids0 tag_names c = Ok (ids0 ++ ids, c')
    ∧ tags (db c') = tags (db c) ++ new
    ∧ NoDup (Tag.name <$> new)
    ∧ (forall name, name ∈ Tag.name <$> new
         <-> name ∈ cleaned tag_names ∧ name ∉ Tag.name <$> tags (db c))
    ∧ (forall t, t ∈ new -> Tag.id t ∉ Tag.id <$> tags (db c)).
Proof.
  induction tag_names as [|name rest IH]; intros ids0 c.
  - exists [], c, []. rewrite !app_nil_r. split_and!; try done.
    + constructor.
    + intros name. split; [by intros ?%elem_of_nil|].
      by intros [?%elem_of_nil _].
    + by intros t ?%elem_of_nil.
  - rewrite cleaned_cons. simpl.
    destruct (Text.nonempty (Text.strip name)) eqn:Hne; simpl; [|apply IH].
    set (s := Text.strip name).
    unfold bind at 1. unfold Sql.select_tag_id, query.
    fold (tag_id_of (db c) s).
    destruct (tag_id_of (db c) s) as [i|] eqn:Hlook.
    + destruct (IH (ids0 ++ [i]) c) as (ids & c' & new & Hrun & Ht & Hnd & Hin & Hid).
      exists (i :: ids), c', new. rewrite Hrun, <- app_assoc.
      split_and!; try done.
      intros n. rewrite Hin, elem_of_cons.
      assert (Hs : s ∈ Tag.name <$> tags (db c)).
      { apply tag_id_of_Some_elem in Hlook.
        by apply (list_elem_of_fmap_2 Tag.name) in Hlook. }
      split; [intros [? ?]; auto|].
      intros [[->|?] Hnot]; [done|auto].
    + destruct (insert_tag_spec c s Hlook) as (i & c1 & Hins & Hg1 & Hl1).
      assert (Ht1 : tags (db c1) = tags (db c) ++ [Tag.mk i s]).
      { unfold Sql.insert_tag in Hins.
        rewrite bool_decide_eq_false_2 in Hins by (by apply tag_id_of_None).
        injection Hins as <- <-. done. }
      assert (Hfresh : i ∉ Tag.id <$> tags (db c)).
      { unfold Sql.insert_tag in Hins.
        rewrite bool_decide_eq_false_2 in Hins by (by apply tag_id_of_None).
        injection Hins as <- _. apply next_rowid_fresh. }
      unfold bind. rewrite Hins.
      destruct (IH (ids0 ++ [i]) c1)
        as (ids & c' & new & Hrun & Ht & Hnd & Hin & Hid).
      exists (i :: ids), c', (Tag.mk i s :: new).
      rewrite Hrun, <- app_assoc. split; [done|].
      apply tag_id_of_None in Hlook.
      split; [by rewrite Ht, Ht1, <- app_assoc|]. split; [|split].
      * rewrite fmap_cons. apply NoDup_cons. split; [|done].
        intros [_ Hnot]%Hin. apply Hnot. rewrite Ht1, fmap_app.
        apply elem_of_app. right. left.
      * intros n. rewrite fmap_cons, !elem_of_cons, Hin, Ht1, fmap_app.
        rewrite elem_of_app. simpl. rewrite list_elem_of_singleton.
        destruct (decide (n = s)) as [->|Hns]; [tauto|]. tauto.
      * intros t [->|Ht']%elem_of_cons; [done|].
        intros Hold. apply (Hid t Ht'). rewrite Ht1, fmap_app.
        apply elem_of_app. by left.
Qed.

(** X1. On any connection [get_or_create_tag_ids] only appends to [tags]:
    every row that was there stays, in place, so a name that resolved
    before resolves to the same id after; [notes], [note_tags] and the
    foreign-key setting are untouched; the appended rows carry, once each,
    exactly the cleaned names that had no row, under ids no earlier row
    uses. *)
Theorem get_or_create_tag_ids_only_appends (tag_names : list string)
    (c : connection) :
  exists ids c' new,
    get_or_create_tag_ids tag_names c = Ok (ids, c')
    ∧ tags (db c') = tags (db c) ++ new
    ∧ notes (db c') = notes (db c)
    ∧ notes_seq (db c') = notes_seq (db c)
    ∧ note_tags (db c') = note_tags (db c)
    ∧ foreign_keys c' = foreign_keys c
    ∧ (forall name i,
         tag_id_of (db c) name = Some i -> tag_id_of (db c') name = Some i)
    ∧ NoDup (Tag.name <$> new)
    ∧ (forall name, name ∈ Tag.name <$> new
         <-> name ∈ cleaned tag_names ∧ name ∉ Tag.name <$> tags (db c))
    ∧ (forall t, t ∈ new -> Tag.id t ∉ Tag.id <$> tags (db c)).
Proof.
  destruct (get_or_create_from_new tag_names [] c)
    as (ids & c' & new & Hrun & Ht & Hnd & Hin & Hid).
  destruct (get_or_create_from_spec tag_names [] c)
    as (ids2 & c2 & Hrun2 & Hg & _).
  unfold get_or_create_tag_ids. rewrite Hrun in Hrun2.
  injection Hrun2 as <- <-.
  exists ids, c', new. split; [done|]. split; [done|].
  destruct Hg as [Gfk Gn Gs Gnt _ _]. split_and!; try done.
  intros name i. by apply tag_id_of_app with new.
Qed.

Lemma resolve_known d names :
  Forall (fun n => n ∈ Tag.name <$> tags d) names ->
  exists ids, Forall2 (fun i n => tag_id_of d n = Some i) ids names.
Proof.
  induction 1 as [|n names Hn _ [ids IH]]; [by exists []|].
  destruct (tag_id_of d n) as [i|] eqn:E.
  - exists (i :: ids). by constructor.
  - by apply tag_id_of_None in E.
Qed.

(** X2. When every cleaned name already has a tag row,
    [get_or_create_tag_ids] writes nothing: the connection comes back as it
    was, with the ids of the rows found, one per cleaned name. *)
Theorem get_or_create_tag_ids_known_names (tag_names : list string)
    (c : connection) :
  Forall (fun n => n ∈ Tag.name <$> tags (db c)) (cleaned tag_names) ->
  exists ids,
    get_or_create_tag_ids tag_names c = Ok (ids, c)
    ∧ Forall2 (fun i n => Tag.mk i n ∈ tags (db c)) ids (cleaned tag_names).
Proof.
  intros Hknown. destruct (resolve_known _ _ Hknown) as [ids Hall].
  exists ids. split.
  - by apply (get_or_create_from_resolved tag_names [] ids).
  - eapply Forall2_impl; [exact Hall|]. intros i n. apply tag_id_of_Some_elem.
Qed.

Lemma get_or_create_tag_ids_known_names_witness :
  exists ids,
    get_or_create_tag_ids [" b"%string; ""%string; "a"%string] (connect sample_db)
    = Ok (ids, connect sample_db).
Proof.
  destruct (get_or_create_tag_ids_known_names
              [" b"%string; ""%string; "a"%string] (connect sample_db))
    as (ids & Hrun & _).
  - apply (bool_decide_unpack _). vm_compute. exact I.
  - by exists ids.
Defined.

(** X3. On a connection of [get_conn], [set_note_tags] succeeds for every
    note id and list; it leaves [notes] alone, only appends to [tags], keeps
    every link of every other note and adds none to them; and the note
    itself ends linked to exactly the tags the cleaned names resolve to. *)
Theorem set_note_tags_links (note_id : Z) (tag_names : list string)
    (d : database) :
  exists names c',
    set_note_tags note_id tag_names (connect d) = Ok (names, c')
    ∧ notes (db c') = notes d
    ∧ notes_seq (db c') = notes_seq d
    ∧ (exists new, tags (db c') = tags d ++ new)
    ∧ (forall x, NoteTag.note_id x ≠ note_id ->
         (x ∈ note_tags (db c') <-> x ∈ note_tags d))
    ∧ (forall tid,
         NoteTag.mk note_id tid ∈ note_tags (db c')
         <-> exists name, name ∈ cleaned tag_names
                       ∧ tag_id_of (db c') name = Some tid).
Proof.
  destruct (set_note_tags_spec (connect d) note_id tag_names eq_refl)
    as (ids & c1 & Hg & Hall & Hrun).
  eexists _, _. split; [exact Hrun|].
  destruct Hg as [_ Gn Gs _ Gt _]. simpl in *. split_and!; try done.
  - intros x Hx. split.
    + intros [Hin|[? _]]%add_links_inv; [|done].
      by apply list_elem_of_filter in Hin as [_ ?].
    + intros Hin. apply add_links_keeps. by apply list_elem_of_filter.
  - intros tid. split.
    + intros [Hin|[_ Hin]]%add_links_inv.
      * by apply list_elem_of_filter in Hin as [? _].
      * simpl in Hin. destruct (Forall2_elem_l _ _ _ _ Hall Hin) as (n & ? & ?).
        by exists n.
    + intros (n & Hn & Hl).
      destruct (Forall2_elem_r _ _ _ _ Hall Hn) as (i & Hi & Hl').
      assert (i = tid) by (unfold tag_id_of in *; simpl in *; congruence).
      subst i. by apply add_links_elem.
Qed.

(** ** Every link names a tag that exists *)

Definition links_resolve (d : database) : Prop :=
  Forall (fun x => NoteTag.tag_id x ∈ Tag.id <$> tags d) (note_tags d).

#[global] Instance links_resolve_dec d : Decision (links_resolve d).
Proof. unfold links_resolve. apply _. Defined.

Lemma links_resolve_replaced d d' note_id ids names new :
  links_resolve d ->
  tags d' = tags d ++ new ->
  note_tags d' = add_links note_id ids (others note_id (note_tags d)) ->
  Forall2 (fun i name => tag_id_of d' name = Some i) ids names ->
  links_resolve d'.
Proof.
  unfold links_resolve. intros Hres Ht Hl Hall. rewrite Hl.
  apply Forall_forall. intros x [Hx|[_ Hx]]%add_links_inv.
  - apply list_elem_of_filter in Hx as [_ Hx]. rewrite Forall_forall in Hres.
    rewrite Ht, fmap_app. apply elem_of_app. left. auto.
  - destruct (Forall2_elem_l _ _ _ _ Hall Hx) as (n & _ & Hn).
    apply tag_id_of_Some_elem in Hn.
    by apply (list_elem_of_fmap_2 Tag.id) in Hn.
Qed.

Lemma links_resolve_grow d d' new :
  links_resolve d -> tags d' = tags d ++ new -> note_tags d' = note_tags d ->
  links_resolve d'.
Proof.
  unfold links_resolve. intros Hres -> ->. eapply Forall_impl; [exact Hres|].
  intros x Hx. simpl in *. rewrite fmap_app. apply elem_of_app. by left.
Qed.

Lemma links_resolve_create now data d :
  links_resolve d -> links_resolve (snd (create_note now data d)).
Proof.
  intros Hres.
  destruct (create_note_spec now data d)
    as (names & d' & -> & _ & _ & [new Ht] & _ & Htags). simpl.
  destruct (default [] (c_tags data)).
  - destruct Htags as (_ & _ & Hl). by apply (links_resolve_grow d d' new).
  - destruct Htags as (ids & Hall & Hl & _).
    by apply (links_resolve_replaced d d' _ ids _ new Hres Ht Hl Hall).
Qed.

Lemma links_resolve_update now note_id data d :
  links_resolve d -> links_resolve (snd (update_note now note_id data d)).
Proof.
  intros Hres. destruct (note_of d note_id) as [r|] eqn:E.
  - destruct (update_note_spec now note_id data d r E)
      as (d' & -> & _ & _ & [new Ht] & _ & Htags). simpl.
    destruct (u_tags data).
    + destruct Htags as (ids & Hall & Hl).
      by apply (links_resolve_replaced d d' _ ids _ new Hres Ht Hl Hall).
    + destruct Htags as [_ Hl]. by apply (links_resolve_grow d d' new).
  - by rewrite update_note_missing.
Qed.

(** One sample after the other: what [seed_samples] leaves behind. *)
Lemma seed_samples_full clock ss : forall i c,
  foreign_keys c = false ->
  exists c' added new,
    seed_samples clock i ss c = Ok (tt, c')
    ∧ foreign_keys c' = false
    ∧ notes (db c') = notes (db c) ++ added
    ∧ length added = length ss
    ∧ tags (db c') = tags (db c) ++ new
    ∧ (links_resolve (db c) -> links_resolve (db c'))
    ∧ notes_seq (db c) ≤ notes_seq (db c').
Proof.
  induction ss as [|[[[title content] category] tag_names] rest IH];
    intros i c Hfk.
  - exists c, [], []. by rewrite !app_nil_r.
  - cbn [seed_samples]. unfold bind at 1. rewrite insert_note_run. cbv zeta.
    set (nid := Sql.next_rowid _ _).
    set (row := Note.mk nid title content (Some category) (clock i) (clock i)).
    set (c1 := with_notes c _ _).
    destruct (set_note_tags_spec c1 nid tag_names Hfk)
      as (ids & c2 & Hg & Hall & Hrun).
    unfold bind at 1. rewrite Hrun.
    set (c3 := with_note_tags c2 _).
    assert (Hfk3 : foreign_keys c3 = false)
      by (simpl; by rewrite (grows_fk _ _ Hg)).
    destruct (IH (S i) c3 Hfk3)
      as (c' & added & new & Hrest & Hfk' & Hn & Hlen & Ht & Hres & Hseq).
    destruct (grows_tags _ _ Hg) as [new1 Ht1]. simpl in Ht1.
    exists c', (row :: added), (new1 ++ new). split; [done|]. split; [done|].
    split_and!.
    + rewrite Hn. simpl. rewrite (grows_notes _ _ Hg). simpl.
      by rewrite <- app_assoc.
    + simpl. by rewrite Hlen.
    + rewrite Ht. simpl. by rewrite Ht1, app_assoc.
    + intros Hc. apply Hres.
      apply (links_resolve_replaced (db c) (db c3) nid ids
               (cleaned tag_names) new1); try done.
    + simpl in Hseq. rewrite (grows_notes_seq _ _ Hg) in Hseq. simpl in Hseq.
      pose proof (next_rowid_gt_seq (notes_seq (db c))
                    (Note.id <$> notes (db c))) as Hgt.
      fold nid in Hgt. lia.
Qed.

Lemma links_resolve_seed clock d :
  links_resolve d -> links_resolve (snd (seed_data clock d)).
Proof.
  intros Hres. unfold seed_data, get_conn. unfold bind at 1.
  unfold Sql.count_notes, query. change (db (connect d)) with d.
  destruct (bool_decide (0 < length (notes d))%nat); [done|].
  destruct (seed_samples_full clock samples 0%nat (connect d) eq_refl)
    as (c' & added & new & -> & _ & _ & _ & _ & H & _). by apply H.
Qed.

Lemma reachable_links_resolve d : reachable d -> links_resolve d.
Proof.
  induction 1; auto using links_resolve_create, links_resolve_update,
    links_resolve_seed.
  constructor.
Qed.

(** X4. In every reachable state the primary keys of the three tables hold
    (note ids, tag ids and [(note_id, tag_id)] pairs are each distinct), no
    note id and no linked [note_id] exceeds the [AUTOINCREMENT] counter of
    [notes], and every link's [tag_id] is the id of an existing tag row:
    links to tags never dangle, although links from deleted notes remain. *)
Theorem reachable_keys_and_links (d : database) :
  reachable d ->
  NoDup (Note.id <$> notes d)
  ∧ NoDup (Tag.id <$> tags d)
  ∧ NoDup (note_tags d)
  ∧ Forall (fun r => Note.id r ≤ notes_seq d) (notes d)
  ∧ Forall (fun x => NoteTag.note_id x ≤ notes_seq d) (note_tags d)
  ∧ Forall (fun x => NoteTag.tag_id x ∈ Tag.id <$> tags d) (note_tags d).
Proof.
  intros Hr. pose proof (reachable_wf d Hr) as [].
  pose proof (reachable_links_resolve d Hr). by split_and!.
Qed.

Lemma reachable_keys_and_links_witness :
  NoDup (Note.id <$> notes sample_db)
  ∧ Forall (fun x => NoteTag.tag_id x ∈ Tag.id <$> tags sample_db)
           (note_tags sample_db).
Proof.
  destruct (reachable_keys_and_links sample_db) as (H1 & _ & _ & _ & _ & H6).
  - apply reach_create, reach_init.
  - by split.
Defined.

(** ** What a write leaves of the other notes *)

(** Replacing the links of one note does not change the tag list any other
    note reads, even when new tag rows are appended. *)
Lemma tag_names_of_other d d' note_id ids new other :
  wf d -> wf d' -> links_resolve d ->
  tags d' = tags d ++ new ->
  note_tags d' = add_links note_id ids (others note_id (note_tags d)) ->
  other ≠ note_id ->
  Sql.tag_names_of d' other = Sql.tag_names_of d other.
Proof.
  intros Hwf Hwf' Hres Ht Hl Hne.
  apply strictly_sorted_ext; try by apply tag_names_of_strictly_sorted.
  intros name. rewrite !tag_names_of_elem, !elem_of_linked_names.
  assert (Hlink : forall tid, NoteTag.mk other tid ∈ note_tags d'
                              <-> NoteTag.mk other tid ∈ note_tags d).
  { intros tid. rewrite Hl. split.
    - intros [Hin|[? _]]%add_links_inv; [|done].
      by apply list_elem_of_filter in Hin as [_ ?].
    - intros Hin. apply add_links_keeps. by apply list_elem_of_filter. }
  split.
  - intros (t & Hin & <- & Hx). apply Hlink in Hx. exists t.
    split; [|done]. rewrite Ht in Hin. apply elem_of_app in Hin as [?|Hnew]; [done|].
    exfalso. pose proof (wf_tag_ids _ Hwf') as Hnd.
    rewrite Ht, fmap_app in Hnd. apply NoDup_app in Hnd as (_ & Hdisj & _).
    unfold links_resolve in Hres. rewrite Forall_forall in Hres.
    apply (Hdisj (Tag.id t)); [apply (Hres _ Hx)|].
    by apply list_elem_of_fmap_2.
  - intros (t & Hin & <- & Hx). exists t. split; [|split; [done|by apply Hlink]].
    rewrite Ht. apply elem_of_app. by left.
Qed.

Lemma note_of_snoc_other d d' row other :
  notes d' = notes d ++ [row] -> Note.id row ≠ other ->
  note_of d' other = note_of d other.
Proof.
  intros E Hne. unfold note_of.
  by rewrite E, filter_app, filter_cons_False, filter_nil, app_nil_r.
Qed.

Lemma update_rows_filter_other now note_id data rows other :
  other ≠ note_id ->
  filter (fun r => Note.id r = other) (update_rows now note_id data rows)
  = filter (fun r => Note.id r = other) rows.
Proof.
  intros Hne. unfold update_rows. induction rows as [|r rows IH]; [done|].
  rewrite fmap_cons, !filter_cons, IH.
  destruct (decide (Note.id r = note_id)) as [E|E]; [|done].
  rewrite updated_row_id.
  rewrite !decide_False by congruence. done.
Qed.

Lemma with_tags_same d d' r :
  Sql.tag_names_of d' (Note.id r) = Sql.tag_names_of d (Note.id r) ->
  with_tags d' r = with_tags d r.
Proof. unfold with_tags. by intros ->. Qed.

(** X5. In every reachable state, creating a note (with or without tags)
    changes what [get_note] returns for no other id: every other note reads
    back with the same columns and the same tags, and an id that found
    nothing still finds nothing. *)
Theorem create_note_keeps_other_notes (now : Z) (data : create_data)
    (d : database) (other : Z) :
  reachable d ->
  other ≠ Note.id (new_note now data d) ->
  fst (get_note other (snd (create_note now data d))) = fst (get_note other d).
Proof.
  intros Hr Hne. pose proof (reachable_wf d Hr) as Hwf.
  pose proof (reachable_links_resolve d Hr) as Hres.
  destruct (create_note_spec now data d)
    as (names & d' & -> & Hn & _ & [new Ht] & Hwf' & Htags). simpl.
  rewrite !get_note_spec. simpl. f_equal.
  rewrite (note_of_snoc_other d d' _ other Hn) by done.
  destruct (note_of d other) as [r|] eqn:E; [|done]. simpl. f_equal.
  apply with_tags_same. rewrite (note_of_id _ _ _ E).
  destruct (default [] (c_tags data)).
  - destruct Htags as (_ & Ht' & Hl). by apply tag_names_of_same.
  - destruct Htags as (ids & _ & Hl & _).
    by apply (tag_names_of_other d d' _ ids new other Hwf (Hwf' Hwf) Hres Ht Hl).
Qed.

Lemma create_note_keeps_other_notes_witness :
  fst (get_note 1 (snd (create_note 7 sample_data sample_db)))
  = fst (get_note 1 sample_db).
Proof.
  apply (create_note_keeps_other_notes 7 sample_data sample_db 1).
  - apply reach_create, reach_init.
  - vm_compute. discriminate.
Defined.

(** X6. In every reachable state, updating a note (columns, tags or both)
    changes what [get_note] returns for no other id, and neither adds nor
    removes a note. *)
Theorem update_note_keeps_other_notes (now note_id : Z) (data : update_data)
    (d : database) (other : Z) :
  reachable d ->
  other ≠ note_id ->
  fst (get_note other (snd (update_note now note_id data d)))
  = fst (get_note other d)
  ∧ Note.id <$> notes (snd (update_note now note_id data d))
    = Note.id <$> notes d.
Proof.
  intros Hr Hne. pose proof (reachable_wf d Hr) as Hwf.
  pose proof (reachable_links_resolve d Hr) as Hres.
  destruct (note_of d note_id) as [r0|] eqn:E0;
    [|by rewrite update_note_missing].
  destruct (update_note_spec now note_id data d r0 E0)
    as (d' & -> & Hn & _ & [new Ht] & Hwf' & Htags). simpl.
  split; [|by rewrite Hn, update_rows_ids].
  rewrite !get_note_spec. simpl. f_equal.
  assert (Hof : note_of d' other = note_of d other).
  { unfold note_of. by rewrite Hn, update_rows_filter_other. }
  rewrite Hof.
  destruct (note_of d other) as [r|] eqn:E; [|done]. simpl. f_equal.
  apply with_tags_same. rewrite (note_of_id _ _ _ E).
  destruct (u_tags data).
  - destruct Htags as (ids & _ & Hl).
    by apply (tag_names_of_other d d' _ ids new other Hwf (Hwf' Hwf) Hres Ht Hl).
  - destruct Htags as (Ht' & Hl). by apply tag_names_of_same.
Qed.

Lemma update_note_keeps_other_notes_witness :
  fst (get_note 5 (snd (update_note 9 1
         {| u_title := Some "n"%string; u_content := None; u_category := None;
            u_tags := Some ["q"%string] |} sample_db)))
  = fst (get_note 5 sample_db).
Proof.
  apply (update_note_keeps_other_notes 9 1 _ sample_db 5).
  - apply reach_create, reach_init.
  - discriminate.
Defined.

(** ** Creating *)

(** On a well-formed database the note [create_note] returns is the stored
    row with the tags its links read back: the cleaned names, sorted. *)
Lemma create_note_stored now data d :
  wf d ->
  exists d',
    create_note now data d = (Ok (with_tags d' (new_note now data d)), d')
    ∧ notes d' = notes d ++ [new_note now data d]
    ∧ Sql.tag_names_of d' (Note.id (new_note now data d))
      = Text.sorted_set (cleaned (default [] (c_tags data))).
Proof.
  intros Hwf.
  destruct (create_note_spec now data d)
    as (names & d' & Hrun & Hnotes & Hseq & _ & Hwf' & Htags).
  assert (Hnames : names = Text.sorted_set (cleaned (default [] (c_tags data)))
                   ∧ Sql.tag_names_of d' (Note.id (new_note now data d)) = names).
  { destruct (default [] (c_tags data)) as [|n0 rest].
    - destruct Htags as (-> & _ & Hl). split; [done|].
      rewrite tag_names_of_sorted_linked, linked_names_nil; [done|].
      rewrite Hl. eapply Forall_impl; [apply (wf_note_tags_seq _ Hwf)|].
      simpl. intros x Hx.
      pose proof (next_rowid_gt_seq (notes_seq d) (Note.id <$> notes d)). lia.
    - destruct Htags as (ids & Hall & Hl & ->).
      destruct (replaced_tag_names d' _ ids (note_tags d) _ (Hwf' Hwf) Hl Hall)
        as [Hstored ->]. done. }
  destruct Hnames as [-> Hstored].
  exists d'. unfold with_tags. rewrite Hstored. by split_and!.
Qed.

(** X7. In every reachable state and for every input, tags included,
    [create_note] succeeds; the note it returns has the given title, content
    and category, both timestamps at the clock reading, and as [tags] the
    cleaned names (trimmed, blanks dropped) sorted and deduplicated; and
    [get_note] on its id returns that very note. *)
Theorem create_get_round_trip (now : Z) (data : create_data) (d : database) :
  reachable d ->
  exists note d',
    create_note now data d = (Ok note, d')
    ∧ get_note (NoteDict.id note) d' = (Ok (Some note), d')
    ∧ note = NoteDict.mk (Note.id (new_note now data d))
               (c_title data) (c_content data) (c_category data) now now
               (Some (Text.sorted_set (cleaned (default [] (c_tags data))))).
Proof.
  intros Hwf%reachable_wf.
  destruct (create_note_stored now data d Hwf) as (d' & Hrun & Hnotes & Hstored).
  eexists _, d'. split; [exact Hrun|]. split.
  - rewrite get_note_spec. simpl.
    change (Sql.next_rowid _ _) with (Note.id (new_note now data d)).
    by rewrite (note_of_new now data d d' Hnotes).
  - unfold with_tags. by rewrite Hstored.
Qed.

Lemma create_get_round_trip_witness :
  exists note d',
    create_note 7 sample_data sample_db = (Ok note, d')
    ∧ get_note (NoteDict.id note) d' = (Ok (Some note), d')
    ∧ NoteDict.tags note = Some ["a"%string; "b"%string].
Proof.
  destruct (create_get_round_trip 7 sample_data sample_db)
    as (note & d' & Hrun & Hget & ->).
  - apply reach_create, reach_init.
  - eexists _, d'. split; [exact Hrun|]. split; [exact Hget|]. reflexivity.
Defined.

(** One writing operation, and any number of them. *)
Inductive step : database -> database -> Prop :=
  | step_create now data d : step d (snd (create_note now data d))
  | step_update now note_id data d : step d (snd (update_note now note_id data d))
  | step_delete note_id d : step d (snd (delete_note note_id d))
  | step_seed clock d : step d (snd (seed_data clock d)).

Inductive reaches : database -> database -> Prop :=
  | reaches_here d : reaches d d
  | reaches_step d1 d2 d3 : reaches d1 d2 -> step d2 d3 -> reaches d1 d3.

Lemma step_reachable d d' : reachable d -> step d d' -> reachable d'.
Proof. intros Hr Hs. revert Hr. destruct Hs; intros Hr; by constructor. Qed.

Lemma reaches_reachable d d' : reachable d -> reaches d d' -> reachable d'.
Proof. intros Hr. induction 1; eauto using step_reachable. Qed.

Lemma seed_data_spec clock d :
  exists d' added new,
    seed_data clock d = (Ok tt, d')
    ∧ notes d' = notes d ++ added
    ∧ length added = (if bool_decide (0 < length (notes d))%nat
                      then 0%nat else 3%nat)
    ∧ tags d' = tags d ++ new
    ∧ notes_seq d ≤ notes_seq d'.
Proof.
  unfold seed_data, get_conn. unfold bind at 1.
  unfold Sql.count_notes, query. change (db (connect d)) with d.
  destruct (bool_decide (0 < length (notes d))%nat).
  - exists d, [], []. by rewrite !app_nil_r.
  - destruct (seed_samples_full clock samples 0%nat (connect d) eq_refl)
      as (c' & added & new & -> & _ & Hn & Hlen & Ht & _ & Hseq).
    by exists (db c'), added, new.
Qed.

(** The counter of [notes] never goes down, and tag rows are never lost. *)
Lemma step_monotone d d' :
  step d d' -> notes_seq d ≤ notes_seq d' ∧ exists new, tags d' = tags d ++ new.
Proof.
  intros [now data d0|now note_id data d0|note_id d0|clock d0].
  - destruct (create_note_spec now data d0)
      as (names & d1 & -> & _ & Hseq & Ht & _). simpl. split; [|done].
    rewrite Hseq.
    pose proof (next_rowid_gt_seq (notes_seq d0) (Note.id <$> notes d0)).
    simpl. lia.
  - destruct (note_of d0 note_id) as [r|] eqn:E.
    + destruct (update_note_spec now note_id data d0 r E)
        as (d1 & -> & _ & Hseq & Ht & _). simpl. split; [lia|done].
    + rewrite update_note_missing by done. simpl. split; [lia|].
      exists []. by rewrite app_nil_r.
  - rewrite delete_note_spec. simpl. split; [lia|].
    exists []. by rewrite app_nil_r.
  - destruct (seed_data_spec clock d0) as (d1 & added & new & -> & _ & _ & Ht & Hseq).
    simpl. split; [done|by exists new].
Qed.

Lemma reaches_monotone d d' :
  reaches d d' -> notes_seq d ≤ notes_seq d' ∧ exists new, tags d' = tags d ++ new.
Proof.
  induction 1 as [d|d1 d2 d3 _ [IHs [n1 IHt]] Hstep].
  - split; [lia|]. exists []. by rewrite app_nil_r.
  - destruct (step_monotone _ _ Hstep) as [Hs [n2 Ht]]. split; [lia|].
    exists (n1 ++ n2). by rewrite Ht, IHt, app_assoc.
Qed.

(** X8. Note ids are never issued twice: in every reachable state the id
    [create_note] assigns is above the [notes] counter, hence above the id
    of every stored note and of every link; and once a note is deleted, no
    [create_note] after any further sequence of creates, updates, deletes
    and seedings returns its id again. *)
Theorem note_ids_never_reused (d : database) :
  reachable d ->
  (forall now data,
     notes_seq d < Note.id (new_note now data d)
     ∧ Forall (fun r => Note.id r < Note.id (new_note now data d)) (notes d)
     ∧ Forall (fun x => NoteTag.note_id x < Note.id (new_note now data d))
              (note_tags d))
  ∧ (forall note_id r d2 now data,
       note_of d note_id = Some r ->
       reaches (snd (delete_note note_id d)) d2 ->
       exists note d3,
         create_note now data d2 = (Ok note, d3)
         ∧ note_id < NoteDict.id note).
Proof.
  intros Hr. pose proof (reachable_wf d Hr) as Hwf. split.
  - intros now data.
    pose proof (next_rowid_gt_seq (notes_seq d) (Note.id <$> notes d)) as Hgt.
    split; [exact Hgt|]. split.
    + eapply Forall_impl; [apply (wf_note_seq _ Hwf)|]. simpl. intros. lia.
    + eapply Forall_impl; [apply (wf_note_tags_seq _ Hwf)|]. simpl. intros. lia.
  - intros note_id r d2 now data Hnote Hreach.
    destruct (reaches_monotone _ _ Hreach) as [Hseq _].
    rewrite delete_note_spec in Hseq. simpl in Hseq.
    destruct (create_note_spec now data d2) as (names & d3 & Hrun & _).
    eexists _, d3. split; [exact Hrun|]. simpl.
    pose proof (next_rowid_gt_seq (notes_seq d2) (Note.id <$> notes d2)).
    pose proof (wf_note_seq _ Hwf) as Hall. rewrite Forall_forall in Hall.
    pose proof (Hall r (note_of_elem _ _ _ Hnote)) as Hle.
    rewrite (note_of_id _ _ _ Hnote) in Hle. lia.
Qed.

Lemma note_ids_never_reused_witness :
  exists note d3,
    create_note 9 sample_data (snd (delete_note 1 sample_db)) = (Ok note, d3)
    ∧ 1 < NoteDict.id note.
Proof.
  destruct (note_ids_never_reused sample_db) as [_ H].
  - apply reach_create, reach_init.
  - apply (H 1 (Note.mk 1 "abc" "x" (Some "work"%string) 100 100)
             (snd (delete_note 1 sample_db)) 9 sample_data eq_refl).
    apply reaches_here.
Defined.

(** ** No operation raises *)

Definition succeeds {A} (r : result A) : Prop := exists a, r = Ok a.

(** A text whose [LIKE] pattern is one byte over the limit. *)
Definition long_text : string :=
  string_of_list_ascii (replicate (N.to_nat 49999) "x"%char).

Lemma long_text_not_searchable : ~ searchable (Some long_text).
Proof. vm_compute. by intros H. Qed.

(** The pattern made from 49998 one-byte characters is the longest the
    engine accepts. *)
Example like_pattern_limit :
  Sql.like (Text.contains_pattern long_text) "x"
  = Raise (OperationalError "LIKE or GLOB pattern too complex")
  ∧ Sql.like (Text.contains_pattern
                (string_of_list_ascii (replicate (N.to_nat 49998) "x"%char))) "y"
    = Ok false.
Proof. split; by vm_compute. Qed.

(** X9. On any database, well-formed or not, no repository operation ends
    in an exception as long as the ids it is given are integers the engine
    can bind and the [LIKE] pattern made from [q] is within the engine's
    limit: a tag is inserted only after its lookup found nothing, so
    [UNIQUE] on [tags.name] is never hit, and the row read back after an
    insert or update is always there. The three reading operations moreover
    leave the database as it was. A pattern over the limit, on the other
    hand, makes [list_notes] without a tag filter raise as soon as one note
    is stored, whatever the other filter. *)
Theorem no_operation_raises (d : database) :
  (forall now data, succeeds (fst (create_note now data d)))
  ∧ (forall now note_id data,
       Sql.integer note_id -> succeeds (fst (update_note now note_id data d)))
  ∧ (forall note_id,
       Sql.integer note_id -> succeeds (fst (delete_note note_id d)))
  ∧ (forall clock, succeeds (fst (seed_data clock d)))
  ∧ (forall note_id,
       Sql.integer note_id ->
       succeeds (fst (get_note note_id d)) ∧ snd (get_note note_id d) = d)
  ∧ (forall q tag category,
       searchable q ->
       succeeds (fst (list_notes q tag category d))
       ∧ snd (list_notes q tag category d) = d)
  ∧ succeeds (fst (list_all_tags d)) ∧ snd (list_all_tags d) = d
  ∧ (forall q category,
       ~ searchable q -> notes d ≠ [] ->
       list_notes q None category d
       = (Raise (OperationalError "LIKE or GLOB pattern too complex"), d)).
Proof.
  split_and!.
  - intros now data. destruct (create_note_spec now data d) as (? & ? & -> & _).
    by eexists.
  - intros now note_id data _. destruct (note_of d note_id) as [r|] eqn:E.
    + destruct (update_note_spec now note_id data d r E) as (? & -> & _).
      by eexists.
    + rewrite update_note_missing by done. by eexists.
  - intros note_id _. rewrite delete_note_spec. by eexists.
  - intros clock. destruct (seed_data_spec clock d) as (? & ? & ? & -> & _).
    by eexists.
  - intros note_id _. rewrite get_note_spec. split; [by eexists|done].
  - intros q tag category Hq. rewrite list_notes_returns by done.
    split; [by eexists|done].
  - by eexists.
  - done.
  - intros q category Hq Hnotes. rewrite list_notes_spec, list_notes_query_eq.
    cbn [supplied Text.truthy fst snd]. unfold Sql.select_notes_where.
    destruct (notes d) as [|r l]; [done|].
    unfold searchable, base_where in *.
    destruct (supplied q) as [s|]; [|done].
    erewrite loop_raises; [done|]. cbn [app Sql.all_hold Sql.holds].
    unfold Sql.like. by rewrite bool_decide_eq_false_2.
Qed.

Lemma no_operation_raises_witness :
  succeeds (fst (get_note 5 listing_db))
  ∧ succeeds (fst (list_notes (Some "i"%string) (Some "a"%string) None listing_db))
  ∧ list_notes (Some long_text) None (Some "work"%string) listing_db
    = (Raise (OperationalError "LIKE or GLOB pattern too complex"), listing_db).
Proof.
  destruct (no_operation_raises listing_db)
    as (_ & _ & _ & _ & Hget & Hlist & _ & _ & Hlong).
  split; [apply Hget; unfold Sql.integer; lia|].
  split; [apply Hlist; vm_compute; discriminate|].
  apply Hlong; [apply long_text_not_searchable|discriminate].
Defined.

(** ** Tags are never deleted *)

Lemma list_all_tags_spec d :
  list_all_tags d = (Ok (merge_sort String.le (Tag.name <$> tags d)), d).
Proof. done. Qed.

(** X10. No sequence of creates, updates, deletes and seedings removes or
    renumbers a tag: the [tags] table after is the table before with rows
    appended, a name that resolved to an id still resolves to it, and every
    name [list_all_tags] returned is still returned, even when no note
    carries it any more. *)
Theorem tags_are_never_deleted (d d' : database) :
  reaches d d' ->
  (exists new, tags d' = tags d ++ new)
  ∧ (forall name i, tag_id_of d name = Some i -> tag_id_of d' name = Some i)
  ∧ (forall names names',
       fst (list_all_tags d) = Ok names ->
       fst (list_all_tags d') = Ok names' ->
       forall name, name ∈ names -> name ∈ names').
Proof.
  intros [_ [new Ht]]%reaches_monotone. split; [by exists new|]. split.
  - intros name i. by apply tag_id_of_app with new.
  - intros names names'. rewrite !list_all_tags_spec. simpl.
    intros [= <-] [= <-] name. rewrite !merge_sort_Permutation, Ht, fmap_app.
    intros ?. apply elem_of_app. by left.
Qed.

Lemma tags_are_never_deleted_witness :
  exists new, tags (snd (delete_note 1 sample_db)) = tags sample_db ++ new.
Proof.
  apply (tags_are_never_deleted sample_db (snd (delete_note 1 sample_db))).
  eapply reaches_step; [apply reaches_here|apply step_delete].
Defined.

(** X11. [list_all_tags] returns the names of all tag rows, whether or not
    a note carries them, in increasing code-point order, and changes
    nothing; in a reachable state no name is returned twice. *)
Theorem list_all_tags_sorted (d : database) :
  exists names,
    list_all_tags d = (Ok names, d)
    ∧ Sorted String.le names
    ∧ (forall name, name ∈ names <-> exists t, t ∈ tags d ∧ Tag.name t = name)
    ∧ length names = length (tags d)
    ∧ (reachable d -> NoDup names).
Proof.
  rewrite list_all_tags_spec. eexists. split; [done|]. split_and!.
  - apply Sorted_merge_sort, _.
  - intros name. rewrite merge_sort_Permutation, list_elem_of_fmap.
    split; intros (t & ? & ?); exists t; by split.
  - by rewrite merge_sort_Permutation, length_fmap.
  - intros Hwf%reachable_wf. rewrite merge_sort_Permutation. apply Hwf.
Qed.

(** X12. The tags attached to any note [get_note] returns are among the
    names [list_all_tags] returns. *)
Theorem note_tags_are_listed (note_id : Z) (d : database) (note : NoteDict.t)
    (names : list string) :
  fst (get_note note_id d) = Ok (Some note) ->
  NoteDict.tags note = Some names ->
  exists all_names,
    fst (list_all_tags d) = Ok all_names
    ∧ forall name, name ∈ names -> name ∈ all_names.
Proof.
  rewrite get_note_spec, list_all_tags_spec. simpl. intros Hget Htags.
  eexists. split; [done|]. intros name Hin.
  destruct (note_of d note_id) as [r|]; [|done]. simpl in Hget.
  injection Hget as <-. simpl in Htags. injection Htags as <-.
  apply tag_names_of_elem, elem_of_linked_names in Hin as (t & Ht & <- & _).
  rewrite merge_sort_Permutation. by apply list_elem_of_fmap_2.
Qed.

Lemma note_tags_are_listed_witness :
  exists all_names,
    fst (list_all_tags sample_db) = Ok all_names
    ∧ forall name, name ∈ ["a"%string; "b"%string] -> name ∈ all_names.
Proof.
  apply (note_tags_are_listed 1 sample_db
           (NoteDict.mk 1 "abc" "x" (Some "work"%string) 100 100
              (Some ["a"%string; "b"%string]))); reflexivity.
Defined.

(** ** Updating and deleting at the edges *)

(** X13. [update_note] on an id no row carries (an integer the engine can
    bind) returns [None] and changes nothing, whatever the input: in
    particular the tags it names are not created. *)
Theorem update_missing_note_changes_nothing (now note_id : Z)
    (data : update_data) (d : database) :
  Sql.integer note_id ->
  note_of d note_id = None ->
  update_note now note_id data d = (Ok None, d).
Proof. intros _. apply update_note_missing. Qed.

Lemma update_missing_note_changes_nothing_witness :
  update_note 9 5
    {| u_title := Some "t"%string; u_content := None; u_category := None;
       u_tags := Some ["fresh"%string] |} sample_db = (Ok None, sample_db).
Proof.
  apply (update_missing_note_changes_nothing 9 5 _ sample_db);
    [unfold Sql.integer; lia|reflexivity].
Defined.

(** X14. When [tags] is present in the input of [update_note] on an
    existing note, whatever else is present, the note returned (and read
    back by [get_note]) carries no tags at all if the list is empty or holds
    blank names only, and on a well-formed database carries exactly the
    cleaned names, sorted and deduplicated. In the first case no link of
    the note is left in [note_tags]. *)
Theorem update_note_replaces_tags (now note_id : Z) (data : update_data)
    (tag_names : list string) (d : database) (r : Note.row) :
  note_of d note_id = Some r ->
  u_tags data = Some tag_names ->
  exists note d',
    update_note now note_id data d = (Ok (Some note), d')
    ∧ get_note note_id d' = (Ok (Some note), d')
    ∧ (cleaned tag_names = [] ->
       NoteDict.tags note = Some []
       ∧ Forall (fun x => NoteTag.note_id x ≠ note_id) (note_tags d'))
    ∧ (wf d -> NoteDict.tags note = Some (Text.sorted_set (cleaned tag_names))).
Proof.
  intros Hr Htags.
  destruct (update_note_spec now note_id data d r Hr)
    as (d' & Hrun & _ & _ & _ & Hwf' & Hspec).
  destruct (update_note_result now note_id data d r Hr)
    as (d'' & Hrun' & Hget & _ & _).
  assert (d'' = d') by congruence. subst d''.
  rewrite Htags in Hspec. destruct Hspec as (ids & Hall & Hl).
  eexists _, d'. split; [exact Hrun|]. split; [exact Hget|].
  simpl. rewrite updated_row_id, (note_of_id _ _ _ Hr). split.
  - intros Hnil. rewrite Hnil in Hall. apply Forall2_nil_inv_r in Hall as ->.
    change (add_links note_id [] ?l) with l in Hl.
    assert (Hall : Forall (fun x => NoteTag.note_id x ≠ note_id) (note_tags d'))
      by (rewrite Hl; apply others_owner).
    split; [|done].
    by rewrite tag_names_of_sorted_linked, linked_names_nil.
  - intros Hwf. f_equal.
    by destruct (replaced_tag_names d' note_id ids (note_tags d)
                   (cleaned tag_names) (Hwf' Hwf) Hl Hall).
Qed.

Lemma update_note_replaces_tags_witness :
  exists note d',
    update_note 9 1
      {| u_title := None; u_content := Some "y"%string; u_category := None;
         u_tags := Some [" "%string; ""%string] |} sample_db
    = (Ok (Some note), d')
    ∧ NoteDict.tags note = Some [].
Proof.
  destruct (update_note_replaces_tags 9 1
              {| u_title := None; u_content := Some "y"%string;
                 u_category := None; u_tags := Some [" "%string; ""%string] |}
              [" "%string; ""%string] sample_db
              (Note.mk 1 "abc" "x" (Some "work"%string) 100 100)
              eq_refl eq_refl)
    as (note & d' & Hrun & _ & Hclear & _).
  exists note, d'. split; [exact Hrun|]. by apply Hclear.
Defined.

Lemma note_of_is_Some d note_id :
  is_Some (note_of d note_id)
  <-> (0 < length (filter (fun r => Note.id r = note_id) (notes d)))%nat.
Proof.
  unfold note_of, Sql.fetchone.
  destruct (filter _ (notes d)); simpl; split; try lia; try by eauto.
Qed.

(** X15. On any database and for any id the engine can bind, [delete_note]
    returns [True] exactly when a row carried the id, and leaves the database
    as it was when none did; afterwards [get_note] on the id finds nothing
    and a second [delete_note] returns [False] and changes nothing more. *)
Theorem delete_note_twice (note_id : Z) (d : database) :
  Sql.integer note_id ->
  (fst (delete_note note_id d) = Ok true <-> is_Some (note_of d note_id))
  ∧ (fst (delete_note note_id d) = Ok false <-> note_of d note_id = None)
  ∧ (note_of d note_id = None -> snd (delete_note note_id d) = d)
  ∧ get_note note_id (snd (delete_note note_id d))
    = (Ok None, snd (delete_note note_id d))
  ∧ delete_note note_id (snd (delete_note note_id d))
    = (Ok false, snd (delete_note note_id d)).
Proof.
  intros _.
  assert (Hgone : note_of (snd (delete_note note_id d)) note_id = None).
  { apply note_of_None. rewrite delete_note_spec. simpl.
    apply Forall_forall. by intros x [? _]%list_elem_of_filter. }
  split_and!.
  - rewrite note_of_is_Some, delete_note_spec. simpl. split.
    + intros [= H]. by apply bool_decide_eq_true in H.
    + intros H. by rewrite bool_decide_eq_true_2.
  - rewrite eq_None_not_Some, note_of_is_Some, delete_note_spec. simpl. split.
    + intros [= H]. by apply bool_decide_eq_false in H.
    + intros H. by rewrite bool_decide_eq_false_2.
  - intros Hnone. by rewrite delete_note_missing.
  - by rewrite get_note_spec, Hgone.
  - by apply delete_note_missing.
Qed.

Lemma filter_filter_other (rows : list Note.row) note_id other :
  other ≠ note_id ->
  filter (fun r => Note.id r = other)
         (filter (fun r => Note.id r ≠ note_id) rows)
  = filter (fun r => Note.id r = other) rows.
Proof.
  intros Hne. induction rows as [|r rows IH]; [done|].
  rewrite !filter_cons. destruct (decide (Note.id r ≠ note_id)) as [E|E].
  - by rewrite filter_cons, IH.
  - rewrite IH. apply dec_stable in E. by rewrite decide_False by congruence.
Qed.

(** X16. On any database, deleting a note changes what [get_note] returns
    for no other id, and changes neither the [tags] table nor what
    [list_all_tags] returns: the tags of the deleted note stay listed. *)
Theorem delete_note_keeps_other_notes (note_id other : Z) (d : database) :
  other ≠ note_id ->
  fst (get_note other (snd (delete_note note_id d))) = fst (get_note other d)
  ∧ tags (snd (delete_note note_id d)) = tags d
  ∧ fst (list_all_tags (snd (delete_note note_id d))) = fst (list_all_tags d).
Proof.
  intros Hne. rewrite delete_note_spec. simpl. split; [|done].
  rewrite !get_note_spec. simpl. unfold note_of. simpl.
  by rewrite filter_filter_other.
Qed.

Lemma delete_note_keeps_other_notes_witness :
  fst (get_note 1 (snd (delete_note 2 sample_db))) = fst (get_note 1 sample_db).
Proof. apply (delete_note_keeps_other_notes 2 1 sample_db). discriminate. Defined.

(** ** Listing, once more *)

Lemma note_of_stored d r :
  NoDup (Note.id <$> notes d) -> r ∈ notes d -> note_of d (Note.id r) = Some r.
Proof.
  intros Hnd Hr. unfold note_of.
  by rewrite (filter_key_unique Note.id _ _ Hnd Hr).
Qed.

(** X17. In every reachable state and for every filter whose [LIKE]
    pattern is within the engine's limit, [list_notes] lists no note twice,
    not even when the tag join is taken, and lists no more notes than are
    stored; and every listed note is exactly what [get_note] returns for its
    id. *)
Theorem list_notes_agrees_with_get (q tag category : option string)
    (d : database) :
  reachable d ->
  searchable q ->
  exists result,
    list_notes q tag category d = (Ok result, d)
    ∧ NoDup (NoteDict.id <$> result)
    ∧ (length result ≤ length (notes d))%nat
    ∧ Forall (fun note => get_note (NoteDict.id note) d = (Ok (Some note), d))
             result.
Proof.
  intros Hwf%reachable_wf Hq. rewrite (list_notes_matches q tag category d Hwf Hq).
  eexists. split; [reflexivity|].
  set (rows := filter (fun r => matches d q tag category r = true) (notes d)).
  split_and!.
  - rewrite <- list_fmap_compose.
    change (NoteDict.id ∘ with_tags d) with Note.id.
    rewrite sort_rows_Permutation.
    apply (sublist_NoDup _ (Note.id <$> notes d)); [apply Hwf|].
    apply fmap_sublist, sublist_filter.
  - rewrite length_fmap, sort_rows_Permutation. apply length_filter.
  - apply Forall_fmap, Forall_forall. intros r Hr. simpl.
    rewrite sort_rows_Permutation in Hr.
    apply list_elem_of_filter in Hr as [_ Hr].
    rewrite get_note_spec. by rewrite (note_of_stored d r (wf_note_ids _ Hwf) Hr).
Qed.

Lemma list_notes_agrees_with_get_witness :
  exists result,
    list_notes None (Some "a"%string) None listing_db = (Ok result, listing_db)
    ∧ NoDup (NoteDict.id <$> result)
    ∧ length result = 2%nat.
Proof.
  destruct (list_notes_agrees_with_get None (Some "a"%string) None listing_db)
    as (result & Hrun & Hnd & _).
  - apply listing_db_reachable.
  - exact I.
  - exists result. split; [exact Hrun|]. split; [exact Hnd|].
    vm_compute in Hrun. by injection Hrun as <-.
Defined.

Lemma matches_weaken d q tag category q' tag' category' r :
  (q' = q ∨ q' = None) -> (tag' = tag ∨ tag' = None) ->
  (category' = category ∨ category' = None) ->
  matches d q tag category r = true -> matches d q' tag' category' r = true.
Proof.
  unfold matches. rewrite !andb_true_iff.
  intros [->| ->] [->| ->] [->| ->] [[? ?] ?]; by split_and!.
Qed.

(** X18. In every reachable state, dropping filters never loses a note:
    whatever [list_notes] returns under some filters, the [LIKE] pattern
    within the engine's limit, it also returns when any of them is left out,
    and in particular when none is given. *)
Theorem list_notes_filters_only_narrow (q tag category q' tag' category' :
    option string) (d : database) :
  reachable d ->
  searchable q ->
  (q' = q ∨ q' = None) -> (tag' = tag ∨ tag' = None) ->
  (category' = category ∨ category' = None) ->
  exists narrow wide,
    list_notes q tag category d = (Ok narrow, d)
    ∧ list_notes q' tag' category' d = (Ok wide, d)
    ∧ forall note, note ∈ narrow -> note ∈ wide.
Proof.
  intros Hwf%reachable_wf Hsq Hq Ht Hc.
  assert (Hsq' : searchable q') by (by destruct Hq as [->| ->]).
  rewrite !list_notes_matches by done.
  eexists _, _. split; [done|]. split; [done|].
  intros note (r & -> & Hr)%list_elem_of_fmap. apply list_elem_of_fmap_2.
  rewrite sort_rows_Permutation in *.
  apply list_elem_of_filter in Hr as [Hm Hr]. apply list_elem_of_filter.
  split; [|done]. by apply (matches_weaken d q tag category).
Qed.

Lemma list_notes_filters_only_narrow_witness :
  exists narrow wide,
    list_notes (Some "i"%string) (Some "a"%string) None listing_db
    = (Ok narrow, listing_db)
    ∧ list_notes None None None listing_db = (Ok wide, listing_db)
    ∧ forall note, note ∈ narrow -> note ∈ wide.
Proof.
  apply (list_notes_filters_only_narrow (Some "i"%string) (Some "a"%string) None
           None None None listing_db); auto.
  - apply listing_db_reachable.
  - vm_compute. discriminate.
Defined.

(** X19. In every reachable state, once a note is deleted no listing
    returns it, under any filter whose [LIKE] pattern is within the engine's
    limit: the links it leaves behind in [note_tags] make it match no tag
    filter. *)
Theorem deleted_note_is_never_listed (note_id : Z) (q tag category :
    option string) (d : database) :
  reachable d ->
  searchable q ->
  exists result,
    list_notes q tag category (snd (delete_note note_id d))
    = (Ok result, snd (delete_note note_id d))
    ∧ note_id ∉ NoteDict.id <$> result.
Proof.
  intros Hr Hq.
  pose proof (reachable_wf _ (reach_delete note_id d Hr)) as Hwf.
  rewrite (list_notes_matches q tag category _ Hwf Hq).
  eexists. split; [reflexivity|].
  rewrite <- list_fmap_compose. change (NoteDict.id ∘ with_tags _) with Note.id.
  intros (r & -> & Hin)%list_elem_of_fmap.
  rewrite sort_rows_Permutation in Hin.
  apply list_elem_of_filter in Hin as [_ Hin].
  rewrite delete_note_spec in Hin. simpl in Hin.
  by apply list_elem_of_filter in Hin as [? _].
Qed.

Lemma deleted_note_is_never_listed_witness :
  exists result,
    list_notes None (Some "a"%string) None (snd (delete_note 2 listing_db))
    = (Ok result, snd (delete_note 2 listing_db))
    ∧ 2 ∉ NoteDict.id <$> result.
Proof.
  apply (deleted_note_is_never_listed 2 None (Some "a"%string) None listing_db).
  - apply listing_db_reachable.
  - exact I.
Defined.

(** ** Seeding *)

(** X20. [seed_data] never raises. When any note is stored it changes
    nothing; otherwise it adds exactly three notes, keeping every tag row
    there was. Either way a second run changes nothing. *)
Theorem seed_data_runs_once (clock clock' : nat -> Z) (d : database) :
  exists d',
    seed_data clock d = (Ok tt, d')
    ∧ (notes d ≠ [] -> d' = d)
    ∧ (notes d = [] -> length (notes d') = 3%nat)
    ∧ (exists new, tags d' = tags d ++ new)
    ∧ seed_data clock' d' = (Ok tt, d').
Proof.
  destruct (seed_data_spec clock d) as (d' & added & new & Hrun & Hn & Hlen & Ht & _).
  exists d'. split; [done|].
  assert (Hnoop : forall e, notes e ≠ [] -> forall k, seed_data k e = (Ok tt, e)).
  { intros e He k. unfold seed_data, get_conn. unfold bind at 1.
    unfold Sql.count_notes, query. change (db (connect e)) with e.
    rewrite bool_decide_eq_true_2; [done|].
    destruct (notes e); [done|simpl; lia]. }
  split_and!.
  - intros Hne. rewrite (Hnoop d Hne) in Hrun. by injection Hrun.
  - intros Hnil. rewrite Hn, Hnil, length_app, Hlen. by rewrite Hnil.
  - by exists new.
  - destruct (notes d) as [|r l] eqn:E.
    + apply Hnoop. rewrite Hn. simpl.
      rewrite bool_decide_eq_false_2 in Hlen by (simpl; lia). by destruct added.
    + rewrite (Hnoop d) in Hrun by (by rewrite E). injection Hrun as <-.
      apply Hnoop. by rewrite E.
Qed.

(** * The view functions of [routes/notes.py]

    Each view is modelled by what its body does with the repository (return
    a value, [abort] with a status and message, or let an exception escape)
    followed by the [@blp.response] decorator around it, which dumps the
    returned value with the schema it names. The [@blp.arguments] decorators
    (loading and validating the request) are not modelled; the views are
    given the already loaded arguments. An exception that escapes a view is
    answered with status 500. *)

Module Routes.

Inductive outcome (A : Type) :=
  | Returned (a : A)
  | Aborted (status : nat) (message : string)
  | Escaped (e : error).
Arguments Returned {A} a.
Arguments Aborted {A} status message.
Arguments Escaped {A} e.

(** [str(e)] *)
Definition str (e : error) : string :=
  match e with
  | IntegrityError s => s
  | OperationalError s => s
  | TypeError s => s
  | AttributeError s => s
  end.

(** [fields.DateTime] of [NoteSchema], dumping one value of a note dict: the
    serializer calls [isoformat] on the value. [row_to_dict] hands on what
    the [sqlite3] row holds for a [DATETIME] column, which is the text the
    engine stored, and a [str] has no such method. *)
Definition dump_datetime (stored : Z) : result string :=
  Raise (AttributeError "'str' object has no attribute 'isoformat'").

(** [NoteSchema().dump(note)]: the string, list and integer fields dump as
    they are. *)
Definition dump_note (note : NoteDict.t) : result NoteDict.t :=
  and_then (dump_datetime (NoteDict.created_at note)) (fun _ =>
  and_then (dump_datetime (NoteDict.updated_at note)) (fun _ => Ok note)).

(** [NoteSchema(many=True).dump(notes)] *)
Fixpoint dump_notes (notes : list NoteDict.t) : result (list NoteDict.t) :=
  match notes with
  | [] => Ok []
  | note :: rest =>
      and_then (dump_note note) (fun dumped =>
      and_then (dump_notes rest) (fun more => Ok (dumped :: more)))
  end.

(** [@blp.response(status, schema)] around a view body. *)
Definition response {A B} (dump : A -> result B) (o : outcome A * database)
    : outcome B * database :=
  match o with
  | (Returned a, d) =>
      match dump a with
      | Ok dumped => (Returned dumped, d)
      | Raise e => (Escaped e, d)
      end
  | (Aborted status message, d) => (Aborted status message, d)
  | (Escaped e, d) => (Escaped e, d)
  end.

(** The loaded query string of [GET /notes]. *)
Record query_args := {
  a_q : option string;
  a_tag : option string;
  a_category : option string
}.

(** [NotesCollection.get] *)
Definition notes_get (args : query_args) (d : database)
    : outcome (list NoteDict.t) * database :=
  response dump_notes
    match list_notes (a_q args) (a_tag args) (a_category args) d with
    | (Ok notes, d') => (Returned notes, d')
    | (Raise e, d') => (Escaped e, d')
    end.

(** [NotesCollection.post]: any exception of [create_note] becomes
    [abort(400)]. *)
Definition notes_post (now : Z) (data : create_data) (d : database)
    : outcome NoteDict.t * database :=
  response dump_note
    match create_note now data d with
    | (Ok note, d') => (Returned note, d')
    | (Raise e, d') =>
        (Aborted 400 ("Failed to create note: " ++ str e)%string, d')
    end.

(** [NotesItem.get] *)
Definition item_get (note_id : Z) (d : database)
    : outcome NoteDict.t * database :=
  response dump_note
    match get_note note_id d with
    | (Ok (Some note), d') => (Returned note, d')
    | (Ok None, d') => (Aborted 404 "Note not found", d')
    | (Raise e, d') => (Escaped e, d')
    end.

(** [not data], for the loaded body of a [PATCH]: no known key present. *)
Definition no_fields (data : update_data) : bool :=
  match u_title data, u_content data, u_category data, u_tags data with
  | None, None, None, None => true
  | _, _, _, _ => false
  end.

(** [NotesItem.patch] *)
Definition item_patch (now : Z) (data : update_data) (note_id : Z)
    (d : database) : outcome NoteDict.t * database :=
  response dump_note
    (if no_fields data then (Aborted 400 "No fields provided for update", d)
     else
       match update_note now note_id data d with
       | (Ok (Some note), d') => (Returned note, d')
       | (Ok None, d') => (Aborted 404 "Note not found", d')
       | (Raise e, d') => (Escaped e, d')
       end).

(** [NotesItem.delete]; [@blp.response(204)] names no schema. *)
Definition item_delete (note_id : Z) (d : database)
    : outcome string * database :=
  response Ok
    match delete_note note_id d with
    | (Ok true, d') => (Returned ""%string, d')
    | (Ok false, d') => (Aborted 404 "Note not found", d')
    | (Raise e, d') => (Escaped e, d')
    end.

(** [TagsCollection.get]: the value under the key ["tags"], which
    [TagListSchema] dumps as it is. *)
Definition tags_get (d : database) : outcome (list string) * database :=
  response Ok
    match list_all_tags d with
    | (Ok names, d') => (Returned names, d')
    | (Raise e, d') => (Escaped e, d')
    end.

End Routes.

Lemma response_state {A B} (dump : A -> result B)
    (o : Routes.outcome A * database) :
  snd (Routes.response dump o) = snd o.
Proof. destruct o as [[a|status message|e] d]; simpl; [|done..]. by destruct (dump a). Qed.

Lemma response_note (note : NoteDict.t) (d : database) :
  Routes.response Routes.dump_note (Routes.Returned note, d)
  = (Routes.Escaped (AttributeError "'str' object has no attribute 'isoformat'"), d).
Proof. done. Qed.

(** X21. [NotesItem.patch] aborts with 400 and touches nothing when the
    loaded body has no known field, whether or not the note exists; with a
    field present it aborts with 404 and touches nothing when no row carries
    the id (an integer the engine can bind). When the note exists, the update
    is carried out and committed, yet the request is answered with an error:
    the updated note cannot be dumped with [NoteSchema], because its
    timestamps are the text the engine stored; [NotesItem.get] on the id
    fails in the same way. *)
Theorem patch_view_outcomes (now note_id : Z) (data : update_data)
    (d : database) :
  (Routes.no_fields data = true ->
   Routes.item_patch now data note_id d
   = (Routes.Aborted 400 "No fields provided for update", d))
  ∧ (Routes.no_fields data = false -> Sql.integer note_id ->
     note_of d note_id = None ->
     Routes.item_patch now data note_id d
     = (Routes.Aborted 404 "Note not found", d))
  ∧ (Routes.no_fields data = false -> is_Some (note_of d note_id) ->
     exists note d' e,
       update_note now note_id data d = (Ok (Some note), d')
       ∧ Routes.item_patch now data note_id d = (Routes.Escaped e, d')
       ∧ get_note note_id d' = (Ok (Some note), d')
       ∧ Routes.item_get note_id d' = (Routes.Escaped e, d')).
Proof.
  unfold Routes.item_patch. split_and!.
  - by intros ->.
  - intros -> _ Hnone. by rewrite update_note_missing.
  - intros -> [r Hr].
    destruct (update_note_result now note_id data d r Hr)
      as (d' & Hrun & Hget & _).
    eexists _, d', _. split; [exact Hrun|]. rewrite Hrun, response_note.
    split; [reflexivity|]. split; [exact Hget|].
    unfold Routes.item_get. by rewrite Hget.
Qed.

Lemma patch_view_outcomes_witness :
  Routes.item_patch 9
    {| u_title := None; u_content := None; u_category := None; u_tags := None |}
    5 sample_db
  = (Routes.Aborted 400 "No fields provided for update", sample_db)
  ∧ Routes.item_patch 9
      {| u_title := None; u_content := None; u_category := Some None;
         u_tags := None |} 5 sample_db
    = (Routes.Aborted 404 "Note not found", sample_db)
  ∧ exists note d' e,
      update_note 9 1
        {| u_title := Some "t"%string; u_content := None; u_category := None;
           u_tags := None |} sample_db = (Ok (Some note), d')
      ∧ Routes.item_patch 9
          {| u_title := Some "t"%string; u_content := None; u_category := None;
             u_tags := None |} 1 sample_db = (Routes.Escaped e, d')
      ∧ NoteDict.title note = "t"%string.
Proof.
  split; [|split].
  - by apply (patch_view_outcomes 9 5 _ sample_db).
  - apply (patch_view_outcomes 9 5 _ sample_db);
      [reflexivity|unfold Sql.integer; lia|reflexivity].
  - destruct (patch_view_outcomes 9 1
                {| u_title := Some "t"%string; u_content := None;
                   u_category := None; u_tags := None |} sample_db)
      as (_ & _ & H).
    destruct H as (note & d' & e & Hrun & Hview & _); [reflexivity|by eexists|].
    exists note, d', e. split; [exact Hrun|]. split; [exact Hview|].
    vm_compute in Hrun. by injection Hrun as <- _.
Defined.

(** X22. For an id the engine can bind, [NotesItem.delete] returns the
    empty body exactly when a row carried the id and aborts with 404
    otherwise, touching nothing; after it, both [NotesItem.get] and a second
    [NotesItem.delete] on the id abort with 404. *)
Theorem delete_view_outcomes (note_id : Z) (d : database) :
  Sql.integer note_id ->
  (is_Some (note_of d note_id) ->
   exists d', Routes.item_delete note_id d = (Routes.Returned ""%string, d'))
  ∧ (note_of d note_id = None ->
     Routes.item_delete note_id d = (Routes.Aborted 404 "Note not found", d))
  ∧ Routes.item_get note_id (snd (Routes.item_delete note_id d))
    = (Routes.Aborted 404 "Note not found", snd (Routes.item_delete note_id d))
  ∧ Routes.item_delete note_id (snd (Routes.item_delete note_id d))
    = (Routes.Aborted 404 "Note not found", snd (Routes.item_delete note_id d)).
Proof.
  intros _.
  assert (Hsnd : snd (Routes.item_delete note_id d) = snd (delete_note note_id d)).
  { unfold Routes.item_delete. rewrite response_state, delete_note_spec.
    by destruct (bool_decide _). }
  assert (Hgone : note_of (snd (delete_note note_id d)) note_id = None).
  { apply note_of_None. rewrite delete_note_spec. simpl.
    apply Forall_forall. by intros x [? _]%list_elem_of_filter. }
  split_and!.
  - intros [r Hr]. destruct (delete_note_existing note_id d r Hr) as (d' & Hrun & _).
    exists d'. unfold Routes.item_delete. by rewrite Hrun.
  - intros Hnone. unfold Routes.item_delete. by rewrite delete_note_missing.
  - rewrite Hsnd. unfold Routes.item_get. by rewrite get_note_spec, Hgone.
  - rewrite Hsnd. unfold Routes.item_delete at 1.
    by rewrite (delete_note_missing _ _ Hgone).
Qed.

Lemma delete_view_outcomes_witness :
  exists d', Routes.item_delete 1 sample_db = (Routes.Returned ""%string, d').
Proof.
  apply (delete_view_outcomes 1 sample_db); [unfold Sql.integer; lia|by eexists].
Defined.

(** X23. [NotesCollection.post] never takes its [abort(400)] branch: on any
    database [create_note] returns and the new note is committed. The
    request is nevertheless answered with an error, raised outside the
    [try] when the returned note is dumped with [NoteSchema]: its timestamps
    are the text the engine stored. In a reachable state [get_note] finds
    the note under the returned id, while [NotesItem.get] on that id and
    [NotesCollection.get] without filters fail in the same way. *)
Theorem post_view_outcomes (now : Z) (data : create_data) (d : database) :
  exists note d' e,
    create_note now data d = (Ok note, d')
    ∧ Routes.notes_post now data d = (Routes.Escaped e, d')
    ∧ (reachable d ->
       get_note (NoteDict.id note) d' = (Ok (Some note), d')
       ∧ Routes.item_get (NoteDict.id note) d' = (Routes.Escaped e, d')
       ∧ Routes.notes_get
           {| Routes.a_q := None; Routes.a_tag := None;
              Routes.a_category := None |} d'
         = (Routes.Escaped e, d')).
Proof.
  destruct (create_note_spec now data d) as (names & d' & Hrun & Hnotes & _).
  eexists _, d', _. split; [exact Hrun|].
  unfold Routes.notes_post. rewrite Hrun, response_note. split; [reflexivity|].
  intros Hr. pose proof (reachable_wf d Hr) as Hwf.
  destruct (create_note_stored now data d Hwf) as (d'' & Hrun' & _ & _).
  rewrite Hrun in Hrun'.
  assert (d'' = d') by congruence. subst d''.
  assert (Hnote : NoteDict.set_tags (row_to_dict (new_note now data d)) names
                  = with_tags d' (new_note now data d)) by congruence.
  rewrite Hnote.
  assert (Hr' : reachable d').
  { replace d' with (snd (create_note now data d)) by (by rewrite Hrun).
    by constructor. }
  assert (Hget : get_note (NoteDict.id (with_tags d' (new_note now data d))) d'
                 = (Ok (Some (with_tags d' (new_note now data d))), d')).
  { rewrite get_note_spec. simpl.
    change (Sql.next_rowid _ _) with (Note.id (new_note now data d)).
    by rewrite (note_of_new now data d d' Hnotes). }
  split; [exact Hget|]. split.
  - unfold Routes.item_get. by rewrite Hget.
  - unfold Routes.notes_get. cbn [Routes.a_q Routes.a_tag Routes.a_category].
    rewrite (list_notes_matches None None None d' (reachable_wf _ Hr') I).
    rewrite filter_all by done.
    assert (Hin : new_note now data d ∈ Sql.sort_rows (notes d')).
    { rewrite sort_rows_Permutation, Hnotes. apply elem_of_app. right. left. }
    destruct (Sql.sort_rows (notes d')) as [|r rows]; [by apply elem_of_nil in Hin|].
    reflexivity.
Qed.

Lemma post_view_outcomes_witness :
  exists note d' e,
    create_note 7 sample_data sample_db = (Ok note, d')
    ∧ Routes.notes_post 7 sample_data sample_db = (Routes.Escaped e, d')
    ∧ get_note (NoteDict.id note) d' = (Ok (Some note), d').
Proof.
  destruct (post_view_outcomes 7 sample_data sample_db)
    as (note & d' & e & Hrun & Hview & Hafter).
  exists note, d', e. split; [exact Hrun|]. split; [exact Hview|].
  apply Hafter. apply reach_create, reach_init.
Defined.

(** * Start-up: [setup_app] of [startup.py] *)

Module Startup.

(** [str.lower] on one code point below 256: the ASCII capitals and the
    capitals of Latin-1 (all of 192..222 but the multiplication sign). *)
Definition lower_char (c : ascii) : ascii :=
  let n := N_of_ascii c in
  if (((65 <=? n) && (n <=? 90))
      || ((192 <=? n) && (n <=? 222) && negb (n =? 215)))%N
  then ascii_of_N (n + 32) else c.

Fixpoint lower (s : string) : string :=
  match s with
  | EmptyString => EmptyString
  | String c s' => String (lower_char c) (lower s')
  end.

(** [os.getenv("SEED_ON_STARTUP", "false").lower() in ("1", "true", "yes", "y")];
    [env] is the variable as the process sees it after [load_dotenv]. *)
Definition seed_on_startup (env : option string) : bool :=
  bool_decide (lower (default "false"%string env)
               ∈ ["1"%string; "true"%string; "yes"%string; "y"%string]).

(** [setup_app], from the database file found ([None]: no file yet) to the
    database left. *)
Definition setup_app (env : option string) (clock : nat -> Z)
    (file : option database) : database :=
  let d := init_db file in
  if seed_on_startup env then snd (seed_data clock d) else d.

End Startup.

Lemma seed_data_noop clock d :
  notes d ≠ [] -> seed_data clock d = (Ok tt, d).
Proof.
  intros Hd. unfold seed_data, get_conn. unfold bind at 1.
  unfold Sql.count_notes, query. change (db (connect d)) with d.
  rewrite bool_decide_eq_true_2; [done|].
  destruct (notes d); [done|simpl; lia].
Qed.

Lemma seed_data_again clock clock' d :
  seed_data clock' (snd (seed_data clock d)) = (Ok tt, snd (seed_data clock d)).
Proof.
  destruct (notes d) as [|r l] eqn:E.
  - destruct (seed_data_spec clock d) as (d' & added & new & -> & Hn & Hlen & _).
    simpl. apply seed_data_noop. rewrite Hn, E in *. simpl.
    rewrite bool_decide_eq_false_2 in Hlen by (simpl; lia). by destruct added.
  - rewrite (seed_data_noop clock d) by (by rewrite E). simpl.
    apply seed_data_noop. by rewrite E.
Qed.

(** X24. [setup_app] seeds only when [SEED_ON_STARTUP], lower-cased, is one
    of [1], [true], [yes], [y] (unset counts as [false]); otherwise, and
    whenever the file already holds a note, an existing database is left as
    it is. Starting up a second time on the database the first start-up
    left changes nothing: the samples are never inserted twice. *)
Theorem setup_app_is_idempotent (env : option string) (clock clock' : nat -> Z)
    (file : option database) :
  Startup.setup_app env clock' (Some (Startup.setup_app env clock file))
  = Startup.setup_app env clock file
  ∧ (Startup.seed_on_startup env = false ->
     Startup.setup_app env clock file = init_db file)
  ∧ (forall d, notes d ≠ [] -> Startup.setup_app env clock (Some d) = d)
  ∧ Startup.seed_on_startup None = false
  ∧ Startup.seed_on_startup (Some "TRUE"%string) = true
  ∧ Startup.seed_on_startup (Some "Yes"%string) = true
  ∧ Startup.seed_on_startup (Some "on"%string) = false.
Proof.
  unfold Startup.setup_app. split_and!; try reflexivity.
  - destruct (Startup.seed_on_startup env); [|done]. simpl.
    by rewrite seed_data_again.
  - by intros ->.
  - intros d Hd. destruct (Startup.seed_on_startup env); [|done]. simpl.
    by rewrite seed_data_noop.
Qed.

(** * What is stored under a tag name *)

(** ** [strip] *)

Lemma lstrip_length s : (String.length (Text.lstrip s) <= String.length s)%nat.
Proof.
  induction s as [|c s IH]; simpl; [lia|].
  destruct (Text.isspace c); simpl; lia.
Qed.

Lemma rstrip_length s : (String.length (Text.rstrip s) <= String.length s)%nat.
Proof.
  induction s as [|c s IH]; simpl; [lia|].
  destruct (Text.rstrip s); [destruct (Text.isspace c)|]; simpl in *; lia.
Qed.

Lemma strip_length s : (String.length (Text.strip s) <= String.length s)%nat.
Proof.
  unfold Text.strip. pose proof (rstrip_length (Text.lstrip s)).
  pose proof (lstrip_length s). lia.
Qed.

Lemma rstrip_idemp s : Text.rstrip (Text.rstrip s) = Text.rstrip s.
Proof.
  induction s as [|c s IH]; [done|]. simpl.
  destruct (Text.rstrip s) as [|e r] eqn:E.
  - destruct (Text.isspace c) eqn:Ec; [done|]. simpl. by rewrite Ec.
  - change (Text.rstrip (String c (String e r)))
      with (match Text.rstrip (String e r) with
            | EmptyString =>
                if Text.isspace c then EmptyString else String c EmptyString
            | r' => String c r'
            end).
    by rewrite IH.
Qed.

(** [s] does not begin with white space. *)
Definition starts_clean (s : string) : bool :=
  match s with
  | EmptyString => true
  | String c _ => negb (Text.isspace c)
  end.

Lemma lstrip_starts_clean s : starts_clean (Text.lstrip s) = true.
Proof.
  induction s as [|c s IH]; [done|]. simpl.
  destruct (Text.isspace c) eqn:E; [done|]. simpl. by rewrite E.
Qed.

Lemma lstrip_clean s : starts_clean s = true -> Text.lstrip s = s.
Proof.
  destruct s as [|c s]; [done|]. simpl. by intros ->%negb_true_iff.
Qed.

Lemma rstrip_starts_clean s :
  starts_clean s = true -> starts_clean (Text.rstrip s) = true.
Proof.
  destruct s as [|c s]; [done|]. simpl. intros Hc.
  destruct (Text.rstrip s); [|done].
  apply negb_true_iff in Hc. by rewrite Hc; simpl; rewrite Hc.
Qed.

Lemma strip_idemp s : Text.strip (Text.strip s) = Text.strip s.
Proof.
  unfold Text.strip.
  rewrite (lstrip_clean (Text.rstrip (Text.lstrip s))).
  - apply rstrip_idemp.
  - apply rstrip_starts_clean, lstrip_starts_clean.
Qed.

(** A name as [get_or_create_tag_ids] stores it: not empty, and with no
    white space left to trim at either end. *)
Definition trimmed (s : string) : Prop :=
  Text.nonempty s = true ∧ Text.strip s = s.

Lemma cleaned_elem tag_names name :
  name ∈ cleaned tag_names
  <-> Text.nonempty name = true ∧ exists raw, raw ∈ tag_names ∧ name = Text.strip raw.
Proof.
  unfold cleaned. rewrite list_elem_of_filter, list_elem_of_fmap.
  split; intros [? (x & ? & ?)]; split; eauto.
Qed.

Lemma cleaned_trimmed tag_names : Forall trimmed (cleaned tag_names).
Proof.
  apply Forall_forall. intros name (Hne & raw & _ & ->)%cleaned_elem.
  split; [done|apply strip_idemp].
Qed.

(** ** Where the names in [tags] come from *)

Section TagNames.

Variable Q : string -> Prop.

(** All tag rows carry a name satisfying [Q]. *)
Definition tag_names_all (d : database) : Prop :=
  Forall (fun t => Q (Tag.name t)) (tags d).

Lemma set_note_tags_tag_names c note_id tag_names r c' :
  foreign_keys c = false ->
  set_note_tags note_id tag_names c = Ok (r, c') ->
  Forall Q (cleaned tag_names) ->
  tag_names_all (db c) -> tag_names_all (db c').
Proof.
  intros Hfk Hset Hnames Hold.
  set (c0 := with_note_tags c (others note_id (note_tags (db c)))).
  destruct (get_or_create_from_new tag_names [] c0)
    as (ids & c1 & new & Hrun & Ht & _ & Hin & _).
  destruct (get_or_create_from_spec tag_names [] c0)
    as (ids2 & c2 & Hrun2 & Hg & _).
  rewrite Hrun in Hrun2. injection Hrun2 as <- <-.
  assert (Hfk1 : foreign_keys c1 = false) by (by rewrite (grows_fk _ _ Hg)).
  rewrite (set_note_tags_run c note_id tag_names ids c1 Hfk Hrun Hfk1) in Hset.
  injection Hset as _ <-. unfold tag_names_all. simpl. rewrite Ht. simpl.
  apply Forall_app. split; [done|].
  apply Forall_forall. intros t Ht'.
  rewrite Forall_forall in Hnames. apply Hnames.
  apply (list_elem_of_fmap_2 Tag.name) in Ht'. by apply Hin in Ht' as [? _].
Qed.

Lemma create_note_tag_names now data d :
  Forall Q (cleaned (default [] (c_tags data))) ->
  tag_names_all d -> tag_names_all (snd (create_note now data d)).
Proof.
  intros Hnames Hold. unfold create_note, get_conn. unfold bind at 1.
  rewrite insert_note_run. cbv zeta. change (db (connect d)) with d.
  change (Note.mk _ (c_title data) _ _ now now) with (new_note now data d).
  change (Sql.next_rowid _ _) with (Note.id (new_note now data d)).
  set (row := new_note now data d).
  set (c1 := with_notes (connect d) (notes d ++ [row]) (Note.id row)).
  destruct (default [] (c_tags data)) as [|name rest] eqn:Etags.
  - unfold bind, ret. unfold Sql.select_note, query.
    fold (note_of (db c1) (Note.id row)).
    assert (Hrow : note_of (db c1) (Note.id row) = Some row)
      by (by apply (note_of_new now data d)).
    by rewrite Hrow.
  - destruct (set_note_tags_spec c1 (Note.id row) (name :: rest) eq_refl)
      as (ids & c2 & Hg & Hall & Hrun).
    unfold bind at 1. rewrite Hrun.
    unfold bind, ret. unfold Sql.select_note, query.
    match goal with |- context [Sql.fetchone (filter _ (notes ?x))] =>
      fold (note_of x (Note.id row));
      assert (Hrow : note_of x (Note.id row) = Some row)
        by (apply (note_of_new now data d); simpl;
            by rewrite (grows_notes _ _ Hg))
    end.
    rewrite Hrow. simpl.
    by apply (set_note_tags_tag_names c1 (Note.id row) (name :: rest) _ _
                eq_refl Hrun).
Qed.

Lemma update_note_tag_names now note_id data d :
  Forall Q (cleaned (default [] (u_tags data))) ->
  tag_names_all d -> tag_names_all (snd (update_note now note_id data d)).
Proof.
  intros Hnames Hold. destruct (note_of d note_id) as [r|] eqn:Hr;
    [|by rewrite update_note_missing].
  pose proof (note_of_id _ _ _ Hr) as Hid.
  unfold update_note, get_conn. unfold bind at 1.
  unfold Sql.select_note at 1. unfold query at 1.
  change (db (connect d)) with d. fold (note_of d note_id). rewrite Hr.
  unfold bind at 1. rewrite update_step_run.
  set (c1 := with_notes (connect d) _ _).
  assert (Hfinish : forall c2, notes (db c2) = notes (db c1) ->
    (let* rows := Sql.select_note note_id in
     match Sql.fetchone rows with
     | None => raise (TypeError "row_to_dict(None)")
     | Some row =>
         let* tags := get_tags_for_note note_id in
         ret (Some (NoteDict.set_tags (row_to_dict row) tags))
     end) c2 = Ok (Some (with_tags (db c2) (updated_row now data r)), c2)).
  { intros c2 E2. unfold bind at 1. unfold Sql.select_note, query.
    fold (note_of (db c2) note_id).
    rewrite (note_of_update_rows now note_id data d (db c2)) by (by rewrite E2).
    rewrite Hr. simpl. unfold bind, get_tags_for_note,
      Sql.select_tag_names_of_note, query, ret, with_tags.
    by rewrite updated_row_id, Hid. }
  destruct (u_tags data) as [tag_names|].
  - destruct (set_note_tags_spec c1 note_id tag_names eq_refl)
      as (ids & c2 & Hg & Hall & Hrun).
    unfold bind at 1. unfold bind at 1. rewrite Hrun. unfold ret at 1.
    rewrite Hfinish by (simpl; by rewrite (grows_notes _ _ Hg)). simpl.
    by apply (set_note_tags_tag_names c1 note_id tag_names _ _ eq_refl Hrun).
  - unfold bind at 1. unfold ret at 1. by rewrite Hfinish.
Qed.

Lemma seed_samples_tag_names clock ss : forall i c c',
  foreign_keys c = false ->
  seed_samples clock i ss c = Ok (tt, c') ->
  Forall (fun s => Forall Q (cleaned s.2)) ss ->
  tag_names_all (db c) -> tag_names_all (db c').
Proof.
  induction ss as [|[[[title content] category] tag_names] rest IH];
    intros i c c' Hfk Hrun Hnames Hold.
  - by injection Hrun as <-.
  - apply Forall_cons in Hnames as [Hhere Hrest]. simpl in Hhere.
    cbn [seed_samples] in Hrun. unfold bind at 1 in Hrun.
    rewrite insert_note_run in Hrun. cbv zeta in Hrun.
    set (nid := Sql.next_rowid _ _) in Hrun.
    set (c1 := with_notes c _ _) in Hrun.
    destruct (set_note_tags_spec c1 nid tag_names Hfk)
      as (ids & c2 & Hg & Hall & Hset).
    unfold bind at 1 in Hrun. rewrite Hset in Hrun.
    assert (Hfk2 : foreign_keys c2 = false) by (by rewrite (grows_fk _ _ Hg)).
    apply (IH (S i) (with_note_tags c2 _) c' Hfk2 Hrun Hrest).
    by apply (set_note_tags_tag_names c1 nid tag_names _ _ Hfk Hset).
Qed.

Lemma seed_data_tag_names clock d :
  Forall (fun s => Forall Q (cleaned s.2)) samples ->
  tag_names_all d -> tag_names_all (snd (seed_data clock d)).
Proof.
  intros Hnames Hold. unfold seed_data, get_conn. unfold bind at 1.
  unfold Sql.count_notes, query. change (db (connect d)) with d.
  destruct (bool_decide (0 < length (notes d))%nat); [done|].
  destruct (seed_samples_full clock samples 0%nat (connect d) eq_refl)
    as (c' & added & new & Hrun & _). rewrite Hrun. simpl.
  by apply (seed_samples_tag_names clock samples 0%nat (connect d) c' eq_refl).
Qed.

End TagNames.

Lemma reachable_tag_names_trimmed d :
  reachable d -> tag_names_all trimmed d.
Proof.
  induction 1.
  - constructor.
  - apply create_note_tag_names; [apply cleaned_trimmed|done].
  - apply update_note_tag_names; [apply cleaned_trimmed|done].
  - done.
  - apply seed_data_tag_names; [|done].
    apply Forall_forall. intros s _. apply cleaned_trimmed.
Qed.

(** X25. In every reachable state every stored tag name is non-empty and
    has no white space left to trim at either end; so has every name
    [list_all_tags] returns and every tag a listed or fetched note carries. *)
Theorem stored_tag_names_are_trimmed (d : database) :
  reachable d ->
  Forall (fun t => trimmed (Tag.name t)) (tags d)
  ∧ (forall names, fst (list_all_tags d) = Ok names -> Forall trimmed names)
  ∧ (forall note_id note names,
       fst (get_note note_id d) = Ok (Some note) ->
       NoteDict.tags note = Some names -> Forall trimmed names).
Proof.
  intros Ht%reachable_tag_names_trimmed. unfold tag_names_all in Ht.
  split; [done|]. rewrite Forall_forall in Ht. split.
  - intros names. rewrite list_all_tags_spec. simpl. intros [= <-].
    apply Forall_forall. intros name.
    rewrite merge_sort_Permutation, list_elem_of_fmap.
    intros (t & -> & Hin). auto.
  - intros note_id note names. rewrite get_note_spec. simpl.
    destruct (note_of d note_id) as [r|]; [|done]. simpl.
    intros [= <-] [= <-]. apply Forall_forall. intros name.
    rewrite tag_names_of_elem, elem_of_linked_names.
    intros (t & Hin & <- & _). auto.
Qed.

Lemma stored_tag_names_are_trimmed_witness :
  Forall (fun t => trimmed (Tag.name t)) (tags sample_db).
Proof.
  apply (stored_tag_names_are_trimmed sample_db). apply reach_create, reach_init.
Defined.

(** * What is stored in a note row *)

Lemma seed_samples_rows clock ss : forall i c c',
  foreign_keys c = false ->
  seed_samples clock i ss c = Ok (tt, c') ->
  exists added,
    notes (db c') = notes (db c) ++ added
    ∧ Forall (fun r => exists j s,
                s ∈ ss
                ∧ r = Note.mk (Note.id r) s.1.1.1 s.1.1.2 (Some s.1.2)
                              (clock j) (clock j)) added.
Proof.
  induction ss as [|[[[title content] category] tag_names] rest IH];
    intros i c c' Hfk Hrun.
  - injection Hrun as <-. exists []. by rewrite app_nil_r.
  - cbn [seed_samples] in Hrun. unfold bind at 1 in Hrun.
    rewrite insert_note_run in Hrun. cbv zeta in Hrun.
    set (nid := Sql.next_rowid _ _) in Hrun.
    set (row := Note.mk nid title content (Some category) (clock i) (clock i))
      in Hrun.
    set (c1 := with_notes c _ _) in Hrun.
    destruct (set_note_tags_spec c1 nid tag_names Hfk)
      as (ids & c2 & Hg & Hall & Hset).
    unfold bind at 1 in Hrun. rewrite Hset in Hrun.
    assert (Hfk2 : foreign_keys c2 = false) by (by rewrite (grows_fk _ _ Hg)).
    destruct (IH (S i) (with_note_tags c2 _) c' Hfk2 Hrun) as (added & Hn & Hadd).
    exists (row :: added). split.
    + rewrite Hn. simpl. rewrite (grows_notes _ _ Hg). simpl.
      by rewrite <- app_assoc.
    + constructor.
      * exists i, (title, content, category, tag_names). split; [left|done].
      * eapply Forall_impl; [exact Hadd|]. simpl.
        intros r (j & s & Hs & Hr). exists j, s. split; [by right|done].
Qed.

Section NoteRows.

Variable P : Note.row -> Prop.

Definition note_rows_all (d : database) : Prop := Forall P (notes d).

Lemma create_note_rows now data d :
  P (new_note now data d) ->
  note_rows_all d -> note_rows_all (snd (create_note now data d)).
Proof.
  intros Hnew Hold.
  destruct (create_note_spec now data d) as (names & d' & -> & Hn & _).
  unfold note_rows_all. simpl. rewrite Hn. apply Forall_app. split; [done|].
  by constructor.
Qed.

Lemma update_note_rows now note_id data d :
  (forall r, r ∈ notes d -> P r -> P (updated_row now data r)) ->
  note_rows_all d -> note_rows_all (snd (update_note now note_id data d)).
Proof.
  intros Hupd Hold. destruct (note_of d note_id) as [r0|] eqn:E;
    [|by rewrite update_note_missing].
  destruct (update_note_spec now note_id data d r0 E) as (d' & -> & Hn & _).
  unfold note_rows_all in *. simpl. rewrite Hn. unfold update_rows.
  apply Forall_fmap, Forall_forall. intros r Hr. simpl.
  rewrite Forall_forall in Hold. case_decide; auto.
Qed.

Lemma delete_note_rows note_id d :
  note_rows_all d -> note_rows_all (snd (delete_note note_id d)).
Proof.
  unfold note_rows_all. rewrite delete_note_spec. simpl.
  rewrite !Forall_forall. intros Hold r [_ Hr]%list_elem_of_filter. auto.
Qed.

Lemma seed_data_rows clock d :
  (forall j s id, s ∈ samples ->
     P (Note.mk id s.1.1.1 s.1.1.2 (Some s.1.2) (clock j) (clock j))) ->
  note_rows_all d -> note_rows_all (snd (seed_data clock d)).
Proof.
  intros Hs Hold. unfold seed_data, get_conn. unfold bind at 1.
  unfold Sql.count_notes, query. change (db (connect d)) with d.
  destruct (bool_decide (0 < length (notes d))%nat); [done|].
  destruct (seed_samples_full clock samples 0%nat (connect d) eq_refl)
    as (c' & ? & ? & Hrun & _). rewrite Hrun. simpl.
  destruct (seed_samples_rows clock samples 0%nat (connect d) c' eq_refl Hrun)
    as (added & Hn & Hadd).
  unfold note_rows_all. rewrite Hn. apply Forall_app. split; [done|].
  eapply Forall_impl; [exact Hadd|]. simpl.
  intros r (j & s & Hin & ->). simpl. by apply Hs.
Qed.

End NoteRows.

(** ** Timestamps under a clock that does not run backwards *)

(** [timed t d]: [d] is reached by operations whose clock readings never
    decrease, the latest being at most [t]. *)
Inductive timed : Z -> database -> Prop :=
  | timed_init t : timed t (init_db None)
  | timed_create t now data d :
      timed t d -> t ≤ now -> timed now (snd (create_note now data d))
  | timed_update t now note_id data d :
      timed t d -> t ≤ now -> timed now (snd (update_note now note_id data d))
  | timed_delete t note_id d :
      timed t d -> timed t (snd (delete_note note_id d))
  | timed_seed t t' clock d :
      timed t d -> (forall i, t ≤ clock i ≤ t') ->
      timed t' (snd (seed_data clock d)).

Definition stamps_ordered (t : Z) (r : Note.row) : Prop :=
  Note.created_at r ≤ Note.updated_at r ∧ Note.updated_at r ≤ t.

Lemma stamps_ordered_later t t' r :
  t ≤ t' -> stamps_ordered t r -> stamps_ordered t' r.
Proof. unfold stamps_ordered. lia. Qed.

(** X26. As long as the clock never runs backwards from one operation to
    the next, every stored note has [created_at <= updated_at], and no
    timestamp is later than the latest clock reading. *)
Theorem timestamps_are_ordered (t : Z) (d : database) :
  timed t d ->
  Forall (fun r => Note.created_at r ≤ Note.updated_at r
                   ∧ Note.updated_at r ≤ t) (notes d).
Proof.
  change (timed t d -> note_rows_all (stamps_ordered t) d).
  induction 1 as [t|t now data d _ IH Hle|t now note_id data d _ IH Hle
                  |t note_id d _ IH|t t' clock d _ IH Hclock].
  - constructor.
  - apply create_note_rows.
    + unfold stamps_ordered. simpl. lia.
    + eapply Forall_impl; [exact IH|]. intros r. by apply stamps_ordered_later.
  - apply update_note_rows.
    + intros r _ [H1 H2]. rewrite updated_row_columns.
      unfold stamps_ordered in *. simpl.
      destruct (u_title data), (u_content data), (u_category data); lia.
    + eapply Forall_impl; [exact IH|]. intros r. by apply stamps_ordered_later.
  - by apply delete_note_rows.
  - apply seed_data_rows.
    + intros j s id _. unfold stamps_ordered. simpl.
      pose proof (Hclock j). lia.
    + eapply Forall_impl; [exact IH|]. intros r. apply stamps_ordered_later.
      pose proof (Hclock 0%nat). lia.
Qed.

Lemma timestamps_are_ordered_witness :
  Forall (fun r => Note.created_at r ≤ Note.updated_at r
                   ∧ Note.updated_at r ≤ 100) (notes sample_db).
Proof.
  apply (timestamps_are_ordered 100 sample_db).
  apply (timed_create 0 100 sample_data (init_db None)); [apply timed_init|lia].
Defined.

(** * What the request schemas guarantee about stored data *)

Module Schema.

(** [validate.Length(min=..., max=...)] on [len(value)]. *)
Definition length_ok (min : nat) (max : option nat) (s : string) : bool :=
  (min <=? String.length s)%nat
  && match max with
     | Some m => (String.length s <=? m)%nat
     | None => true
     end.

(** [NoteCreateSchema]: [title] 1..255, [content] at least 1, [category]
    at most 64 when not null, every tag 1..64. *)
Definition valid_create (data : create_data) : bool :=
  length_ok 1 (Some 255%nat) (c_title data)
  && length_ok 1 None (c_content data)
  && match c_category data with
     | Some c => length_ok 0 (Some 64%nat) c
     | None => true
     end
  && match c_tags data with
     | Some tags => forallb (length_ok 1 (Some 64%nat)) tags
     | None => true
     end.

(** [NoteUpdateSchema]: the same validators, every field optional. *)
Definition valid_update (data : update_data) : bool :=
  match u_title data with
  | Some s => length_ok 1 (Some 255%nat) s
  | None => true
  end
  && match u_content data with
     | Some s => length_ok 1 None s
     | None => true
     end
  && match u_category data with
     | Some (Some c) => length_ok 0 (Some 64%nat) c
     | _ => true
     end
  && match u_tags data with
     | Some tags => forallb (length_ok 1 (Some 64%nat)) tags
     | None => true
     end.

End Schema.

(** States the views reach from a fresh schema when every request body
    passed its schema. *)
Inductive served : database -> Prop :=
  | served_init : served (init_db None)
  | served_post now data d :
      served d -> Schema.valid_create data = true ->
      served (snd (Routes.notes_post now data d))
  | served_patch now data note_id d :
      served d -> Schema.valid_update data = true ->
      served (snd (Routes.item_patch now data note_id d))
  | served_delete note_id d :
      served d -> served (snd (Routes.item_delete note_id d))
  | served_seed clock d :
      served d -> served (snd (seed_data clock d)).

Definition row_valid (r : Note.row) : Prop :=
  (1 <= String.length (Note.title r) <= 255)%nat
  ∧ (1 <= String.length (Note.content r))%nat
  ∧ forall c, Note.category r = Some c -> (String.length c <= 64)%nat.

Definition tag_valid (name : string) : Prop :=
  (1 <= String.length name <= 64)%nat.

#[global] Instance tag_valid_dec name : Decision (tag_valid name).
Proof. unfold tag_valid. apply _. Defined.

Lemma length_ok_spec min max s :
  Schema.length_ok min max s = true
  <-> (min <= String.length s)%nat
      ∧ forall m, max = Some m -> (String.length s <= m)%nat.
Proof.
  unfold Schema.length_ok. rewrite andb_true_iff, Nat.leb_le.
  destruct max as [m|].
  - rewrite Nat.leb_le. split; [intros [? ?]; split; [done|by intros ? [= <-]]|].
    intros [? H]. split; [done|by apply H].
  - split; [intros [? _]; split; [done|by intros ??]|by intros [? _]].
Qed.

Lemma nonempty_length s : Text.nonempty s = true -> (1 <= String.length s)%nat.
Proof. destruct s; [done|simpl; lia]. Qed.

Lemma cleaned_tag_valid tag_names :
  forallb (Schema.length_ok 1 (Some 64%nat)) tag_names = true ->
  Forall tag_valid (cleaned tag_names).
Proof.
  intros Hall. apply Forall_forall. intros name (Hne & raw & Hraw & ->)%cleaned_elem.
  split; [by apply nonempty_length|].
  rewrite forallb_forall in Hall.
  apply list_elem_of_In, Hall, length_ok_spec in Hraw as [_ Hmax].
  pose proof (strip_length raw). specialize (Hmax _ eq_refl). lia.
Qed.

Lemma routes_post_state now data d :
  snd (Routes.notes_post now data d) = snd (create_note now data d).
Proof. unfold Routes.notes_post. by destruct (create_note now data d) as [[|] ?]. Qed.

Lemma routes_patch_state now data note_id d :
  snd (Routes.item_patch now data note_id d)
  = if Routes.no_fields data then d else snd (update_note now note_id data d).
Proof.
  unfold Routes.item_patch. destruct (Routes.no_fields data); [done|].
  by destruct (update_note now note_id data d) as [[[|]|] ?].
Qed.

Lemma routes_delete_state note_id d :
  snd (Routes.item_delete note_id d) = snd (delete_note note_id d).
Proof.
  unfold Routes.item_delete. by destruct (delete_note note_id d) as [[[|]|] ?].
Qed.

Lemma samples_valid :
  (forall (j : nat) s id (clock : nat -> Z), s ∈ samples ->
     row_valid (Note.mk id s.1.1.1 s.1.1.2 (Some s.1.2) (clock j) (clock j)))
  ∧ Forall (fun s => Forall tag_valid (cleaned s.2)) samples.
Proof.
  split.
  - intros j s id clock Hs. unfold samples in Hs.
    repeat (apply elem_of_cons in Hs as [->|Hs]);
      [..|by apply elem_of_nil in Hs];
      (unfold row_valid; split_and!; try (intros c [= <-]);
       apply Nat.leb_le; vm_compute; reflexivity).
  - apply (bool_decide_unpack _). vm_compute. exact I.
Qed.

(** X27. When every request body passed its schema, every stored note has
    a title of 1 to 255 characters, a non-empty content and a category of
    at most 64 characters if any, and every stored tag name has 1 to 64
    characters: trimming and skipping blank tags keeps the bounds the
    schema checked, and the seeded samples satisfy them too. *)
Theorem served_rows_are_valid (d : database) :
  served d ->
  Forall row_valid (notes d) ∧ Forall (fun t => tag_valid (Tag.name t)) (tags d).
Proof.
  change (served d -> note_rows_all row_valid d ∧ tag_names_all tag_valid d).
  induction 1 as [|now data d _ [IHn IHt] Hv|now data note_id d _ [IHn IHt] Hv
                  |note_id d _ [IHn IHt]|clock d _ [IHn IHt]].
  - split; constructor.
  - rewrite routes_post_state. unfold Schema.valid_create in Hv.
    rewrite !andb_true_iff in Hv. destruct Hv as [[[Ht Hc] Hcat] Htags].
    apply length_ok_spec in Ht as [Ht1 Ht2], Hc as [Hc1 _]. split.
    + apply create_note_rows; [|done]. split; [|split]; simpl.
      * split; [done|by apply Ht2].
      * done.
      * intros c Hcc. rewrite Hcc in Hcat.
        apply length_ok_spec in Hcat as [_ Hm]. by apply Hm.
    + apply create_note_tag_names; [|done].
      destruct (c_tags data); [by apply cleaned_tag_valid|constructor].
  - rewrite routes_patch_state. destruct (Routes.no_fields data); [done|].
    unfold Schema.valid_update in Hv.
    rewrite !andb_true_iff in Hv. destruct Hv as [[[Ht Hc] Hcat] Htags]. split.
    + apply update_note_rows; [|done]. intros r _ (Hr1 & Hr2 & Hr3).
      rewrite updated_row_columns. split; [|split]; simpl.
      * destruct (u_title data); [|done]. simpl.
        apply length_ok_spec in Ht as [? Hm]. split; [done|by apply Hm].
      * destruct (u_content data); [|done]. simpl.
        by apply length_ok_spec in Hc as [? _].
      * intros c. destruct (u_category data) as [[c0|]|]; simpl; [| |by apply Hr3].
        -- intros [= <-]. apply length_ok_spec in Hcat as [_ Hm]. by apply Hm.
        -- done.
    + apply update_note_tag_names; [|done].
      destruct (u_tags data); [by apply cleaned_tag_valid|constructor].
  - rewrite routes_delete_state. split; [by apply delete_note_rows|done].
  - destruct samples_valid as [Hrows Htags]. split.
    + apply seed_data_rows; [|done]. intros j s id Hs. by apply Hrows.
    + by apply seed_data_tag_names.
Qed.

Lemma served_rows_are_valid_witness :
  Forall row_valid (notes sample_db).
Proof.
  apply (served_rows_are_valid sample_db).
  apply (served_post 100 sample_data (init_db None)); [apply served_init|].
  reflexivity.
Defined.

(** ** The conditional parts of the statements above, at the sample *)

Lemma list_all_tags_sorted_witness :
  exists names, list_all_tags sample_db = (Ok names, sample_db) ∧ NoDup names.
Proof.
  destruct (list_all_tags_sorted sample_db) as (names & Hrun & _ & _ & _ & Hnd).
  exists names. split; [exact Hrun|]. apply Hnd. apply reach_create, reach_init.
Defined.

Lemma delete_note_twice_witness :
  snd (delete_note 5 sample_db) = sample_db.
Proof.
  destruct (delete_note_twice 5 sample_db) as (_ & _ & Hsame & _);
    [unfold Sql.integer; lia|].
  by apply Hsame.
Defined.

Lemma seed_data_runs_once_witness :
  exists d', seed_data (fun _ => 3) sample_db = (Ok tt, d') ∧ d' = sample_db.
Proof.
  destruct (seed_data_runs_once (fun _ => 3) (fun _ => 4) sample_db)
    as (d' & Hrun & Hsame & _).
  exists d'. split; [exact Hrun|]. by apply Hsame.
Defined.

Lemma setup_app_is_idempotent_witness :
  Startup.setup_app (Some "no"%string) (fun _ => 3) (Some sample_db) = sample_db.
Proof.
  destruct (setup_app_is_idempotent (Some "no"%string) (fun _ => 3) (fun _ => 3)
              (Some sample_db)) as (_ & Hoff & _).
  by apply Hoff.
Defined.
